(** * SPMD decomposition layer of the sc21 distributed benchmark driver

    Shallow embedding of [samples/distributed/explicit/sc21_bench.py]:
    the process-grid table, rank/coordinate arithmetic, block-local
    initializers, halo exchange of the Jacobi stencils, the gather
    reassembly, the validation metric and the timing report. *)

From Stdlib Require Import ZArith List Lia Bool String QArith Qround Lqa.
From Stdlib Require Import Floats Sorting.Sorted Sorting.Permutation.
From stdpp Require Import gmap.

Local Open Scope Z_scope.

(** ** Helper methods and the grid table *)

Module Topology.

(** [l2g(idx, pidx, bsize)]: local index to global index. *)
Definition l2g (idx pidx bsize : Z) : Z := idx + pidx * bsize.

(** The [grid] dictionary, in source order. *)
Definition grid : gmap Z (Z * Z) :=
  <[1 := (1, 1)]> (<[2 := (1, 2)]> (<[4 := (2, 2)]> (<[8 := (2, 4)]>
  (<[16 := (4, 4)]> (<[32 := (4, 8)]> (<[64 := (8, 8)]>
  (<[128 := (8, 16)]> (<[256 := (16, 16)]> ∅)))))))).

(** [pi = rank // Py], [pj = rank % Py]. *)
Definition coords (Py rank : Z) : Z * Z := (rank / Py, rank mod Py).

(** The rank a coordinate stands for, as used for the neighbour ranks
    ([pi*Py + pj]). *)
Definition rank_of (Py : Z) (c : Z * Z) : Z := fst c * Py + snd c.

(** [MPI.PROC_NULL], the rank that makes a transfer a no-op.  The constant
    comes from the MPI binding; it is negative in every implementation, so
    it never collides with a rank. *)
Definition PROC_NULL : Z := -1.

(** Offsets and neighbour ranks of a stencil process. *)
Record stencil := {
  noff : Z; soff : Z; woff : Z; eoff : Z;
  nn : Z; ns : Z; nw : Z; ne : Z
}.

(** [jacobi_1d], lines 1327-1335: west and east only. *)
Definition neighbours_1d (rank size : Z) : stencil :=
  let woff := 0 in
  let eoff := 0 in
  let nw := rank - 1 in
  let ne := rank + 1 in
  let '(woff, nw) := if rank =? 0 then (1, PROC_NULL) else (woff, nw) in
  let '(eoff, ne) := if rank =? size - 1 then (1, PROC_NULL) else (eoff, ne) in
  {| noff := 0; soff := 0; woff := woff; eoff := eoff;
     nn := PROC_NULL; ns := PROC_NULL; nw := nw; ne := ne |}.

(** [jacobi_2d] and [heat_3d], lines 1480-1496. *)
Definition neighbours_2d (Px Py pi pj : Z) : stencil :=
  let nn := (pi - 1) * Py + pj in
  let ns := (pi + 1) * Py + pj in
  let nw := pi * Py + (pj - 1) in
  let ne := pi * Py + (pj + 1) in
  let '(noff, nn) := if pi =? 0 then (1, PROC_NULL) else (0, nn) in
  let '(soff, ns) := if pi =? Px - 1 then (1, PROC_NULL) else (0, ns) in
  let '(woff, nw) := if pj =? 0 then (1, PROC_NULL) else (0, nw) in
  let '(eoff, ne) := if pj =? Py - 1 then (1, PROC_NULL) else (0, ne) in
  {| noff := noff; soff := soff; woff := woff; eoff := eoff;
     nn := nn; ns := ns; nw := nw; ne := ne |}.

End Topology.

Import Topology.

(** ** Entry points, from the MPI block to the first kernel call *)

Module Driver.

Inductive exn :=
| KeyError (key : Z)   (* [grid[size]] on a count the table does not hold *)
| TypeError            (* [None @ dc.program], line 513 *)
| ValueError           (* [round] of a NaN *)
| OverflowError.       (* [round] of an infinity *)

Inductive event :=
| Print (line : string)
| PrintSizes (sizes : list Z)
| Init (fn : string) (coords : list Z)
| Alloc (name : string) (shape : list Z)
| ToSdfg (prog : string)
| Compile (prog : string)
| Load (prog : string)
| Barrier
| Invoke (prog : string) (kwargs : list (string * Z))
| PrintMedian (ms : Z).

(** What a run has done so far, and how it ended. *)
Definition run (A : Type) : Type := (list event * (exn + A))%type.

#[global] Instance run_ret : MRet run := λ A a, ([], inr a).
#[global] Instance run_bind : MBind run := λ A B f m,
  match m.2 with
  | inl e => (m.1, inl e)
  | inr a => ((m.1 ++ (f a).1)%list, (f a).2)
  end.

Definition emit (e : event) : run unit := ([e], inr tt).
Definition raise {A : Type} (e : exn) : run A := ([], inl e).
Definition when (b : bool) (c : run unit) : run unit := if b then c else mret tt.

(** [Px, Py = grid[size]] *)
Definition lookup_grid (size : Z) : run (Z * Z) :=
  match grid !! size with
  | Some p => mret p
  | None => raise (KeyError size)
  end.

(** [if Px < Py: Px, Py = Py, Px] *)
Definition swap_nonsquare (p : Z * Z) : Z * Z :=
  if p.1 <? p.2 then (p.2, p.1) else p.

(** The two lines rank 0 prints on entry. *)
Definition banner (rank : Z) (title : string) (sizes : list Z) : run unit :=
  when (rank =? 0) (emit (Print title);; emit (PrintSizes sizes)).

(** Rank 0 compiles, the others load the library once rank 0 is done. *)
Definition build (prog : string) (rank : Z) : run unit :=
  when (rank =? 0) (emit (Compile prog));;
  emit Barrier;;
  when (0 <? rank) (emit (Load prog)).

(** The stencils lower the program on every rank before that. *)
Definition build_stencil (prog : string) (rank : Z) : run unit :=
  emit (ToSdfg prog);;
  build prog rank.

(** A keyword argument of the compiled program. *)
Definition kw (name : string) (v : Z) : string * Z := (name, v).

Definition call (prog : string) (kwargs : list (string * Z)) : run unit :=
  emit Barrier;;
  emit (Invoke prog kwargs);;
  emit Barrier.

(** Each [*_distr_init] is entered with the coordinates of the process
    and creates its arrays in source order. *)
Definition atax_distr_init (lM lN pi pj : Z) : run unit :=
  emit (Init "atax_distr_init" [pi; pj]);;
  emit (Alloc "A" [lM; lN]);; emit (Alloc "x" [lN]);; emit (Alloc "y" [lN]).

Definition bicg_distr_init (lM lN lMy pi pj : Z) : run unit :=
  emit (Init "bicg_distr_init" [pi; pj]);;
  emit (Alloc "A" [lM; lN]);; emit (Alloc "p" [lN]);; emit (Alloc "r" [lMy]);;
  emit (Alloc "o1" [lN]);; emit (Alloc "o2" [lMy]).

Definition doitgen_distr_init (NQ NP lR p : Z) : run unit :=
  emit (Init "doitgen_distr_init" [p]);;
  emit (Alloc "A" [lR; NQ; NP]);; emit (Alloc "C4" [NP; NP]).

Definition gemm_distr_init (lNI lNJ lNKa lNKb pi pj : Z) : run unit :=
  emit (Init "gemm_distr_init" [pi; pj]);;
  emit (Alloc "C" [lNI; lNJ]);; emit (Alloc "A" [lNI; lNKa]);;
  emit (Alloc "B" [lNKb; lNJ]).

Definition gemver_distr_init (lM lN lMy pi pj : Z) : run unit :=
  emit (Init "gemver_distr_init" [pi; pj]);;
  emit (Alloc "A" [lM; lN]);; emit (Alloc "u1" [lM]);; emit (Alloc "u2" [lM]);;
  emit (Alloc "v1" [lN]);; emit (Alloc "v2" [lN]);; emit (Alloc "w" [lMy]);;
  emit (Alloc "x" [lN]);; emit (Alloc "y" [lMy]);; emit (Alloc "z" [lN]).

Definition gesummv_distr_init (lM lN lMy pi pj : Z) : run unit :=
  emit (Init "gesummv_distr_init" [pi; pj]);;
  emit (Alloc "A" [lM; lN]);; emit (Alloc "B" [lM; lN]);;
  emit (Alloc "x" [lN]);; emit (Alloc "y" [lMy]).

Definition k2mm_distr_init (lNI lNJ lNJx lNKa lNKb lNL pi pj : Z) : run unit :=
  emit (Init "k2mm_distr_init" [pi; pj]);;
  emit (Alloc "A" [lNI; lNKa]);; emit (Alloc "B" [lNKb; lNJ]);;
  emit (Alloc "C" [lNJx; lNL]);; emit (Alloc "D" [lNI; lNL]).

(** [B] is created with [shape=(lNKa, lNJ)], line 1045. *)
Definition k3mm_distr_init (lNI lNJ lNJx lNKa lNKb lNMx lNMy lNL pi pj : Z) : run unit :=
  emit (Init "k3mm_distr_init" [pi; pj]);;
  emit (Alloc "A" [lNI; lNKa]);; emit (Alloc "B" [lNKa; lNJ]);;
  emit (Alloc "C" [lNJx; lNMy]);; emit (Alloc "D" [lNMx; lNL]);;
  emit (Alloc "E" [lNI; lNL]).

Definition mvt_distr_init (lM lN lMy pi pj : Z) : run unit :=
  emit (Init "mvt_distr_init" [pi; pj]);;
  emit (Alloc "x1" [lMy]);; emit (Alloc "x2" [lN]);; emit (Alloc "y_1" [lN]);;
  emit (Alloc "y_2" [lMy]);; emit (Alloc "A" [lM; lN]).

Definition jacobi_1d_distr_init (lN p : Z) : run unit :=
  emit (Init "jacobi_1d_distr_init" [p]);;
  emit (Alloc "A" [lN + 2]);; emit (Alloc "B" [lN + 2]).

Definition jacobi_2d_distr_init (lM lN pi pj : Z) : run unit :=
  emit (Init "jacobi_2d_distr_init" [pi; pj]);;
  emit (Alloc "A" [lM + 2; lN + 2]);; emit (Alloc "B" [lM + 2; lN + 2]).

Definition heat_3d_distr_init (N lM lN pi pj : Z) : run unit :=
  emit (Init "heat_3d_distr_init" [pi; pj]);;
  emit (Alloc "A" [lM + 2; lN + 2; N]);; emit (Alloc "B" [lM + 2; lN + 2; N]).

Definition stencil_kwargs (s : stencil) : list (string * Z) :=
  [kw "noff" (noff s); kw "soff" (soff s); kw "woff" (woff s); kw "eoff" (eoff s);
   kw "nn" (nn s); kw "ns" (ns s); kw "nw" (nw s); kw "ne" (ne s)].

(** [atax], lines 117-154, from the coordinates to the first call. *)
Definition atax_body (g : Z * Z) (rank : Z) (sizes : Z * Z) : run unit :=
  let '(Px, Py) := g in
  let pi := rank / Py in
  let pj := rank mod Py in
  banner rank "===== atax =====" [sizes.1; sizes.2];;
  let '(M, N) := sizes in
  let lM := M / Px in
  let lN := N / Py in
  let lNx := N / Py in
  let lMy := M / Py in
  atax_distr_init lM lN pi pj;;
  build "atax_distr" rank;;
  call "atax_distr"
    [kw "lM" lM; kw "lN" lN; kw "lNx" lNx; kw "lMy" lMy; kw "Px" Px; kw "Py" Py].

(** [atax]: the table entry as it stands (line 116). *)
Definition atax (rank size : Z) (sizes : Z * Z) : run unit :=
  g ← lookup_grid size;
  atax_body g rank sizes.

(** [bicg], lines 240-277, from the coordinates to the first call. *)
Definition bicg_body (g : Z * Z) (rank : Z) (sizes : Z * Z) : run unit :=
  let '(Px, Py) := g in
  let pi := rank / Py in
  let pj := rank mod Py in
  banner rank "===== bicg =====" [sizes.1; sizes.2];;
  let '(M, N) := sizes in
  let lM := M / Px in
  let lN := N / Py in
  let lNx := N / Py in
  let lMy := M / Py in
  bicg_distr_init lM lN lMy pi pj;;
  build "bicg_distr" rank;;
  call "bicg_distr"
    [kw "lM" lM; kw "lN" lN; kw "lNx" lNx; kw "lMy" lMy; kw "Px" Px; kw "Py" Py].

(** [bicg]: the table entry as it stands (line 239). *)
Definition bicg (rank size : Z) (sizes : Z * Z) : run unit :=
  g ← lookup_grid size;
  bicg_body g rank sizes.

(** [doitgen], lines 363-401.  It never reads the table: one block of
    planes per rank. *)
Definition doitgen (rank size : Z) (sizes : Z * Z * Z) : run unit :=
  let '(NR, NQ, NP) := sizes in
  banner rank "===== doitgen =====" [NR; NQ; NP];;
  let lR := NR / size in
  doitgen_distr_init NQ NP lR rank;;
  build "doitgen_distr" rank;;
  call "doitgen_distr" [kw "lR" lR; kw "NQ" NQ; kw "NP" NP; kw "P" size].

(** [gemm], lines 496-513.  It stops at line 513, where
    [None @ dc.program] is evaluated; the statements printed after it belong
    to the function [kernel]. *)
Definition gemm_body (g : Z * Z) (rank : Z) (sizes : Z * Z * Z) : run unit :=
  let '(Px, Py) := g in
  let pi := rank / Py in
  let pj := rank mod Py in
  let '(NI, NJ, NK) := sizes in
  banner rank "===== gemm =====" [NI; NJ; NK];;
  let lNI := NI / Px in
  let lNJ := NJ / Py in
  let lNKa := NK / Py in
  let lNKb := NK / Px in
  gemm_distr_init lNI lNJ lNKa lNKb pi pj;;
  raise TypeError.

(** [gemm]: the table entry, swapped when [Px < Py] (lines 492-495). *)
Definition gemm (rank size : Z) (sizes : Z * Z * Z) : run unit :=
  g ← lookup_grid size;
  gemm_body (swap_nonsquare g) rank sizes.

(** [gemver], lines 642-680, from the coordinates to the first call. *)
Definition gemver_body (g : Z * Z) (rank : Z) (sizes : Z) : run unit :=
  let '(Px, Py) := g in
  let pi := rank / Py in
  let pj := rank mod Py in
  banner rank "===== gemver =====" [sizes];;
  let M := sizes in
  let N := sizes in
  let lM := M / Px in
  let lN := N / Py in
  let lMy := M / Py in
  gemver_distr_init lM lN lMy pi pj;;
  build "gemver_distr" rank;;
  call "gemver_distr"
    [kw "lM" lM; kw "lN" lN; kw "lMy" lMy; kw "Px" Px; kw "Py" Py].

(** [gemver]: the table entry as it stands (line 641). *)
Definition gemver (rank size : Z) (sizes : Z) : run unit :=
  g ← lookup_grid size;
  gemver_body g rank sizes.

(** [gesummv], lines 791-827, from the coordinates to the first call. *)
Definition gesummv_body (g : Z * Z) (rank : Z) (sizes : Z) : run unit :=
  let '(Px, Py) := g in
  let pi := rank / Py in
  let pj := rank mod Py in
  banner rank "===== gesummv =====" [sizes];;
  let M := sizes in
  let N := sizes in
  let lM := M / Px in
  let lN := N / Py in
  let lMy := M / Py in
  gesummv_distr_init lM lN lMy pi pj;;
  build "gesummv_distr" rank;;
  call "gesummv_distr"
    [kw "lM" lM; kw "lN" lN; kw "lMy" lMy; kw "Px" Px; kw "Py" Py].

(** [gesummv]: the table entry as it stands (line 790). *)
Definition gesummv (rank size : Z) (sizes : Z) : run unit :=
  g ← lookup_grid size;
  gesummv_body g rank sizes.

(** [k2mm], lines 928-968, from the coordinates to the first call. *)
Definition k2mm_body (g : Z * Z) (rank : Z) (sizes : Z * Z * Z * Z) : run unit :=
  let '(Px, Py) := g in
  let pi := rank / Py in
  let pj := rank mod Py in
  let '(NI, NJ, NK, NL) := sizes in
  banner rank "===== k2mm =====" [NI; NJ; NK; NL];;
  let lNI := NI / Px in
  let lNJ := NJ / Py in
  let lNJx := NJ / Px in
  let lNKa := NK / Py in
  let lNKb := NK / Px in
  let lNL := NL / Py in
  k2mm_distr_init lNI lNJ lNJx lNKa lNKb lNL pi pj;;
  build "k2mm_distr" rank;;
  call "k2mm_distr"
    [kw "lNI" lNI; kw "lNJ" lNJ; kw "lNJx" lNJx; kw "lNKa" lNKa;
     kw "lNKb" lNKb; kw "lNL" lNL; kw "Px" Px; kw "Py" Py].

(** [k2mm]: the table entry, swapped when [Px < Py] (lines 924-927). *)
Definition k2mm (rank size : Z) (sizes : Z * Z * Z * Z) : run unit :=
  g ← lookup_grid size;
  k2mm_body (swap_nonsquare g) rank sizes.

(** [k3mm], lines 1063-1106, from the coordinates to the first call. *)
Definition k3mm_body (g : Z * Z) (rank : Z) (sizes : Z * Z * Z * Z * Z) : run unit :=
  let '(Px, Py) := g in
  let pi := rank / Py in
  let pj := rank mod Py in
  let '(NI, NJ, NK, NL, NM) := sizes in
  banner rank "===== k3mm =====" [NI; NJ; NK; NL; NM];;
  let lNI := NI / Px in
  let lNJ := NJ / Py in
  let lNJx := NJ / Px in
  let lNKa := NK / Py in
  let lNKb := NK / Px in
  let lNL := NL / Py in
  let lNMx := NM / Px in
  let lNMy := NM / Py in
  k3mm_distr_init lNI lNJ lNJx lNKa lNKb lNMx lNMy lNL pi pj;;
  build "k3mm_distr" rank;;
  call "k3mm_distr"
    [kw "lNI" lNI; kw "lNJ" lNJ; kw "lNJx" lNJx; kw "lNKa" lNKa;
     kw "lNKb" lNKb; kw "lNMx" lNMx; kw "lNMy" lNMy; kw "lNL" lNL;
     kw "Px" Px; kw "Py" Py].

(** [k3mm]: the table entry, swapped when [Px < Py] (lines 1059-1062). *)
Definition k3mm (rank size : Z) (sizes : Z * Z * Z * Z * Z) : run unit :=
  g ← lookup_grid size;
  k3mm_body (swap_nonsquare g) rank sizes.

(** [mvt], lines 1190-1226, from the coordinates to the first call. *)
Definition mvt_body (g : Z * Z) (rank : Z) (sizes : Z) : run unit :=
  let '(Px, Py) := g in
  let pi := rank / Py in
  let pj := rank mod Py in
  banner rank "===== mvt =====" [sizes];;
  let M := sizes in
  let N := sizes in
  let lM := M / Px in
  let lN := N / Py in
  let lMy := M / Py in
  mvt_distr_init lM lN lMy pi pj;;
  build "mvt_distr" rank;;
  call "mvt_distr"
    [kw "lM" lM; kw "lN" lN; kw "lMy" lMy; kw "Px" Px; kw "Py" Py].

(** [mvt]: the table entry as it stands (line 1189). *)
Definition mvt (rank size : Z) (sizes : Z) : run unit :=
  g ← lookup_grid size;
  mvt_body g rank sizes.

(** [jacobi_1d], lines 1321-1367.  It never reads the table either: a line
    of [size] ranks. *)
Definition jacobi_1d (rank size : Z) (sizes : Z * Z) : run unit :=
  let s := neighbours_1d rank size in
  banner rank "===== jacobi_1d =====" [sizes.1; sizes.2];;
  let '(TSTEPS, NR) := sizes in
  let lR := NR / size in
  jacobi_1d_distr_init lR rank;;
  build_stencil "jacobi_1d_distr" rank;;
  call "jacobi_1d_distr"
    [kw "TSTEPS" TSTEPS; kw "lR" lR; kw "P" size;
     kw "nw" (nw s); kw "ne" (ne s); kw "woff" (woff s); kw "eoff" (eoff s)].

(** [jacobi_2d], lines 1478-1531, from the coordinates to the first call. *)
Definition jacobi_2d_body (g : Z * Z) (rank : Z) (sizes : Z * Z) : run unit :=
  let '(Px, Py) := g in
  let pi := rank / Py in
  let pj := rank mod Py in
  let s := neighbours_2d Px Py pi pj in
  banner rank "===== jacobi_2d =====" [sizes.1; sizes.2];;
  let '(TSTEPS, N) := sizes in
  let M := N in
  let lM := M / Px in
  let lN := N / Py in
  jacobi_2d_distr_init lM lN pi pj;;
  build_stencil "jacobi_2d_distr" rank;;
  call "jacobi_2d_distr"
    ([kw "TSTEPS" TSTEPS; kw "lM" lM; kw "lN" lN; kw "Px" Px; kw "Py" Py]
       ++ stencil_kwargs s).

(** [jacobi_2d]: the table entry as it stands (line 1477). *)
Definition jacobi_2d (rank size : Z) (sizes : Z * Z) : run unit :=
  g ← lookup_grid size;
  jacobi_2d_body g rank sizes.

(** [heat_3d], lines 1677-1730, from the coordinates to the first call. *)
Definition heat_3d_body (g : Z * Z) (rank : Z) (sizes : Z * Z) : run unit :=
  let '(Px, Py) := g in
  let pi := rank / Py in
  let pj := rank mod Py in
  let s := neighbours_2d Px Py pi pj in
  banner rank "===== heat_3d =====" [sizes.1; sizes.2];;
  let '(TSTEPS, N) := sizes in
  let M := N in
  let lM := M / Px in
  let lN := N / Py in
  heat_3d_distr_init N lM lN pi pj;;
  build_stencil "heat_3d_distr" rank;;
  call "heat_3d_distr"
    ([kw "TSTEPS" TSTEPS; kw "lM" lM; kw "lN" lN; kw "Px" Px; kw "Py" Py]
       ++ stencil_kwargs s).

(** [heat_3d]: the table entry as it stands (line 1676). *)
Definition heat_3d (rank size : Z) (sizes : Z * Z) : run unit :=
  g ← lookup_grid size;
  heat_3d_body g rank sizes.

(** The benchmark entry points of the file. *)
Inductive kernel :=
| Atax | Bicg | Doitgen | Gemm | Gemver | Gesummv
| K2mm | K3mm | Mvt | Jacobi_1d | Jacobi_2d | Heat_3d.

#[global] Instance kernel_eq_dec : EqDecision kernel.
Proof. solve_decision. Defined.

(** The type of the [sizes] argument of each entry point. *)
Definition sizes_of (k : kernel) : Type :=
  match k with
  | Atax | Bicg | Jacobi_1d | Jacobi_2d | Heat_3d => Z * Z
  | Doitgen | Gemm => Z * Z * Z
  | Gemver | Gesummv | Mvt => Z
  | K2mm => Z * Z * Z * Z
  | K3mm => Z * Z * Z * Z * Z
  end%type.

Definition entry (k : kernel) : Z → Z → sizes_of k → run unit :=
  match k with
  | Atax => atax | Bicg => bicg | Doitgen => doitgen | Gemm => gemm
  | Gemver => gemver | Gesummv => gesummv | K2mm => k2mm | K3mm => k3mm
  | Mvt => mvt | Jacobi_1d => jacobi_1d | Jacobi_2d => jacobi_2d
  | Heat_3d => heat_3d
  end.

(** What an entry point does once it holds its grid [(Px, Py)]: the
    coordinates, the block sizes, the initializer and the first call. *)
Definition body (k : kernel) : Z * Z → Z → Z → sizes_of k → run unit :=
  match k with
  | Atax => λ g rank _, atax_body g rank
  | Bicg => λ g rank _, bicg_body g rank
  | Doitgen => λ _ rank size, doitgen rank size
  | Gemm => λ g rank _, gemm_body g rank
  | Gemver => λ g rank _, gemver_body g rank
  | Gesummv => λ g rank _, gesummv_body g rank
  | K2mm => λ g rank _, k2mm_body g rank
  | K3mm => λ g rank _, k3mm_body g rank
  | Mvt => λ g rank _, mvt_body g rank
  | Jacobi_1d => λ _ rank size, jacobi_1d rank size
  | Jacobi_2d => λ g rank _, jacobi_2d_body g rank
  | Heat_3d => λ g rank _, heat_3d_body g rank
  end.

(** Which entry points start with [grid[size]]. *)
Definition reads_grid (k : kernel) : bool :=
  match k with
  | Doitgen | Jacobi_1d => false
  | _ => true
  end.

(** Which of them carry the swap for non-square grids. *)
Definition swaps_grid (k : kernel) : bool :=
  match k with
  | Gemm | K2mm | K3mm => true
  | _ => false
  end.

Definition is_alloc (e : event) : bool :=
  match e with Alloc _ _ => true | _ => false end.

Definition is_invoke (e : event) : bool :=
  match e with Invoke _ _ => true | _ => false end.

End Driver.


(** ** Block-local initializers *)

Module Init.

(** A dense array in C order.  The element type stands for [float64]:
    every initializer is an integer expression of the indices followed by
    one division, so two elements agree bit for bit as soon as the
    integers fed to that division agree. *)
Record array := { shape : list Z; data : list Q }.

(** [np.fromfunction(f, shape=(n,))] *)
Definition fromfunction1 (f : Z → Q) (n : Z) : array :=
  {| shape := [n]; data := f <$> seqZ 0 n |}.

(** [np.fromfunction(f, shape=(n0, n1))] *)
Definition fromfunction2 (f : Z → Z → Q) (n0 n1 : Z) : array :=
  {| shape := [n0; n1];
     data := i ← seqZ 0 n0; f i <$> seqZ 0 n1 |}.

(** [a[i]] for [0 <= i < n]. *)
Definition get1 (a : array) (i : Z) : option Q :=
  match shape a with
  | [n] => if bool_decide (0 ≤ i < n) then data a !! Z.to_nat i else None
  | _ => None
  end.

(** [a[i, j]] for indices inside the shape. *)
Definition get2 (a : array) (i j : Z) : option Q :=
  match shape a with
  | [n0; n1] =>
      if bool_decide (0 ≤ i < n0 ∧ 0 ≤ j < n1)
      then data a !! Z.to_nat (i * n1 + j) else None
  | _ => None
  end.

(** The float quotient of two integer-valued operands. *)
Definition fdiv (a b : Z) : Q := (inject_Z a / inject_Z b)%Q.

(** *** atax *)

Definition atax_shmem_A (M N : Z) : array :=
  fromfunction2 (λ i j, fdiv ((i + j) mod N) (5 * M)) M N.

Definition atax_shmem_x (N : Z) : array :=
  fromfunction1 (λ i, (1 + fdiv i N)%Q) N.

Definition atax_distr_A (M N lM lN pi pj : Z) : array :=
  fromfunction2 (λ i j, fdiv ((l2g i pi lM + l2g j pj lN) mod N) (5 * M)) lM lN.

Definition atax_distr_x (N lN pj : Z) : array :=
  fromfunction1 (λ i, (1 + fdiv (l2g i pj lN) N)%Q) lN.

(** *** 2mm: the matrix [B] *)

Definition k2mm_shmem_B (NJ NK : Z) : array :=
  fromfunction2 (λ i j, fdiv (i * (j + 1) mod NJ) NJ) NK NJ.

Definition k2mm_distr_B (NJ lNJ lNKb pi pj : Z) : array :=
  fromfunction2 (λ i j, fdiv (l2g i pi lNKb * (l2g j pj lNJ + 1) mod NJ) NJ)
                lNKb lNJ.

(** *** 3mm *)

Definition k3mm_shmem_A (NI NK : Z) : array :=
  fromfunction2 (λ i j, fdiv ((i * j + 1) mod NI) (5 * NI)) NI NK.

Definition k3mm_shmem_B (NJ NK : Z) : array :=
  fromfunction2 (λ i j, fdiv ((i * (j + 1) + 2) mod NJ) (5 * NJ)) NK NJ.

Definition k3mm_shmem_C (NJ NM NL : Z) : array :=
  fromfunction2 (λ i j, fdiv (i * (j + 3) mod NL) (5 * NL)) NJ NM.

Definition k3mm_shmem_D (NK NM NL : Z) : array :=
  fromfunction2 (λ i j, fdiv ((i * (j + 2) + 2) mod NK) (5 * NK)) NM NL.

Definition k3mm_distr_A (NI lNI lNKa pi pj : Z) : array :=
  fromfunction2
    (λ i j, fdiv ((l2g i pi lNI * l2g j pj lNKa + 1) mod NI) (5 * NI))
    lNI lNKa.

(** Line 1044: the rows are numbered with [lNKb], the shape says [lNKa]. *)
Definition k3mm_distr_B (NJ lNJ lNKa lNKb pi pj : Z) : array :=
  fromfunction2
    (λ i j, fdiv ((l2g i pi lNKb * (l2g j pj lNJ + 1) + 2) mod NJ) (5 * NJ))
    lNKa lNJ.

Definition k3mm_distr_C (NL lNJx lNMy pi pj : Z) : array :=
  fromfunction2
    (λ i j, fdiv (l2g i pi lNJx * (l2g j pj lNMy + 3) mod NL) (5 * NL))
    lNJx lNMy.

Definition k3mm_distr_D (NK lNMx lNL pi pj : Z) : array :=
  fromfunction2
    (λ i j, fdiv ((l2g i pi lNMx * (l2g j pj lNL + 2) + 2) mod NK) (5 * NK))
    lNMx lNL.

(** The property asked of a block of rank [(pi, pj)]: it has the block
    shape and holds the single-process values of the indices it owns. *)
Definition restricts (blk glob : array) (pi pj l0 l1 : Z) : Prop :=
  shape blk = [l0; l1] ∧
  ∀ i j : Z, 0 ≤ i < l0 → 0 ≤ j < l1 →
    is_Some (get2 blk i j) ∧ get2 blk i j = get2 glob (pi * l0 + i) (pj * l1 + j).

Definition restricts1 (blk glob : array) (p l : Z) : Prop :=
  shape blk = [l] ∧
  ∀ i : Z, 0 ≤ i < l →
    is_Some (get1 blk i) ∧ get1 blk i = get1 glob (p * l + i).

End Init.

(** ** Halo exchange of the stencils *)

Module Halo.

(** A posted transfer: the buffer elements it covers (positions in the
    flat C-order buffer), the peer rank and the tag. *)
Record xfer := { region : list nat; peer : Z; tag : Z }.

(** What one process posts between two [Waitall]: its [Isend]s and its
    [Irecv]s, in program order. *)
Record posted := { sends : list xfer; recvs : list xfer }.

(** Python index [k] into an axis of length [n]: negative counts from the
    end. *)
Definition py_index (n : nat) (k : Z) : nat :=
  Z.to_nat (if k <? 0 then Z.of_nat n + k else k).

(** [A[i, j0:j1]] and [A[i0:i1, j]] of a buffer with [ncols] columns. *)
Definition row_slice (ncols i j0 j1 : nat) : list nat :=
  (λ j, i * ncols + j)%nat <$> seq j0 (j1 - j0).

Definition col_slice (ncols j i0 i1 : nat) : list nat :=
  (λ i, i * ncols + j)%nat <$> seq i0 (i1 - i0).

(** First exchange of [jacobi_1d_distr], lines 1292-1295 (the one on [B],
    lines 1299-1302, posts the same transfers). *)
Definition jacobi_1d_post (lR : nat) (s : stencil) : posted :=
  let n := (lR + 2)%nat in
  {| sends := [ {| region := [py_index n 1]; peer := nw s; tag := 3 |};
                {| region := [py_index n (-2)]; peer := ne s; tag := 2 |} ];
     recvs := [ {| region := [py_index n 0]; peer := nw s; tag := 2 |};
                {| region := [py_index n (-1)]; peer := ne s; tag := 3 |} ] |}.

(** Exchange of [jacobi_2d_distr], lines 1423-1430 (and 1440-1447). *)
Definition jacobi_2d_post (lM lN : nat) (s : stencil) : posted :=
  let R := (lM + 2)%nat in
  let C := (lN + 2)%nat in
  let inner_cols i := row_slice C i 1 (py_index C (-1)) in
  let inner_rows j := col_slice C j 1 (py_index R (-1)) in
  {| sends := [ {| region := inner_cols (py_index R 1); peer := nn s; tag := 0 |};
                {| region := inner_cols (py_index R (-2)); peer := ns s; tag := 1 |};
                {| region := inner_rows (py_index C 1); peer := nw s; tag := 2 |};
                {| region := inner_rows (py_index C (-2)); peer := ne s; tag := 3 |} ];
     recvs := [ {| region := inner_cols (py_index R 0); peer := nn s; tag := 1 |};
                {| region := inner_cols (py_index R (-1)); peer := ns s; tag := 0 |};
                {| region := inner_rows (py_index C 0); peer := nw s; tag := 3 |};
                {| region := inner_rows (py_index C (-1)); peer := ne s; tag := 2 |} ] |}.

Section Exchange.
Context {V : Type}.

(** The payload of a send. *)
Definition read (buf : list V) (reg : list nat) : option (list V) :=
  mapM (λ k, buf !! k) reg.

(** A completed receive stores the payload element by element. *)
Fixpoint write (buf : list V) (reg : list nat) (vs : list V) : list V :=
  match reg, vs with
  | k :: reg', v :: vs' => write (<[k := v]> buf) reg' vs'
  | _, _ => buf
  end.

Definition valid_rank (size r : Z) : bool := (0 <=? r) && (r <? size).

(** Messages of one sender to one receiver are matched by tag, in the
    order they were posted. *)
Definition matching_send (p : posted) (dst tg : Z) : option xfer :=
  List.find (λ s, (peer s =? dst) && (tag s =? tg)) (sends p).

Definition has_matching_recv (p : posted) (src tg : Z) : bool :=
  existsb (λ r, (peer r =? src) && (tag r =? tg)) (recvs p).

(** [post r] is what rank [r] posts; [w] holds the buffers of all ranks
    when the round starts. *)
Variable post : Z → posted.
Variable w : list (list V).

(** A receive from [PROC_NULL] completes at once and stores nothing.  Any
    other receive needs the matching send of its peer; without one the
    wait never returns ([None]). *)
Definition complete_recv (me : Z) (buf : list V) (r : xfer) : option (list V) :=
  if peer r =? PROC_NULL then Some buf
  else if valid_rank (Z.of_nat (length w)) (peer r) then
    src_buf ← w !! Z.to_nat (peer r);
    s ← matching_send (post (peer r)) me (tag r);
    vs ← read src_buf (region s);
    if decide (length vs = length (region r))
    then Some (write buf (region r) vs) else None
  else None.

Fixpoint complete_recvs (me : Z) (buf : list V) (rs : list xfer) : option (list V) :=
  match rs with
  | [] => Some buf
  | r :: rs' => buf' ← complete_recv me buf r; complete_recvs me buf' rs'
  end.

(** A send completes when its peer is [PROC_NULL] or has posted the
    receive for it. *)
Definition send_completes (me : Z) (s : xfer) : bool :=
  (peer s =? PROC_NULL)
  || (valid_rank (Z.of_nat (length w)) (peer s)
      && has_matching_recv (post (peer s)) me (tag s)).

(** [Waitall] on one rank. *)
Definition waitall (me : Z) (buf : list V) : option (list V) :=
  if forallb (send_completes me) (sends (post me))
  then complete_recvs me buf (recvs (post me))
  else None.

Fixpoint exchange_from (r : nat) (bufs : list (list V)) : option (list (list V)) :=
  match bufs with
  | [] => Some []
  | b :: bs =>
      b' ← waitall (Z.of_nat r) b;
      bs' ← exchange_from (S r) bs;
      Some (b' :: bs')
  end.

(** One round on every rank. *)
Definition exchange : option (list (list V)) := exchange_from 0 w.

End Exchange.

(** One round of the 1-D stencil on [length w] ranks. *)
Definition jacobi_1d_round {V : Type} (lR : nat) (w : list (list V)) :
    option (list (list V)) :=
  exchange (λ r, jacobi_1d_post lR (neighbours_1d r (Z.of_nat (length w)))) w.

(** One round of the 2-D stencil on the grid [(Px, Py)]. *)
Definition jacobi_2d_round {V : Type} (Px Py : Z) (lM lN : nat)
    (w : list (list V)) : option (list (list V)) :=
  exchange (λ r, jacobi_2d_post lM lN (neighbours_2d Px Py (r / Py) (r mod Py))) w.

End Halo.

(** ** Gather and reassembly of the distributed result *)

Module Gather.

(** Positions of the staging array [C], of shape [(d0, d1, d2, d3)], in
    the C order of [np.transpose(C, (0, 2, 1, 3))]. *)
Definition positions_0213 (d0 d1 d2 d3 : nat) : list nat :=
  a ← seq 0 d0; c ← seq 0 d2; b ← seq 0 d1; e ← seq 0 d3;
  [(((a * d1 + b) * d2 + c) * d3 + e)%nat].

Section Reassemble.
Context {V : Type}.

(** [comm.Gather(lC, C)]: the blocks of all ranks, in rank order. *)
Definition gather (blocks : list (list V)) : list V := mjoin blocks.

(** The elements of the transposed view, copied out in C order. *)
Definition transpose_0213 (d0 d1 d2 d3 : nat) (C : list V) : option (list V) :=
  mapM (λ k, C !! k) (positions_0213 d0 d1 d2 d3).

(** [.reshape(n0, n1)] fails unless the sizes agree. *)
Definition reshape2 (n0 n1 : nat) (flat : list V) : option (list V) :=
  if decide (length flat = (n0 * n1)%nat) then Some flat else None.

(** [G[r, c]] of an [(n0, n1)] array. *)
Definition at2 (n0 n1 : nat) (G : list V) (r c : nat) : option V :=
  if decide (r < n0 ∧ c < n1)%nat then G !! (r * n1 + c)%nat else None.

(** [at4] reads the staging array [C[pi, pj, i, j]]. *)
Definition at4 (d0 d1 d2 d3 : nat) (C : list V) (a b c e : nat) : option V :=
  if decide (a < d0 ∧ b < d1 ∧ c < d2 ∧ e < d3)%nat
  then C !! (((a * d1 + b) * d2 + c) * d3 + e)%nat else None.

(** [np.transpose(C, (0, 2, 1, 3)).reshape(NI, NJ).copy()] *)
Definition reassemble (Px Py lM lN NI NJ : nat) (C : list V) : option (list V) :=
  T ← transpose_0213 Px Py lM lN C; reshape2 NI NJ T.

End Reassemble.

End Gather.

(** ** Validation metric *)

Module Validation.

Local Open Scope float_scope.

(** [np.linalg.norm] of a real array: the square root of the sum of the
    squares of its elements. *)
Definition sum_sq (xs : list float) : float :=
  fold_left (λ acc x, acc + x * x) xs 0.

Definition norm (xs : list float) : float := PrimFloat.sqrt (sum_sq xs).

(** [ref - val], element by element. *)
Fixpoint arr_sub (a b : list float) : list float :=
  match a, b with
  | x :: a', y :: b' => (x - y) :: arr_sub a' b'
  | _, _ => []
  end.

Definition relerr (ref val : list float) : float :=
  norm (arr_sub ref val) / norm ref.

(** The binary64 number the literal [1e-12] denotes. *)
Definition threshold : float := 0x1.19799812dea11p-40.

(** [error < 1e-12] *)
Definition passes (error : float) : bool := error <? threshold.

(** [np.zeros] *)
Definition zeros (n : nat) : list float := replicate n 0.

End Validation.

(** ** Timing report *)

Module Timing.

Import Driver.

(** The exact value [(-1)^s * m * 2^e] of a finite binary64 number. *)
Definition value_of (s : bool) (m : positive) (e : Z) : Q :=
  let v := if 0 <=? e then inject_Z (Z.pos m * 2 ^ e)
           else Z.pos m # Pos.pow 2 (Z.to_pos (- e)) in
  if s then (- v)%Q else v.

(** The value of a float that is a number. *)
Definition to_Q (x : float) : option Q :=
  match Prim2SF x with
  | S754_zero _ => Some 0%Q
  | S754_finite s m e => Some (value_of s m e)
  | S754_infinity _ | S754_nan => None
  end.

(** The integer nearest to [m * 2^e], the even one of the two when it lies
    half way. *)
Definition round_half_even (m : positive) (e : Z) : Z :=
  if 0 <=? e then Z.pos m * 2 ^ e
  else
    let d := 2 ^ (- e) in
    let q := Z.pos m / d in
    let r := Z.pos m mod d in
    match 2 * r ?= d with
    | Lt => q
    | Gt => q + 1
    | Eq => if Z.even q then q else q + 1
    end.

(** Python's [int(round(x))] of a binary64 number: to nearest, ties to
    even; it raises on a NaN and on an infinity. *)
Definition py_round (x : float) : exn + Z :=
  match Prim2SF x with
  | S754_zero _ => inr 0
  | S754_finite s m e =>
      inr (if s then - round_half_even m e else round_half_even m e)
  | S754_infinity _ => inl OverflowError
  | S754_nan => inl ValueError
  end.

(** [int(round(raw * 1000))], the product in binary64. *)
Definition time_to_ms (raw : float) : exn + Z := py_round (raw * 1000)%float.

Fixpoint insert_sorted (x : float) (l : list float) : list float :=
  match l with
  | [] => [x]
  | y :: l' => if (x <=? y)%float then x :: l else y :: insert_sorted x l'
  end.

Definition sort (l : list float) : list float := foldr insert_sorted [] l.

(** [np.median] of a 1-D list of binary64 numbers: NaN if one of them is a
    NaN or the list is empty, else the middle element of the sorted values,
    or the mean [(a + b) / 2] of the two middle ones, computed in
    binary64. *)
Definition median (l : list float) : float :=
  if existsb PrimFloat.is_nan l then nan
  else
    let s := sort l in
    let n := length s in
    if Nat.eqb n 0 then nan
    else if Nat.even n
    then ((nth (n / 2 - 1) s 0 + nth (n / 2) s 0) / 2)%float
    else nth (n / 2) s 0%float.

(** [np.mean], for comparison: the sum, taken left to right, divided by
    the count. *)
Definition mean (l : list float) : float :=
  (fold_left PrimFloat.add l 0 / PrimFloat.of_uint63 (Uint63.of_Z (Z.of_nat (length l))))%float.

(** Ten raw times with a slow first call. *)
Definition warm_up (i : nat) : float := if Nat.eqb i 0 then 10%float else 1%float.

(** [timeit.repeat(stmt, setup, repeat, number)]: every repetition runs
    the setup and then times [number] executions of the statement;
    [clock i] is the duration measured by repetition [i]. *)
Fixpoint timeit_repeat (setup stmt : run unit) (number : nat)
    (clock : nat → float) (i repeat : nat) : run (list float) :=
  match repeat with
  | O => mret []
  | S n =>
      setup;;
      foldr (λ _ k, stmt;; k) (mret tt) (seq 0 number);;
      ts ← timeit_repeat setup stmt number clock (S i) n;
      mret (clock i :: ts)
  end.

(** The timing block shared by all entry points (lines 172-186 in
    [atax]). *)
Definition timed_report (rank : Z) (prog : string) (kwargs : list (string * Z))
    (clock : nat → float) : run unit :=
  let stmt := emit (Invoke prog kwargs) in
  let setup := emit Barrier in
  let repeat := 10%nat in
  raw_time_list ← timeit_repeat setup stmt 1 clock 0 repeat;
  let raw_time := median raw_time_list in
  when (rank =? 0)%Z
    (match time_to_ms raw_time with
     | inl e => raise e
     | inr ms_time => emit (PrintMedian ms_time)
     end).

End Timing.

(** ** The other block-local initializers *)

Module Initializers.

Import Init.

(** [np.zeros((n,))] *)
Definition zeros1 (n : Z) : array := fromfunction1 (λ _, 0%Q) n.

(** [np.fromfunction(f, shape=(n0, n1, n2))] *)
Definition fromfunction3 (f : Z → Z → Z → Q) (n0 n1 n2 : Z) : array :=
  {| shape := [n0; n1; n2];
     data := i ← seqZ 0 n0; j ← seqZ 0 n1; f i j <$> seqZ 0 n2 |}.

(** [a[i, j, k]] for indices inside the shape. *)
Definition get3 (a : array) (i j k : Z) : option Q :=
  match shape a with
  | [n0; n1; n2] =>
      if bool_decide (0 ≤ i < n0 ∧ 0 ≤ j < n1 ∧ 0 ≤ k < n2)
      then data a !! Z.to_nat ((i * n1 + j) * n2 + k) else None
  | _ => None
  end.

(** *** bicg, lines 215-231 *)

Definition bicg_shmem_A (M N : Z) : array :=
  fromfunction2 (λ i j, fdiv (i * (j + 1) mod M) M) M N.

Definition bicg_shmem_p (N : Z) : array :=
  fromfunction1 (λ i, fdiv (i mod N) N) N.

Definition bicg_shmem_r (M : Z) : array :=
  fromfunction1 (λ i, fdiv (i mod M) M) M.

Definition bicg_distr_A (M lM lN pi pj : Z) : array :=
  fromfunction2 (λ i j, fdiv (l2g i pi lM * (l2g j pj lN + 1) mod M) M) lM lN.

Definition bicg_distr_p (N lN pj : Z) : array :=
  fromfunction1 (λ i, fdiv (l2g i pj lN mod N) N) lN.

Definition bicg_distr_r (M lMy pj : Z) : array :=
  fromfunction1 (λ i, fdiv (l2g i pj lMy mod M) M) lMy.

(** *** doitgen, lines 347-361 *)

Definition doitgen_shmem_A (NR NQ NP : Z) : array :=
  fromfunction3 (λ i j k, fdiv ((i * j + k) mod NP) NP) NR NQ NP.

Definition doitgen_shmem_C4 (NP : Z) : array :=
  fromfunction2 (λ i j, fdiv (i * j mod NP) NP) NP NP.

Definition doitgen_distr_A (NQ NP lR p : Z) : array :=
  fromfunction3 (λ i j k, fdiv ((l2g i p lR * j + k) mod NP) NP) lR NQ NP.

Definition doitgen_distr_C4 (NP : Z) : array :=
  fromfunction2 (λ i j, fdiv (i * j mod NP) NP) NP NP.

(** *** gemm, lines 462-484 *)

Definition gemm_shmem_C (NI NJ : Z) : array :=
  fromfunction2 (λ i j, fdiv ((i * j + 1) mod NI) NI) NI NJ.

Definition gemm_shmem_A (NI NK : Z) : array :=
  fromfunction2 (λ i k, fdiv (i * (k + 1) mod NK) NK) NI NK.

Definition gemm_shmem_B (NJ NK : Z) : array :=
  fromfunction2 (λ k j, fdiv (k * (j + 2) mod NJ) NJ) NK NJ.

Definition gemm_distr_C (NI lNI lNJ pi pj : Z) : array :=
  fromfunction2 (λ i j, fdiv ((l2g i pi lNI * l2g j pj lNJ + 1) mod NI) NI) lNI lNJ.

Definition gemm_distr_A (NK lNI lNKa pi pj : Z) : array :=
  fromfunction2 (λ i k, fdiv (l2g i pi lNI * (l2g k pj lNKa + 1) mod NK) NK) lNI lNKa.

Definition gemm_distr_B (NJ lNJ lNKb pi pj : Z) : array :=
  fromfunction2 (λ k j, fdiv (l2g k pi lNKb * (l2g j pj lNJ + 2) mod NJ) NJ) lNKb lNJ.

(** *** gemver, lines 603-633 *)

Definition gemver_shmem_A (N : Z) : array :=
  fromfunction2 (λ i j, fdiv (i * j mod N) N) N N.

Definition gemver_shmem_u1 (N : Z) : array :=
  fromfunction1 (λ i, inject_Z i) N.

(** [((i + 1) / fn) / d], the shape of [u2], [v1], [v2], [y] and [z]. *)
Definition gemver_ramp (N d i : Z) : Q := (fdiv (i + 1) N / inject_Z d)%Q.

Definition gemver_shmem_u2 (N : Z) : array := fromfunction1 (gemver_ramp N 2) N.
Definition gemver_shmem_v1 (N : Z) : array := fromfunction1 (gemver_ramp N 4) N.
Definition gemver_shmem_v2 (N : Z) : array := fromfunction1 (gemver_ramp N 6) N.
Definition gemver_shmem_w (N : Z) : array := zeros1 N.
Definition gemver_shmem_x (N : Z) : array := zeros1 N.
Definition gemver_shmem_y (N : Z) : array := fromfunction1 (gemver_ramp N 8) N.
Definition gemver_shmem_z (N : Z) : array := fromfunction1 (gemver_ramp N 9) N.

Definition gemver_distr_A (N lM lN pi pj : Z) : array :=
  fromfunction2 (λ i j, fdiv (l2g i pi lM * l2g j pj lN mod N) N) lM lN.

Definition gemver_distr_u1 (lM pi : Z) : array :=
  fromfunction1 (λ i, inject_Z (l2g i pi lM)) lM.

Definition gemver_distr_u2 (N lM pi : Z) : array :=
  fromfunction1 (λ i, gemver_ramp N 2 (l2g i pi lM)) lM.

Definition gemver_distr_v1 (N lN pj : Z) : array :=
  fromfunction1 (λ i, gemver_ramp N 4 (l2g i pj lN)) lN.

Definition gemver_distr_v2 (N lN pj : Z) : array :=
  fromfunction1 (λ i, gemver_ramp N 6 (l2g i pj lN)) lN.

Definition gemver_distr_w (lMy : Z) : array := zeros1 lMy.
Definition gemver_distr_x (lN : Z) : array := zeros1 lN.

Definition gemver_distr_y (N lMy pj : Z) : array :=
  fromfunction1 (λ i, gemver_ramp N 8 (l2g i pj lMy)) lMy.

Definition gemver_distr_z (N lN pj : Z) : array :=
  fromfunction1 (λ i, gemver_ramp N 9 (l2g i pj lN)) lN.

(** *** gesummv, lines 762-782 *)

Definition gesummv_shmem_A (N : Z) : array :=
  fromfunction2 (λ i j, fdiv ((i * j + 1) mod N) N) N N.

Definition gesummv_shmem_B (N : Z) : array :=
  fromfunction2 (λ i j, fdiv ((i * j + 2) mod N) N) N N.

Definition gesummv_shmem_x (N : Z) : array :=
  fromfunction1 (λ i, fdiv (i mod N) N) N.

Definition gesummv_distr_A (N lM lN pi pj : Z) : array :=
  fromfunction2 (λ i j, fdiv ((l2g i pi lM * l2g j pj lN + 1) mod N) N) lM lN.

Definition gesummv_distr_B (N lM lN pi pj : Z) : array :=
  fromfunction2 (λ i j, fdiv ((l2g i pi lM * l2g j pj lN + 2) mod N) N) lM lN.

Definition gesummv_distr_x (N lN pj : Z) : array :=
  fromfunction1 (λ i, fdiv (l2g i pj lN mod N) N) lN.

(** *** 2mm, lines 890-916: [A], [C] and [D] *)

Definition k2mm_shmem_A (NI NK : Z) : array :=
  fromfunction2 (λ i j, fdiv ((i * j + 1) mod NI) NI) NI NK.

Definition k2mm_shmem_C (NJ NL : Z) : array :=
  fromfunction2 (λ i j, fdiv ((i * (j + 3) + 1) mod NL) NL) NJ NL.

Definition k2mm_shmem_D (NI NK NL : Z) : array :=
  fromfunction2 (λ i j, fdiv (i * (j + 2) mod NK) NK) NI NL.

Definition k2mm_distr_A (NI lNI lNKa pi pj : Z) : array :=
  fromfunction2 (λ i j, fdiv ((l2g i pi lNI * l2g j pj lNKa + 1) mod NI) NI) lNI lNKa.

Definition k2mm_distr_C (NL lNJx lNL pi pj : Z) : array :=
  fromfunction2 (λ i j, fdiv ((l2g i pi lNJx * (l2g j pj lNL + 3) + 1) mod NL) NL)
                lNJx lNL.

Definition k2mm_distr_D (NK lNI lNL pi pj : Z) : array :=
  fromfunction2 (λ i j, fdiv (l2g i pi lNI * (l2g j pj lNL + 2) mod NK) NK) lNI lNL.

(** *** mvt, lines 1167-1181 *)

Definition mvt_shmem_x1 (N : Z) : array := fromfunction1 (λ i, fdiv (i mod N) N) N.
Definition mvt_shmem_x2 (N : Z) : array := fromfunction1 (λ i, fdiv ((i + 1) mod N) N) N.
Definition mvt_shmem_y_1 (N : Z) : array := fromfunction1 (λ i, fdiv ((i + 3) mod N) N) N.
Definition mvt_shmem_y_2 (N : Z) : array := fromfunction1 (λ i, fdiv ((i + 4) mod N) N) N.

Definition mvt_shmem_A (N : Z) : array :=
  fromfunction2 (λ i j, fdiv (i * j mod N) N) N N.

Definition mvt_distr_x1 (N lMy pj : Z) : array :=
  fromfunction1 (λ i, fdiv (l2g i pj lMy mod N) N) lMy.

Definition mvt_distr_x2 (N lN pj : Z) : array :=
  fromfunction1 (λ i, fdiv ((l2g i pj lN + 1) mod N) N) lN.

Definition mvt_distr_y_1 (N lN pj : Z) : array :=
  fromfunction1 (λ i, fdiv ((l2g i pj lN + 3) mod N) N) lN.

Definition mvt_distr_y_2 (N lMy pj : Z) : array :=
  fromfunction1 (λ i, fdiv ((l2g i pj lMy + 4) mod N) N) lMy.

Definition mvt_distr_A (N lM lN pi pj : Z) : array :=
  fromfunction2 (λ i j, fdiv (l2g i pi lM * l2g j pj lN mod N) N) lM lN.

(** The block of a 3-D array split along its first axis. *)
Definition restricts3 (blk glob : array) (p l n1 n2 : Z) : Prop :=
  shape blk = [l; n1; n2] ∧
  ∀ i j k : Z, 0 ≤ i < l → 0 ≤ j < n1 → 0 ≤ k < n2 →
    is_Some (get3 blk i j k) ∧ get3 blk i j k = get3 glob (p * l + i) j k.

End Initializers.

(** ** The validation block of the matrix kernels *)

Module ValidationGather.

Import Gather.

Section GatherValidate.
Context {V : Type}.

(** The validation block of the kernels that gather a matrix (lines 972-978
    in [k2mm]): the blocks of all ranks are gathered into the staging array
    of shape [(Px, Py, lNI, lNL)], which takes [lNI * lNL] elements from
    each rank, and the result is transposed and reshaped to [(NI, NL)]. *)
Definition gather_validate (Px Py NI NL : nat) (blocks : list (list V)) :
    option (list V) :=
  let lNI := (NI / Px)%nat in
  let lNL := (NL / Py)%nat in
  if decide (length blocks = (Px * Py)%nat
             ∧ Forall (λ b, length b = (lNI * lNL)%nat) blocks)
  then reassemble Px Py lNI lNL NI NL (gather blocks)
  else None.

End GatherValidate.

End ValidationGather.

(** ** Reading a trace *)

Module Trace.

Import Driver.

Definition is_barrier (e : event) : bool :=
  match e with Barrier => true | _ => false end.

Definition is_compile (e : event) : bool :=
  match e with Compile _ => true | _ => false end.

Definition is_load (e : event) : bool :=
  match e with Load _ => true | _ => false end.

Definition is_print (e : event) : bool :=
  match e with Print _ | PrintSizes _ | PrintMedian _ => true | _ => false end.

(** How many events of a trace satisfy [p]. *)
Definition count (p : event → bool) (t : list event) : nat :=
  length (List.filter p t).

(** The position of the first event that satisfies [p]. *)
Fixpoint first_index (p : event → bool) (t : list event) : option nat :=
  match t with
  | [] => None
  | e :: t' => if p e then Some 0%nat else S <$> first_index p t'
  end.

End Trace.

(** ** The validation block of [atax]: point-to-point collection *)

Module Collect.

Local Open Scope nat_scope.

(** How a blocking step can fail to complete. *)
Inductive stop :=
| Blocked       (* no process posts the matching operation *)
| ValueError    (* the shapes of a slice assignment do not agree *)
| Truncated.    (* the message is longer than the receive buffer *)

Section Collect.
Context {V : Type}.

(** [y[lo:hi] = vs] on a 1-D array whose cells may be uninitialised
    ([np.empty]): the bounds are clipped to the array, and [vs] has the
    length of the slice or a single element, which is repeated. *)
Definition set_slice (y : list (option V)) (lo hi : nat) (vs : list V) :
    stop + list (option V) :=
  let lo' := Nat.min lo (length y) in
  let hi' := Nat.min hi (length y) in
  if decide (length vs = hi' - lo')
  then inr (take lo' y ++ (Some <$> vs) ++ drop (lo' + (hi' - lo')) y)
  else match vs with
       | [v] => inr (take lo' y ++ replicate (hi' - lo') (Some v)
                       ++ drop (lo' + (hi' - lo')) y)
       | _ => inl ValueError
       end.

(** The message a rank other than 0 sends in the validation block
    (line 168): [elif pi == 0: comm.Send(ly, dest=0, tag=pj)]. *)
Definition sent (Py rank : nat) (ly : list V) : option (nat * nat * list V) :=
  let pi := rank / Py in
  let pj := rank mod Py in
  if decide (rank = 0) then None
  else if decide (pi = 0) then Some (0, pj, ly)
  else None.

(** [comm.Recv(buf, source=source, tag=tag)] on rank 0: it returns once
    the rank [source] sends a message to rank 0 with that tag, and the
    message then overwrites the head of [buf]. *)
Definition recv (Py : nat) (world : list (list V)) (buf : list V)
    (source tag : nat) : stop + list V :=
  match world !! source with
  | None => inl Blocked
  | Some ly =>
      match sent Py source ly with
      | Some (dest, t, msg) =>
          if decide (dest = 0 ∧ t = tag)
          then if decide (length msg ≤ length buf)
               then inr (msg ++ drop (length msg) buf)
               else inl Truncated
          else inl Blocked
      | None => inl Blocked
      end
  end.

(** One turn of the loop of lines 161-166 on rank 0, whose column is
    [pj]; the state is the array [y] and the buffer [ly]. *)
Definition collect_step (Py lN pj : nat) (world : list (list V))
    (st : list (option V) * list V) (i : nat) :
    stop + (list (option V) * list V) :=
  if decide (i = pj) then inr st
  else match recv Py world st.2 i i with
       | inl e => inl e
       | inr ly =>
           match set_slice st.1 (i * lN) ((i + 1) * lN) ly with
           | inl e => inl e
           | inr y => inr (y, ly)
           end
       end.

Fixpoint collect_loop (Py lN pj : nat) (world : list (list V))
    (st : list (option V) * list V) (idx : list nat) :
    stop + (list (option V) * list V) :=
  match idx with
  | [] => inr st
  | i :: idx' =>
      match collect_step Py lN pj world st i with
      | inl e => inl e
      | inr st' => collect_loop Py lN pj world st' idx'
      end
  end.

(** Rank 0 in lines 158-166: [world] holds the buffer [ly] of every rank;
    the result is the array [y] and the buffer [ly] of rank 0 afterwards. *)
Definition atax_collect (Py N : nat) (world : list (list V)) :
    stop + (list (option V) * list V) :=
  let lN := N / Py in
  let pj := 0 mod Py in
  match world with
  | [] => inl Blocked
  | ly :: _ =>
      match set_slice (replicate N None) 0 lN ly with
      | inl e => inl e
      | inr y => collect_loop Py lN pj world (y, ly) (seq 0 Py)
      end
  end.

End Collect.

End Collect.

(** ** The initializers of the stencils and their validation blocks *)

Module StencilInit.

Import Init Initializers Halo Gather ValidationGather.

(** [np.zeros((n0, n1))] *)
Definition zeros2 (n0 n1 : Z) : array := fromfunction2 (λ _ _, 0%Q) n0 n1.

(** The positions of [1:-1] on an axis of length [n]. *)
Definition inner (n : nat) : list nat :=
  seq (py_index n 1) (py_index n (-1) - py_index n 1).

(** The positions of [A[1:-1, 1:-1]] in a buffer of [R] rows and [C]
    columns, row by row. *)
Definition interior (R C : nat) : list nat :=
  i ← inner R; row_slice C i (py_index C 1) (py_index C (-1)).

(** [A[1:-1] = v] and [A[1:-1, 1:-1] = v] for a value that has the shape of
    the slice, which is the case the initializers are in; the assignment of
    any other value is not modelled and gives [None]. *)
Definition set_inner1 (A v : array) : option array :=
  match shape A with
  | [n] =>
      let reg := inner (Z.to_nat n) in
      if decide (shape v = [Z.of_nat (length reg)])
      then Some {| shape := shape A; data := write (data A) reg (data v) |}
      else None
  | _ => None
  end.

Definition set_inner2 (A v : array) : option array :=
  match shape A with
  | [n0; n1] =>
      let R := Z.to_nat n0 in
      let C := Z.to_nat n1 in
      if decide (shape v = [Z.of_nat (length (inner R)); Z.of_nat (length (inner C))])
      then Some {| shape := shape A; data := write (data A) (interior R C) (data v) |}
      else None
  | _ => None
  end.

(** [A[1:-1]] and [A[1:-1, 1:-1].copy()] *)
Definition get_inner1 (A : array) : option array :=
  match shape A with
  | [n] =>
      let reg := inner (Z.to_nat n) in
      vs ← read (data A) reg;
      Some {| shape := [Z.of_nat (length reg)]; data := vs |}
  | _ => None
  end.

Definition get_inner2 (A : array) : option array :=
  match shape A with
  | [n0; n1] =>
      let R := Z.to_nat n0 in
      let C := Z.to_nat n1 in
      vs ← read (data A) (interior R C);
      Some {| shape := [Z.of_nat (length (inner R)); Z.of_nat (length (inner C))];
              data := vs |}
  | _ => None
  end.

(** *** jacobi_1d, lines 1307-1319 *)

Definition jacobi_1d_shmem_A (N : Z) : array :=
  fromfunction1 (λ i, fdiv (i + 2) N) N.

Definition jacobi_1d_shmem_B (N : Z) : array :=
  fromfunction1 (λ i, fdiv (i + 3) N) N.

Definition jacobi_1d_distr_A (N lN p : Z) : option array :=
  set_inner1 (zeros1 (lN + 2))
             (fromfunction1 (λ i, fdiv (l2g i p lN + 2) N) lN).

Definition jacobi_1d_distr_B (N lN p : Z) : option array :=
  set_inner1 (zeros1 (lN + 2))
             (fromfunction1 (λ i, fdiv (l2g i p lN + 3) N) lN).

(** The validation block of [jacobi_1d], lines 1371-1378, on the buffers
    [lA] of all ranks: rank 0 receives their interiors in rank order into
    an array of [NR] elements, which they must fill. *)
Definition jacobi_1d_gather (NR : Z) (world : list array) : option array :=
  ts ← mapM get_inner1 world;
  let A := gather (data <$> ts) in
  if decide (Z.of_nat (length A) = NR)
  then Some {| shape := [NR]; data := A |} else None.

(** *** jacobi_2d, lines 1457-1469 *)

Definition jacobi_2d_shmem_A (N : Z) : array :=
  fromfunction2 (λ i j, fdiv (i * (j + 2)) N) N N.

Definition jacobi_2d_shmem_B (N : Z) : array :=
  fromfunction2 (λ i j, fdiv (i * (j + 3)) N) N N.

Definition jacobi_2d_distr_A (N lM lN pi pj : Z) : option array :=
  set_inner2 (zeros2 (lM + 2) (lN + 2))
             (fromfunction2 (λ i j, fdiv (l2g i pi lM * (l2g j pj lN + 2)) N) lM lN).

Definition jacobi_2d_distr_B (N lM lN pi pj : Z) : option array :=
  set_inner2 (zeros2 (lM + 2) (lN + 2))
             (fromfunction2 (λ i j, fdiv (l2g i pi lM * (l2g j pj lN + 3)) N) lM lN).

(** The validation block of [jacobi_2d], lines 1535-1545, on the buffers
    of all ranks: the interiors are gathered and reassembled to [(N, N)]. *)
Definition jacobi_2d_gather (Px Py N : Z) (world : list array) : option array :=
  ts ← mapM get_inner2 world;
  G ← gather_validate (Z.to_nat Px) (Z.to_nat Py) (Z.to_nat N) (Z.to_nat N)
                      (data <$> ts);
  Some {| shape := [N; N]; data := G |}.

End StencilInit.

(** * Properties *)

Lemma grid_lookup_cases (n : Z) (p : Z * Z) :
  grid !! n = Some p ->
  (n, p) ∈ [(1, (1, 1)); (2, (1, 2)); (4, (2, 2)); (8, (2, 4)); (16, (4, 4));
            (32, (4, 8)); (64, (8, 8)); (128, (8, 16)); (256, (16, 16))].
Proof.
  unfold grid. intros H.
  repeat (apply lookup_insert_Some in H as [[<- <-] | [? H]];
          [ set_solver | ]).
  by rewrite lookup_empty in H.
Qed.

(** C4. For every supported process count the table gives a pair of
    positive integers whose product is the count, and the table has no
    other key. *)
Theorem grid_table_sound :
  (forall n : Z, In n [1; 2; 4; 8; 16; 32; 64; 128; 256] ->
     exists Px Py : Z, grid !! n = Some (Px, Py) /\ 0 < Px /\ 0 < Py /\ Px * Py = n)
  /\ (forall n : Z, is_Some (grid !! n) -> In n [1; 2; 4; 8; 16; 32; 64; 128; 256]).
Proof.
  split.
  - intros n Hn. simpl in Hn.
    repeat (destruct Hn as [<- | Hn];
            [ eexists _, _; split; [ vm_compute; reflexivity | lia ] | ]).
    destruct Hn.
  - intros n [p Hp]. apply grid_lookup_cases in Hp.
    repeat (apply elem_of_cons in Hp as [Hp | Hp];
            [ inversion Hp; subst; simpl; tauto | ]).
    by apply elem_of_nil in Hp.
Qed.

(** C5. On a grid of positive dimensions the coordinate of a rank lies in
    the grid and maps back to the rank, and the rank of a coordinate lies
    below [Px * Py] and maps back to the coordinate. *)
Theorem rank_coord_bijection (Px Py : Z) :
  0 < Px -> 0 < Py ->
  (forall rank : Z, 0 <= rank < Px * Py ->
     let c := coords Py rank in
     0 <= c.1 < Px /\ 0 <= c.2 < Py /\ c.1 * Py + c.2 = rank
     /\ rank_of Py c = rank)
  /\ (forall pi pj : Z, 0 <= pi < Px -> 0 <= pj < Py ->
        0 <= rank_of Py (pi, pj) < Px * Py
        /\ coords Py (rank_of Py (pi, pj)) = (pi, pj)).
Proof.
  intros HPx HPy. split.
  - intros rank Hr. unfold coords, rank_of. simpl.
    pose proof (Z.mod_pos_bound rank Py HPy) as Hm.
    pose proof (Z.div_mod rank Py) as Hd.
    assert (0 <= rank / Py) by (apply Z.div_pos; lia).
    assert (rank / Py < Px) by (apply Z.div_lt_upper_bound; lia).
    repeat split; lia.
  - intros pi pj Hpi Hpj. unfold coords, rank_of. simpl. split.
    + nia.
    + f_equal.
      * rewrite Z.div_add_l by lia. rewrite Z.div_small by lia. lia.
      * rewrite Z.add_comm, Z_mod_plus_full. apply Z.mod_small. lia.
Qed.

Lemma rank_coord_bijection_witness :
  (let c := coords 4 5 in
   0 <= c.1 < 2 /\ 0 <= c.2 < 4 /\ c.1 * 4 + c.2 = 5 /\ rank_of 4 c = 5)
  /\ (0 <= rank_of 4 (1, 3) < 2 * 4 /\ coords 4 (rank_of 4 (1, 3)) = (1, 3)).
Proof.
  destruct (rank_coord_bijection 2 4 ltac:(lia) ltac:(lia)) as [H1 H2].
  split; [ apply (H1 5); lia | apply (H2 1 3); lia ].
Defined.

(** ** Validation of all-zero arrays *)

Import Validation.

Lemma sum_sq_zeros (n : nat) : sum_sq (zeros n) = 0%float.
Proof.
  unfold sum_sq, zeros.
  induction n as [|n IH]; simpl; [reflexivity|].
  change (0 + 0 * 0)%float with 0%float. exact IH.
Qed.

Lemma arr_sub_zeros (n : nat) : arr_sub (zeros n) (zeros n) = zeros n.
Proof.
  unfold zeros. induction n as [|n IH]; simpl; [reflexivity|].
  change (0 - 0)%float with 0%float. by rewrite IH.
Qed.

Lemma relerr_zeros (n : nat) : relerr (zeros n) (zeros n) = (0 / 0)%float.
Proof.
  unfold relerr, norm. rewrite arr_sub_zeros, sum_sq_zeros. reflexivity.
Qed.

(** C8, as the code behaves.  The metric is [norm(ref - val) / norm(ref)]
    and the flag is [error < 1e-12]; for a reference and a gathered array
    of zeros the quotient is [0.0 / 0.0], which is not a number, and the
    comparison with the threshold is false. *)
Theorem relerr_zeros_is_nan (n : nat) :
  (forall ref val : list float,
     relerr ref val = (norm (arr_sub ref val) / norm ref)%float)
  /\ (forall e : float, passes e = (e <? threshold)%float)
  /\ is_nan (relerr (zeros n) (zeros n)) = true
  /\ (relerr (zeros n) (zeros n) =? 0)%float = false
  /\ passes (relerr (zeros n) (zeros n)) = false.
Proof.
  rewrite relerr_zeros. repeat split.
Qed.

(** C8 as stated fails: on two arrays of four zeros the error is not
    [0.0] and the run is not classified as a pass. *)
Lemma relerr_zeros_not_pass :
  ~ ((relerr (zeros 4) (zeros 4) =? 0)%float = true
     /\ passes (relerr (zeros 4) (zeros 4)) = true).
Proof.
  intros [H _]. vm_compute in H. discriminate H.
Qed.

(** ** Entry points and the grid table *)

Import Driver.

Lemma lookup_grid_None (n : Z) :
  grid !! n = None -> lookup_grid n = ([], inl (KeyError n)).
Proof. intros H. unfold lookup_grid. by rewrite H. Qed.

Lemma lookup_grid_Some (n : Z) (p : Z * Z) :
  grid !! n = Some p -> lookup_grid n = ([], inr p).
Proof. intros H. unfold lookup_grid. by rewrite H. Qed.

(** An entry point that reads the table is its body run on the table
    entry, swapped first in the three matrix-matrix kernels. *)
Lemma entry_body (k : kernel) (rank n : Z) (s : sizes_of k) (p : Z * Z) :
  grid !! n = Some p ->
  entry k rank n s = body k (if swaps_grid k then swap_nonsquare p else p) rank n s.
Proof.
  intros H.
  destruct k; simpl; try reflexivity;
    unfold atax, bicg, gemm, gemver, gesummv, k2mm, k3mm, mvt, jacobi_2d, heat_3d;
    rewrite (lookup_grid_Some _ _ H); unfold mbind, run_bind; simpl;
    match goal with |- (_, ?r) = ?b => by destruct b end.
Qed.

(** Whatever the sizes, a body runs to its first kernel call (in [gemm],
    to line 513) and raises nothing else. *)
Lemma body_result (k : kernel) (g : Z * Z) (rank n : Z) (s : sizes_of k) :
  (body k g rank n s).2 = if decide (k = Gemm) then inl TypeError else inr tt.
Proof.
  destruct k; simpl in *;
    repeat match goal with
    | x : (_ * _)%type |- _ => destruct x
    end;
    unfold atax_body, bicg_body, doitgen, gemm_body, gemver_body, gesummv_body,
      k2mm_body, k3mm_body, mvt_body, jacobi_1d, jacobi_2d_body, heat_3d_body,
      banner, build_stencil, build, when;
    destruct (rank =? 0), (0 <? rank); reflexivity.
Qed.

Lemma body_allocates (k : kernel) (g : Z * Z) (rank n : Z) (s : sizes_of k) :
  existsb is_alloc (body k g rank n s).1 = true.
Proof.
  destruct k; simpl in *;
    repeat match goal with
    | x : (_ * _)%type |- _ => destruct x
    end;
    unfold atax_body, bicg_body, doitgen, gemm_body, gemver_body, gesummv_body,
      k2mm_body, k3mm_body, mvt_body, jacobi_1d, jacobi_2d_body, heat_3d_body,
      banner, build_stencil, build, when;
    destruct (rank =? 0), (0 <? rank); reflexivity.
Qed.

Lemma body_invokes (k : kernel) (g : Z * Z) (rank n : Z) (s : sizes_of k) :
  k <> Gemm -> existsb is_invoke (body k g rank n s).1 = true.
Proof.
  intros Hk.
  destruct k; try congruence; simpl in *;
    repeat match goal with
    | x : (_ * _)%type |- _ => destruct x
    end;
    unfold atax_body, bicg_body, doitgen, gemver_body, gesummv_body,
      k2mm_body, k3mm_body, mvt_body, jacobi_1d, jacobi_2d_body, heat_3d_body,
      banner, build_stencil, build, when;
    destruct (rank =? 0), (0 <? rank); reflexivity.
Qed.

(** C6, as the code behaves.  An entry point that reads the grid table
    stops on a count the table does not hold with the [KeyError] of the
    lookup, before it has printed, initialized or allocated anything; the
    two entry points that distribute along one axis ([doitgen],
    [jacobi_1d]) never read the table: for any count they allocate their
    buffers and reach the kernel call. *)
Theorem unsupported_count_fails_fast (k : kernel) (rank n : Z) (s : sizes_of k) :
  grid !! n = None ->
  (reads_grid k = true -> entry k rank n s = ([], inl (KeyError n)))
  /\ (reads_grid k = false ->
        (entry k rank n s).2 = inr tt
        /\ existsb is_alloc (entry k rank n s).1 = true
        /\ existsb is_invoke (entry k rank n s).1 = true).
Proof.
  intros H. split; intros Hk.
  - destruct k; try discriminate Hk; simpl;
      unfold atax, bicg, gemm, gemver, gesummv, k2mm, k3mm, mvt, jacobi_2d, heat_3d;
      by rewrite (lookup_grid_None _ H).
  - destruct k; try discriminate Hk.
    + change (entry Doitgen rank n s) with (body Doitgen (0, 0) rank n s).
      rewrite body_result, body_allocates, body_invokes by discriminate.
      by rewrite decide_False by discriminate.
    + change (entry Jacobi_1d rank n s) with (body Jacobi_1d (0, 0) rank n s).
      rewrite body_result, body_allocates, body_invokes by discriminate.
      by rewrite decide_False by discriminate.
Qed.

Lemma unsupported_count_fails_fast_witness :
  (reads_grid Atax = true -> entry Atax 0 3 (1800, 2200) = ([], inl (KeyError 3)))
  /\ (reads_grid Atax = false ->
        (entry Atax 0 3 (1800, 2200)).2 = inr tt
        /\ existsb is_alloc (entry Atax 0 3 (1800, 2200)).1 = true
        /\ existsb is_invoke (entry Atax 0 3 (1800, 2200)).1 = true).
Proof.
  apply (unsupported_count_fails_fast Atax 0 3 (1800, 2200)).
  vm_compute. reflexivity.
Defined.

(** C6 as stated fails: with three processes [doitgen] raises nothing and
    allocates its buffers. *)
Lemma doitgen_runs_on_three :
  ~ (forall (k : kernel) (rank n : Z) (s : sizes_of k),
       grid !! n = None ->
       (exists e : exn, (entry k rank n s).2 = inl e)
       /\ existsb is_alloc (entry k rank n s).1 = false).
Proof.
  intros H.
  destruct (H Doitgen 0 3 (256, 250, 270)) as [_ Ha]; [ by vm_compute | ].
  vm_compute in Ha. discriminate Ha.
Qed.




Lemma swap_nonsquare_table (n : Z) (p : Z * Z) :
  grid !! n = Some p ->
  (p.1 < p.2 <-> In n [2; 8; 32; 128])
  /\ p.2 <= (swap_nonsquare p).1
  /\ (swap_nonsquare p).2 <= (swap_nonsquare p).1
  /\ (swap_nonsquare p).1 * (swap_nonsquare p).2 = n.
Proof.
  intros H. apply grid_lookup_cases in H.
  repeat (apply elem_of_cons in H as [H | H];
          [ inversion H; subst; vm_compute; intuition (congruence || lia) | ]).
  by apply elem_of_nil in H.
Qed.

Lemma swap_nonsquare_spec (p : Z * Z) :
  (p.1 < p.2 -> swap_nonsquare p = (p.2, p.1))
  /\ (p.2 <= p.1 -> swap_nonsquare p = p).
Proof.
  unfold swap_nonsquare. destruct (Z.ltb_spec p.1 p.2); split; intros; (done || lia).
Qed.

(** C10. In [gemm], [k2mm] and [k3mm] the table entry is swapped when
    [Px < Py], which happens exactly for the counts 2, 8, 32 and 128, and
    the coordinates and block sizes are computed from the swapped pair: the
    grid these three use has [Px >= Py] and is the transpose of the table
    entry for those counts.  Every other entry point that reads the table
    uses the entry as it stands. *)
Theorem mm_grid_transposed (k : kernel) (rank n : Z) (s : sizes_of k) (p : Z * Z) :
  grid !! n = Some p ->
  let q := swap_nonsquare p in
  (swaps_grid k = true <-> k = Gemm \/ k = K2mm \/ k = K3mm)
  /\ (p.1 < p.2 <-> In n [2; 8; 32; 128])
  /\ (p.1 < p.2 -> q = (p.2, p.1))
  /\ (p.2 <= p.1 -> q = p)
  /\ q.2 <= q.1
  /\ (swaps_grid k = true -> entry k rank n s = body k q rank n s)
  /\ (swaps_grid k = false -> entry k rank n s = body k p rank n s)
  /\ (forall NI NJ NK : Z,
        In (Init "gemm_distr_init" [rank / q.2; rank mod q.2])
           (gemm rank n (NI, NJ, NK)).1
        /\ In (Alloc "C" [NI / q.1; NJ / q.2]) (gemm rank n (NI, NJ, NK)).1)
  /\ (forall NI NJ NK NL : Z,
        In (Init "k2mm_distr_init" [rank / q.2; rank mod q.2])
           (k2mm rank n (NI, NJ, NK, NL)).1
        /\ In (Alloc "D" [NI / q.1; NL / q.2]) (k2mm rank n (NI, NJ, NK, NL)).1)
  /\ (forall NI NJ NK NL NM : Z,
        In (Init "k3mm_distr_init" [rank / q.2; rank mod q.2])
           (k3mm rank n (NI, NJ, NK, NL, NM)).1
        /\ In (Alloc "E" [NI / q.1; NL / q.2]) (k3mm rank n (NI, NJ, NK, NL, NM)).1).
Proof.
  intros H q.
  destruct (swap_nonsquare_table n p H) as (Hlt & _ & Hge & _).
  destruct (swap_nonsquare_spec p) as [Hs1 Hs2].
  split; [ destruct k; simpl; intuition congruence | ].
  do 4 (split; [ assumption | ]).
  split; [ intros Hk; rewrite (entry_body k rank n s p H), Hk; reflexivity | ].
  split; [ intros Hk; rewrite (entry_body k rank n s p H), Hk; reflexivity | ].
  split; [ | split ]; intros.
  - change (gemm rank n (NI, NJ, NK)) with (entry Gemm rank n (NI, NJ, NK)).
    rewrite (entry_body Gemm _ _ _ p H). simpl. fold q. destruct q as [Qx Qy].
    unfold gemm_body, banner, when. destruct (rank =? 0); simpl; tauto.
  - change (k2mm rank n (NI, NJ, NK, NL)) with (entry K2mm rank n (NI, NJ, NK, NL)).
    rewrite (entry_body K2mm _ _ _ p H). simpl. fold q. destruct q as [Qx Qy].
    unfold k2mm_body, banner, build, when.
    destruct (rank =? 0), (0 <? rank); simpl; tauto.
  - change (k3mm rank n (NI, NJ, NK, NL, NM))
      with (entry K3mm rank n (NI, NJ, NK, NL, NM)).
    rewrite (entry_body K3mm _ _ _ p H). simpl. fold q. destruct q as [Qx Qy].
    unfold k3mm_body, banner, build, when.
    destruct (rank =? 0), (0 <? rank); simpl; tauto.
Qed.

Lemma mm_grid_transposed_witness :
  let q := swap_nonsquare (2, 4) in
  (swaps_grid K2mm = true <-> K2mm = Gemm \/ K2mm = K2mm \/ K2mm = K3mm)
  /\ ((2, 4).1 < (2, 4).2 <-> In 8 [2; 8; 32; 128])
  /\ ((2, 4).1 < (2, 4).2 -> q = ((2, 4).2, (2, 4).1))
  /\ ((2, 4).2 <= (2, 4).1 -> q = (2, 4))
  /\ q.2 <= q.1
  /\ (swaps_grid K2mm = true ->
        entry K2mm 5 8 (1600, 1800, 2200, 2400)
        = body K2mm q 5 8 (1600, 1800, 2200, 2400))
  /\ (swaps_grid K2mm = false ->
        entry K2mm 5 8 (1600, 1800, 2200, 2400)
        = body K2mm (2, 4) 5 8 (1600, 1800, 2200, 2400))
  /\ (forall NI NJ NK : Z,
        In (Init "gemm_distr_init" [5 / q.2; 5 mod q.2])
           (gemm 5 8 (NI, NJ, NK)).1
        /\ In (Alloc "C" [NI / q.1; NJ / q.2]) (gemm 5 8 (NI, NJ, NK)).1)
  /\ (forall NI NJ NK NL : Z,
        In (Init "k2mm_distr_init" [5 / q.2; 5 mod q.2])
           (k2mm 5 8 (NI, NJ, NK, NL)).1
        /\ In (Alloc "D" [NI / q.1; NL / q.2]) (k2mm 5 8 (NI, NJ, NK, NL)).1)
  /\ (forall NI NJ NK NL NM : Z,
        In (Init "k3mm_distr_init" [5 / q.2; 5 mod q.2])
           (k3mm 5 8 (NI, NJ, NK, NL, NM)).1
        /\ In (Alloc "E" [NI / q.1; NL / q.2]) (k3mm 5 8 (NI, NJ, NK, NL, NM)).1).
Proof.
  apply (mm_grid_transposed K2mm 5 8 (1600, 1800, 2200, 2400) (2, 4)).
  vm_compute. reflexivity.
Defined.

(** ** Reassembly of the gathered blocks *)

Import Gather.

Section Bind.
Context {A : Type}.

Lemma bind_seq_length (f : nat → list A) (m n : nat) :
  (∀ i, (i < n)%nat → length (f i) = m) →
  length (seq 0 n ≫= f) = (n * m)%nat.
Proof.
  induction n as [|n IH]; intros Hf; [ done | ].
  rewrite seq_S, bind_app, length_app, IH by (intros; apply Hf; lia).
  simpl. rewrite app_nil_r, Hf by lia. lia.
Qed.

Lemma bind_seq_lookup (f : nat → list A) (m n i r : nat) :
  (∀ i, (i < n)%nat → length (f i) = m) →
  (i < n)%nat → (r < m)%nat →
  (seq 0 n ≫= f) !! (i * m + r)%nat = f i !! r.
Proof.
  induction n as [|n IH]; intros Hf Hi Hr; [ lia | ].
  rewrite seq_S, bind_app. simpl. rewrite app_nil_r.
  assert (length (seq 0 n ≫= f) = (n * m)%nat) as Hlen
    by (apply bind_seq_length; intros; apply Hf; lia).
  destruct (decide (i = n)) as [-> | Hne].
  - rewrite lookup_app_r by lia. f_equal. lia.
  - rewrite lookup_app_l by nia. apply IH; [ intros; apply Hf | | ]; lia.
Qed.
End Bind.

Lemma radix_lt (i n r m : nat) :
  (i < n)%nat → (r < m)%nat → (i * m + r < n * m)%nat.
Proof.
  intros Hi Hr. apply Nat.lt_le_trans with (S i * m)%nat; [ simpl; lia | ].
  apply Nat.mul_le_mono_r. lia.
Qed.

Lemma positions_0213_length (d0 d1 d2 d3 : nat) :
  length (positions_0213 d0 d1 d2 d3) = (d0 * (d2 * (d1 * d3)))%nat.
Proof.
  unfold positions_0213.
  apply bind_seq_length; intros a _.
  apply bind_seq_length; intros c _.
  apply bind_seq_length; intros b _.
  rewrite (bind_seq_length _ 1); [ lia | done ].
Qed.

Lemma positions_0213_lookup (d0 d1 d2 d3 a b c e : nat) :
  (a < d0)%nat → (b < d1)%nat → (c < d2)%nat → (e < d3)%nat →
  positions_0213 d0 d1 d2 d3 !! ((a * d2 + c) * (d1 * d3) + (b * d3 + e))%nat
  = Some (((a * d1 + b) * d2 + c) * d3 + e)%nat.
Proof.
  intros Ha Hb Hc He. unfold positions_0213.
  replace ((a * d2 + c) * (d1 * d3) + (b * d3 + e))%nat
    with (a * (d2 * (d1 * d3)) + (c * (d1 * d3) + (b * d3 + e)))%nat by lia.
  rewrite (bind_seq_lookup _ (d2 * (d1 * d3)));
    [ | | done | by apply radix_lt; [ | apply radix_lt ] ].
  2:{ intros. apply bind_seq_length; intros. apply bind_seq_length; intros.
      rewrite (bind_seq_length _ 1); [ lia | done ]. }
  rewrite (bind_seq_lookup _ (d1 * d3)); [ | | done | by apply radix_lt ].
  2:{ intros. apply bind_seq_length; intros.
      rewrite (bind_seq_length _ 1); [ lia | done ]. }
  rewrite (bind_seq_lookup _ d3); [ | | done | done ].
  2:{ intros. rewrite (bind_seq_length _ 1); [ lia | done ]. }
  replace e with (e * 1 + 0)%nat at 1 by lia.
  rewrite (bind_seq_lookup _ 1); [ done | done | done | lia ].
Qed.

Lemma positions_0213_bound (d0 d1 d2 d3 : nat) :
  Forall (λ k, k < d0 * d1 * d2 * d3)%nat (positions_0213 d0 d1 d2 d3).
Proof.
  apply Forall_forall. intros k Hk. unfold positions_0213 in Hk.
  apply list_elem_of_bind in Hk as (a & Hk & Ha%elem_of_seq).
  apply list_elem_of_bind in Hk as (c & Hk & Hc%elem_of_seq).
  apply list_elem_of_bind in Hk as (b & Hk & Hb%elem_of_seq).
  apply list_elem_of_bind in Hk as (e & Hk & He%elem_of_seq).
  apply list_elem_of_singleton in Hk as ->.
  repeat apply radix_lt; lia.
Qed.

Section ReassembleProps.
Context {V : Type}.

Lemma mapM_lookup_positions (C : list V) (ps : list nat) :
  Forall (λ k, k < length C)%nat ps →
  ∃ T, mapM (λ k, C !! k) ps = Some T
       ∧ length T = length ps
       ∧ ∀ i k, ps !! i = Some k → T !! i = C !! k.
Proof.
  intros Hps.
  assert (is_Some (mapM (λ k, C !! k) ps)) as [T HT].
  { apply mapM_is_Some. eapply Forall_impl; [ exact Hps | ].
    intros k Hk. by apply lookup_lt_is_Some. }
  exists T. split; [ exact HT | ].
  apply mapM_Some_1 in HT. split.
  - symmetry. by eapply Forall2_length.
  - intros i k Hi.
    destruct (Forall2_lookup_l _ _ _ _ _ HT Hi) as (y & Hy & Hky). congruence.
Qed.

(** C3. For a staging array [C] of shape [(Px, Py, lM, lN)], transposing
    with axes [(0, 2, 1, 3)] and reshaping to [(Px*lM, Py*lN)] succeeds and
    gives the array whose element [(pi*lM + i, pj*lN + j)] is
    [C[pi, pj, i, j]]: grid axis 0 goes with block axis 0. *)
Theorem reassemble_block_layout (Px Py lM lN : nat) (C : list V) :
  length C = (Px * Py * lM * lN)%nat →
  ∃ G, reassemble Px Py lM lN (Px * lM) (Py * lN) C = Some G
       ∧ length G = ((Px * lM) * (Py * lN))%nat
       ∧ ∀ pi pj i j, (pi < Px)%nat → (pj < Py)%nat → (i < lM)%nat → (j < lN)%nat →
           is_Some (at4 Px Py lM lN C pi pj i j)
           ∧ at2 (Px * lM) (Py * lN) G (pi * lM + i) (pj * lN + j)
             = at4 Px Py lM lN C pi pj i j.
Proof.
  intros HC.
  destruct (mapM_lookup_positions C (positions_0213 Px Py lM lN)) as (T & HT & HlT & Hget).
  { rewrite HC. apply positions_0213_bound. }
  rewrite positions_0213_length in HlT.
  exists T. unfold reassemble, transpose_0213. rewrite HT. simpl.
  unfold reshape2. rewrite decide_True by lia.
  split; [ done | ]. split; [ lia | ].
  intros pi pj i j Hpi Hpj Hi Hj.
  unfold at2, at4.
  rewrite (decide_True (P := (pi * lM + i < Px * lM ∧ pj * lN + j < Py * lN)%nat))
    by (split; apply radix_lt; lia).
  rewrite (decide_True (P := (pi < Px ∧ pj < Py ∧ i < lM ∧ j < lN)%nat)) by lia.
  split.
  - apply lookup_lt_is_Some. rewrite HC. repeat apply radix_lt; lia.
  - apply Hget. by apply positions_0213_lookup.
Qed.

(** The staging array holds the blocks in rank order: [C[pi, pj, i, j]] is
    element [(i, j)] of the block of rank [pi*Py + pj]. *)
Lemma gather_rank_order (Py lM lN : nat) (blocks : list (list V)) (pi pj i j : nat) :
  Forall (λ b, length b = (lM * lN)%nat) blocks →
  (pj < Py)%nat → (i < lM)%nat → (j < lN)%nat →
  gather blocks !! (((pi * Py + pj) * lM + i) * lN + j)%nat
  = blocks !! (pi * Py + pj)%nat ≫= (λ b, b !! (i * lN + j)%nat).
Proof.
  intros Hb Hpj Hi Hj. unfold gather.
  replace (((pi * Py + pj) * lM + i) * lN + j)%nat
    with ((pi * Py + pj) * (lM * lN) + (i * lN + j))%nat by lia.
  assert (i * lN + j < lM * lN)%nat as Hlt by (by apply radix_lt).
  destruct (blocks !! (pi * Py + pj)%nat) as [b|] eqn:Eb; simpl.
  - destruct (b !! (i * lN + j)%nat) as [x|] eqn:Ex.
    + apply (join_lookup_Some_same_length' (lM * lN)); eauto.
    + apply lookup_lt_Some in Eb as Hin.
      rewrite Forall_lookup in Hb. specialize (Hb _ _ Eb).
      apply lookup_ge_None in Ex. lia.
  - apply eq_None_not_Some. intros [x Hx].
    apply (join_lookup_Some_same_length' (lM * lN)) in Hx as (l & Hl & _); [ | done | done ].
    congruence.
Qed.
End ReassembleProps.

Lemma reassemble_block_layout_witness :
  ∃ G, reassemble 2 2 1 2 (2 * 1) (2 * 2) [10; 11; 20; 21; 30; 31; 40; 41]%Z = Some G
       ∧ length G = ((2 * 1) * (2 * 2))%nat
       ∧ ∀ pi pj i j, (pi < 2)%nat → (pj < 2)%nat → (i < 1)%nat → (j < 2)%nat →
           is_Some (at4 2 2 1 2 [10; 11; 20; 21; 30; 31; 40; 41]%Z pi pj i j)
           ∧ at2 (2 * 1) (2 * 2) G (pi * 1 + i) (pj * 2 + j)
             = at4 2 2 1 2 [10; 11; 20; 21; 30; 31; 40; 41]%Z pi pj i j.
Proof.
  apply (reassemble_block_layout 2 2 1 2 [10; 11; 20; 21; 30; 31; 40; 41]%Z).
  reflexivity.
Defined.

(** ** Timing report *)

Import Timing.

Lemma insert_sorted_perm (x : float) (l : list float) :
  Permutation (insert_sorted x l) (x :: l).
Proof.
  induction l as [|y l IH]; simpl; [ done | ].
  destruct (x <=? y)%float; [ done | ].
  rewrite IH. apply perm_swap.
Qed.

Lemma sort_perm (l : list float) : Permutation (sort l) l.
Proof.
  induction l as [|x l IH]; simpl; [ done | ].
  rewrite insert_sorted_perm. by constructor.
Qed.

Lemma sort_length (l : list float) : length (sort l) = length l.
Proof. apply Permutation_length, sort_perm. Qed.

(** Binary64 numbers other than NaN are totally ordered by [<=]. *)
Lemma SFcompare_antisym (f1 f2 : spec_float) :
  SFcompare f2 f1 = option_map CompOpp (SFcompare f1 f2).
Proof.
  destruct f1 as [s1|s1| |s1 m1 e1], f2 as [s2|s2| |s2 m2 e2]; simpl; try done;
    try (by destruct s1); try (by destruct s2); try (by destruct s1, s2).
  rewrite (Z.compare_antisym e1 e2).
  change (PosDef.Pos.compare_cont Eq m2 m1) with (Pos.compare m2 m1).
  change (PosDef.Pos.compare_cont Eq m1 m2) with (Pos.compare m1 m2).
  rewrite (Pos.compare_antisym m1 m2).
  destruct s1, s2, (e1 ?= e2)%Z, (m1 ?= m2)%positive; done.
Qed.

Lemma is_nan_false (x : float) :
  PrimFloat.is_nan x = false → Prim2SF x ≠ S754_nan.
Proof.
  unfold PrimFloat.is_nan. rewrite FloatAxioms.eqb_spec. intros H E. rewrite E in H. done.
Qed.

Lemma leb_total (x y : float) :
  PrimFloat.is_nan x = false → PrimFloat.is_nan y = false →
  (x <=? y)%float = false → (y <=? x)%float = true.
Proof.
  intros Hx%is_nan_false Hy%is_nan_false. rewrite !FloatAxioms.leb_spec. unfold SFleb.
  rewrite (SFcompare_antisym (Prim2SF x) (Prim2SF y)).
  destruct (Prim2SF x) as [s1|s1| |s1 m1 e1], (Prim2SF y) as [s2|s2| |s2 m2 e2];
    try done; simpl;
    try (by destruct s1); try (by destruct s2); try (by destruct s1, s2).
  change (PosDef.Pos.compare_cont Eq m1 m2) with (Pos.compare m1 m2).
  by destruct s1, s2, (e1 ?= e2)%Z, (m1 ?= m2)%positive.
Qed.

(** Inserting a number into a sorted list of numbers keeps it sorted. *)
Lemma insert_sorted_sorted (x : float) (l : list float) :
  PrimFloat.is_nan x = false → Forall (λ y, PrimFloat.is_nan y = false) l →
  Sorted (λ a b, (a <=? b)%float = true) l →
  Sorted (λ a b, (a <=? b)%float = true) (insert_sorted x l).
Proof.
  intros Hx. induction l as [|y l IH]; intros Hl Hs; simpl.
  - repeat constructor.
  - apply Forall_cons in Hl as [Hy Hl].
    destruct (x <=? y)%float eqn:E.
    + constructor; [ exact Hs | by constructor ].
    + apply leb_total in E; [ | done | done ].
      apply Sorted_inv in Hs as [Hs Hhd]. constructor; [ by apply IH | ].
      destruct l as [|z l]; simpl; [ by constructor | ].
      destruct (x <=? z)%float; constructor; [ done | by inversion Hhd ].
Qed.

Lemma sort_sorted (l : list float) :
  Forall (λ y, PrimFloat.is_nan y = false) l →
  Sorted (λ a b, (a <=? b)%float = true) (sort l).
Proof.
  induction l as [|x l IH]; intros Hl; simpl; [ constructor | ].
  apply Forall_cons in Hl as [Hx Hl].
  apply insert_sorted_sorted; [ done | | by apply IH ].
  eapply Forall_forall. intros y Hy.
  rewrite Forall_forall in Hl. apply Hl.
  by rewrite <- (sort_perm l).
Qed.

Lemma existsb_is_nan (l : list float) :
  Forall (λ y, PrimFloat.is_nan y = false) l → existsb PrimFloat.is_nan l = false.
Proof. induction 1 as [|x l Hx _ IH]; simpl; [ done | by rewrite Hx ]. Qed.

Lemma timeit_repeat_once (prog : string) (kwargs : list (string * Z))
    (clock : nat -> float) (i n : nat) :
  timeit_repeat (emit Barrier) (emit (Invoke prog kwargs)) 1 clock i n
  = (mjoin (replicate n [Barrier; Invoke prog kwargs]), inr (clock <$> seq i n)).
Proof.
  revert i. induction n as [|n IH]; intros i; [ reflexivity | ].
  simpl. rewrite IH. unfold mbind, run_bind, mret, run_ret. simpl.
  by rewrite app_nil_r.
Qed.

Lemma median_of_ten (l : list float) :
  length l = 10%nat → Forall (λ y, PrimFloat.is_nan y = false) l →
  median l = ((nth 4 (sort l) 0 + nth 5 (sort l) 0) / 2)%float.
Proof.
  intros Hl Hn. unfold median.
  rewrite existsb_is_nan, sort_length, Hl by done. reflexivity.
Qed.

Lemma Qmake_bounds (R mz : Z) (dp : positive) :
  ((inject_Z R - (1 # 2) <= mz # dp)%Q ↔ (2 * R - 1) * Z.pos dp ≤ 2 * mz)
  ∧ ((mz # dp <= inject_Z R + (1 # 2))%Q ↔ 2 * mz ≤ (2 * R + 1) * Z.pos dp)
  ∧ ((mz # dp == inject_Z R + (1 # 2))%Q ↔ 2 * mz = (2 * R + 1) * Z.pos dp)
  ∧ ((mz # dp == inject_Z R - (1 # 2))%Q ↔ 2 * mz = (2 * R - 1) * Z.pos dp).
Proof.
  unfold Qle, Qeq, Qminus, Qplus, Qopp, inject_Z. cbn [Qnum Qden].
  rewrite !Pos2Z.inj_mul. repeat split; intros; lia.
Qed.

Lemma round_half_even_spec (m : positive) (e : Z) :
  let R := round_half_even m e in
  let v := value_of false m e in
  (inject_Z R - (1 # 2) <= v <= inject_Z R + (1 # 2))%Q
  ∧ ((v == inject_Z R + (1 # 2) ∨ v == inject_Z R - (1 # 2))%Q → Z.even R = true).
Proof.
  unfold round_half_even, value_of. destruct (Z.leb_spec 0 e) as [He | He]; cbv zeta.
  - split; [ lra | ]. intros [H | H]; exfalso; lra.
  - assert (Z.pos (2 ^ Z.to_pos (- e)) = 2 ^ (- e)) as Hd
      by (rewrite Pos2Z.inj_pow, Z2Pos.id by lia; done).
    set (dp := (2 ^ Z.to_pos (- e))%positive) in *.
    destruct (Qmake_bounds
                (match 2 * (Z.pos m mod 2 ^ (- e)) ?= 2 ^ (- e) with
                 | Eq => if Z.even (Z.pos m / 2 ^ (- e))
                         then Z.pos m / 2 ^ (- e) else Z.pos m / 2 ^ (- e) + 1
                 | Lt => Z.pos m / 2 ^ (- e)
                 | Gt => Z.pos m / 2 ^ (- e) + 1
                 end) (Z.pos m) dp) as (B1 & B2 & B3 & B4).
    rewrite B1, B2, B3, B4, Hd. clear B1 B2 B3 B4.
    assert (0 < 2 ^ (- e)) as Hpos by (apply Z.pow_pos_nonneg; lia).
    pose proof (Z.div_mod (Z.pos m) (2 ^ (- e)) ltac:(lia)) as Hdm.
    pose proof (Z.mod_pos_bound (Z.pos m) (2 ^ (- e)) Hpos) as Hr.
    set (d := 2 ^ (- e)) in *. set (q := Z.pos m / d) in *.
    set (r := Z.pos m mod d) in *.
    destruct (Z.compare_spec (2 * r) d) as [Heq | Hlt | Hgt].
    + destruct (Z.even q) eqn:Hev.
      * split; [ lia | done ].
      * split; [ lia | ]. intros _.
        rewrite Z.even_add, Hev. done.
    + split; [ lia | ]. intros [H | H]; exfalso; lia.
    + split; [ lia | ]. intros [H | H]; exfalso; lia.
Qed.

(** [int(round(x))] is an integer nearest to the exact value of [x], and
    the even one when [x] lies half way between two integers. *)
Lemma py_round_nearest (x : float) (v : Q) :
  to_Q x = Some v →
  ∃ n, py_round x = inr n
       ∧ (inject_Z n - (1 # 2) <= v <= inject_Z n + (1 # 2))%Q
       ∧ ((v == inject_Z n + (1 # 2) ∨ v == inject_Z n - (1 # 2))%Q →
          Z.even n = true).
Proof.
  unfold to_Q, py_round. destruct (Prim2SF x) as [s|s| |s m e]; try done.
  - intros [= <-]. exists 0. split; [ done | ].
    change (inject_Z 0) with 0%Q. split; [ lra | done ].
  - intros [= <-].
    destruct (round_half_even_spec m e) as [Hb Ht]. cbv zeta in Hb, Ht.
    destruct s.
    + exists (- round_half_even m e). split; [ done | ].
      change (value_of true m e) with (- value_of false m e)%Q.
      rewrite inject_Z_opp. split; [ lra | ].
      intros H. rewrite Z.even_opp. apply Ht.
      destruct H as [H | H]; [ right | left ]; lra.
    + exists (round_half_even m e). by split.
Qed.

(** C9. The timing block runs ten times the pair "barrier, one kernel
    call" and nothing else; for ten measured times that are numbers the
    figure is their median (the binary64 mean of the fifth and sixth
    smallest), converted by [int(round(raw * 1000))] with the product in
    binary64 and rounded to nearest, ties to even, and only rank 0 prints
    it.  The median is not the mean: with one slow first call they
    differ. *)
Theorem timed_report_median (rank : Z) (prog : string)
    (kwargs : list (string * Z)) (clock : nat -> float) :
  let samples := clock <$> seq 0 10 in
  let s := sort samples in
  let m := median samples in
  Forall (fun t => PrimFloat.is_nan t = false) samples ->
  timed_report rank prog kwargs clock
  = ((mjoin (replicate 10 [Barrier; Invoke prog kwargs])
        ++ (if rank =? 0
            then match time_to_ms m with
                 | inr ms => [PrintMedian ms]
                 | inl _ => []
                 end
            else []))%list,
     if rank =? 0
     then match time_to_ms m with inl e => inl e | inr _ => inr tt end
     else inr tt)
  /\ length samples = 10%nat
  /\ Permutation s samples
  /\ Sorted (fun a b => (a <=? b)%float = true) s
  /\ m = ((nth 4 s 0 + nth 5 s 0) / 2)%float
  /\ time_to_ms m = py_round (m * 1000)%float
  /\ (forall v : Q, to_Q (m * 1000)%float = Some v ->
        exists ms : Z, time_to_ms m = inr ms
          /\ (inject_Z ms - (1 # 2) <= v <= inject_Z ms + (1 # 2))%Q
          /\ ((v == inject_Z ms + (1 # 2) \/ v == inject_Z ms - (1 # 2))%Q ->
              Z.even ms = true))
  /\ time_to_ms 0x1.0624dd2f1a9fcp-11 = inr 0
  /\ time_to_ms (median (warm_up <$> seq 0 10))
     <> time_to_ms (mean (warm_up <$> seq 0 10)).
Proof.
  intros samples s m Hnum.
  split.
  { unfold timed_report. rewrite timeit_repeat_once.
    unfold mbind, run_bind, when. cbn [fst snd].
    change (median (clock <$> seq 0 10)) with m. clearbody m.
    destruct (rank =? 0); [ | by rewrite app_nil_r ].
    by destruct (time_to_ms m). }
  split; [ reflexivity | ].
  split; [ apply sort_perm | ].
  split; [ by apply sort_sorted | ].
  split; [ by apply median_of_ten | ].
  split; [ reflexivity | ].
  split; [ intros v Hv; by apply py_round_nearest | ].
  split; [ by vm_compute | ].
  vm_compute. discriminate.
Qed.

Lemma timed_report_median_witness :
  let samples := warm_up <$> seq 0 10 in
  let s := sort samples in
  let m := median samples in
  timed_report 0 "atax_distr" [] warm_up
  = ((mjoin (replicate 10 [Barrier; Invoke "atax_distr" []])
        ++ (if 0 =? 0
            then match time_to_ms m with
                 | inr ms => [PrintMedian ms]
                 | inl _ => []
                 end
            else []))%list,
     if 0 =? 0
     then match time_to_ms m with inl e => inl e | inr _ => inr tt end
     else inr tt)
  /\ length samples = 10%nat
  /\ Permutation s samples
  /\ Sorted (fun a b => (a <=? b)%float = true) s
  /\ m = ((nth 4 s 0 + nth 5 s 0) / 2)%float
  /\ time_to_ms m = py_round (m * 1000)%float
  /\ (forall v : Q, to_Q (m * 1000)%float = Some v ->
        exists ms : Z, time_to_ms m = inr ms
          /\ (inject_Z ms - (1 # 2) <= v <= inject_Z ms + (1 # 2))%Q
          /\ ((v == inject_Z ms + (1 # 2) \/ v == inject_Z ms - (1 # 2))%Q ->
              Z.even ms = true))
  /\ time_to_ms 0x1.0624dd2f1a9fcp-11 = inr 0
  /\ time_to_ms (median (warm_up <$> seq 0 10))
     <> time_to_ms (mean (warm_up <$> seq 0 10)).
Proof.
  apply (timed_report_median 0 "atax_distr" [] warm_up).
  repeat constructor.
Defined.

(** ** Halo exchange *)

Import Halo.

Section ExchangeProps.
Context {V : Type}.
Implicit Types (buf : list V) (reg : list nat) (vs : list V).

Lemma write_length buf reg vs : length (write buf reg vs) = length buf.
Proof.
  revert buf vs. induction reg as [|k reg IH]; intros buf [|v vs]; simpl; try done.
  by rewrite IH, length_insert.
Qed.

Lemma write_lookup_notin buf reg vs (k : nat) :
  k ∉ reg → write buf reg vs !! k = buf !! k.
Proof.
  revert buf vs. induction reg as [|k0 reg IH]; intros buf [|v vs] Hk; simpl; try done.
  apply not_elem_of_cons in Hk as [Hne Hk].
  rewrite IH by done. by apply list_lookup_insert_ne.
Qed.

Lemma write_lookup_in buf reg vs (i k : nat) :
  NoDup reg → length vs = length reg →
  Forall (λ j, j < length buf)%nat reg →
  reg !! i = Some k →
  write buf reg vs !! k = vs !! i.
Proof.
  revert buf vs i.
  induction reg as [|k0 reg IH]; intros buf [|v vs] i Hnd Hlen Hin Hi; simpl in *;
    try done.
  apply NoDup_cons in Hnd as [Hk0 Hnd].
  apply Forall_cons in Hin as [Hk0in Hin].
  destruct i as [|i]; simpl in *.
  - injection Hi as ->.
    rewrite write_lookup_notin by done. by apply list_lookup_insert_eq.
  - apply IH; try done; [ lia | ].
    by rewrite length_insert.
Qed.

Variable post : Z → posted.
Variable w : list (list V).

Lemma send_completes_null (me : Z) (s : xfer) :
  peer s = PROC_NULL → send_completes post w me s = true.
Proof. intros H. unfold send_completes. by rewrite H. Qed.

Lemma send_completes_active (me : Z) (s : xfer) :
  0 ≤ peer s < Z.of_nat (length w) →
  has_matching_recv (post (peer s)) me (tag s) = true →
  send_completes post w me s = true.
Proof.
  intros H Hm. unfold send_completes, valid_rank. rewrite Hm.
  replace (0 <=? peer s) with true by (symmetry; apply Z.leb_le; lia).
  replace (peer s <? Z.of_nat (length w)) with true by (symmetry; apply Z.ltb_lt; lia).
  apply orb_true_r.
Qed.

Lemma complete_recv_null (me : Z) buf (r : xfer) :
  peer r = PROC_NULL → complete_recv post w me buf r = Some buf.
Proof. intros H. unfold complete_recv. by rewrite H. Qed.

Lemma complete_recv_active (me : Z) buf (r s : xfer) (src : nat) (sb : list V) :
  peer r = Z.of_nat src →
  w !! src = Some sb →
  matching_send (post (peer r)) me (tag r) = Some s →
  Forall (λ k, k < length sb)%nat (region s) →
  length (region s) = length (region r) →
  ∃ vs, complete_recv post w me buf r = Some (write buf (region r) vs)
        ∧ length vs = length (region r)
        ∧ ∀ i k, region s !! i = Some k → vs !! i = sb !! k.
Proof.
  intros Hp Hsb Hs Hin Hlen.
  destruct (mapM_lookup_positions sb (region s) Hin) as (vs & Hvs & Hl & Hget).
  exists vs. split; [ | split; [ congruence | exact Hget ] ].
  unfold complete_recv. rewrite Hs, Hp.
  replace (Z.of_nat src =? PROC_NULL) with false
    by (symmetry; apply Z.eqb_neq; unfold PROC_NULL; lia).
  unfold valid_rank.
  apply lookup_lt_Some in Hsb as Hlt.
  replace (0 <=? Z.of_nat src) with true by (symmetry; apply Z.leb_le; lia).
  replace (Z.of_nat src <? Z.of_nat (length w)) with true
    by (symmetry; apply Z.ltb_lt; lia).
  simpl. rewrite Nat2Z.id, Hsb. simpl. unfold read. rewrite Hvs. simpl.
  by rewrite decide_True by congruence.
Qed.

Lemma complete_recv_active_spec (me : Z) buf (r s : xfer) (src : nat) (sb : list V) :
  peer r = Z.of_nat src →
  w !! src = Some sb →
  matching_send (post (peer r)) me (tag r) = Some s →
  Forall (λ k, k < length sb)%nat (region s) →
  length (region s) = length (region r) →
  NoDup (region r) →
  Forall (λ k, k < length buf)%nat (region r) →
  ∃ buf', complete_recv post w me buf r = Some buf'
          ∧ length buf' = length buf
          ∧ (∀ k, k ∉ region r → buf' !! k = buf !! k)
          ∧ ∀ i k ks, region r !! i = Some k → region s !! i = Some ks →
              buf' !! k = sb !! ks.
Proof.
  intros Hp Hsb Hs Hin Hlen Hnd Hreg.
  destruct (complete_recv_active me buf r s src sb Hp Hsb Hs Hin Hlen)
    as (vs & Hc & Hl & Hget).
  exists (write buf (region r) vs). split; [ exact Hc | ].
  split; [ apply write_length | ].
  split; [ intros k Hk; by apply write_lookup_notin | ].
  intros i k ks Hk Hks.
  rewrite (write_lookup_in buf (region r) vs i k) by done.
  by apply Hget.
Qed.

Lemma recv_step (me : Z) buf (r : xfer) (edge : Prop) `{!Decision edge}
    (src : nat) (sreg : list nat) (size : nat) :
  Forall (λ b, length b = size) w →
  (edge → peer r = PROC_NULL) →
  (¬ edge → ∃ s, peer r = Z.of_nat src ∧ (src < length w)%nat
                 ∧ matching_send (post (peer r)) me (tag r) = Some s
                 ∧ region s = sreg) →
  Forall (λ k, k < size)%nat sreg →
  length sreg = length (region r) →
  NoDup (region r) →
  Forall (λ k, k < length buf)%nat (region r) →
  ∃ buf', complete_recv post w me buf r = Some buf'
          ∧ length buf' = length buf
          ∧ (∀ k, k ∉ region r → buf' !! k = buf !! k)
          ∧ ∀ t k ks, region r !! t = Some k → sreg !! t = Some ks →
              buf' !! k = if decide edge then buf !! k
                          else w !! src ≫= (λ sb, sb !! ks).
Proof.
  intros Hw Hedge Hact Hsreg Hlen Hnd Hreg.
  destruct (decide edge) as [He | Hne].
  - exists buf. split; [ by apply complete_recv_null, Hedge | done ].
  - destruct (Hact Hne) as (s & Hp & Hsrc & Hs & Hrs).
    destruct (lookup_lt_is_Some_2 w src Hsrc) as [sb Hsb].
    assert (length sb = size) as Hlsb
      by (rewrite Forall_lookup in Hw; eapply Hw; eassumption).
    destruct (complete_recv_active_spec me buf r s src sb)
      as (buf' & Hc & Hl & Hout & Hin); try done.
    + rewrite Hrs, Hlsb. exact Hsreg.
    + by rewrite Hrs.
    + exists buf'. split; [ exact Hc | ]. split; [ exact Hl | ].
      split; [ exact Hout | ].
      intros t k ks Hk Hks. rewrite Hsb. simpl. apply (Hin t); [ done | ].
      by rewrite Hrs.
Qed.

Lemma exchange_from_Some (r : nat) (bufs : list (list V)) :
  (∀ k b, bufs !! k = Some b → is_Some (waitall post w (Z.of_nat (r + k)) b)) →
  ∃ w', exchange_from post w r bufs = Some w'
        ∧ length w' = length bufs
        ∧ ∀ k b, bufs !! k = Some b →
            ∃ b', w' !! k = Some b' ∧ waitall post w (Z.of_nat (r + k)) b = Some b'.
Proof.
  revert r. induction bufs as [|b bufs IH]; intros r Hall; simpl.
  - exists []. split; [ done | ]. split; [ done | ]. intros k b Hk. done.
  - destruct (Hall 0%nat b eq_refl) as [b' Hb'].
    rewrite Nat.add_0_r in Hb'. rewrite Hb'. simpl.
    destruct (IH (S r)) as (w' & Hw' & Hlen & Hget).
    { intros k b0 Hk. replace (S r + k)%nat with (r + S k)%nat by lia.
      by apply Hall. }
    rewrite Hw'. simpl. exists (b' :: w'). split; [ done | ].
    split; [ simpl; lia | ].
    intros [|k] b0 Hk; simpl in *.
    + injection Hk as <-. exists b'. by rewrite Nat.add_0_r.
    + destruct (Hget k b0 Hk) as (b0' & ? & ?). exists b0'.
      by replace (r + S k)%nat with (S r + k)%nat by lia.
Qed.

End ExchangeProps.

Lemma neighbours_1d_nw (r n : Z) :
  nw (neighbours_1d r n) = if r =? 0 then PROC_NULL else r - 1.
Proof. unfold neighbours_1d. by destruct (r =? 0), (r =? n - 1). Qed.

Lemma neighbours_1d_ne (r n : Z) :
  ne (neighbours_1d r n) = if r =? n - 1 then PROC_NULL else r + 1.
Proof. unfold neighbours_1d. by destruct (r =? 0), (r =? n - 1). Qed.

Lemma py_index_nonneg (n : nat) (k : Z) : 0 <= k → py_index n k = Z.to_nat k.
Proof. intros. unfold py_index. by destruct (Z.ltb_spec k 0); [ lia | ]. Qed.

Lemma py_index_neg (n : nat) (k : Z) :
  k < 0 → py_index n k = Z.to_nat (Z.of_nat n + k).
Proof. intros. unfold py_index. by destruct (Z.ltb_spec k 0); [ | lia ]. Qed.

Section OneD.
Context {V : Type}.
Variable lR : nat.
Variable w : list (list V).
Hypothesis HlR : (1 ≤ lR)%nat.
Hypothesis Hw : Forall (λ b, length b = (lR + 2)%nat) w.

Let post (r : Z) : posted := jacobi_1d_post lR (neighbours_1d r (Z.of_nat (length w))).

Lemma post_1d_sends (r : Z) :
  sends (post r)
  = [ {| region := [1%nat]; peer := nw (neighbours_1d r (Z.of_nat (length w))); tag := 3 |};
      {| region := [lR]; peer := ne (neighbours_1d r (Z.of_nat (length w))); tag := 2 |} ].
Proof.
  unfold post, jacobi_1d_post. simpl.
  rewrite py_index_nonneg, py_index_neg by lia.
  repeat f_equal; lia.
Qed.

Lemma post_1d_recvs (r : Z) :
  recvs (post r)
  = [ {| region := [0%nat]; peer := nw (neighbours_1d r (Z.of_nat (length w))); tag := 2 |};
      {| region := [(lR + 1)%nat]; peer := ne (neighbours_1d r (Z.of_nat (length w))); tag := 3 |} ].
Proof.
  unfold post, jacobi_1d_post. simpl.
  rewrite py_index_nonneg, py_index_neg by lia.
  repeat f_equal; lia.
Qed.

Lemma west_of (r n : Z) : r ≠ 0 → nw (neighbours_1d r n) = r - 1.
Proof. intros. rewrite neighbours_1d_nw. by destruct (Z.eqb_spec r 0). Qed.

Lemma west_edge (n : Z) : nw (neighbours_1d 0 n) = PROC_NULL.
Proof. by rewrite neighbours_1d_nw. Qed.

Lemma east_of (r n : Z) : r ≠ n - 1 → ne (neighbours_1d r n) = r + 1.
Proof. intros. rewrite neighbours_1d_ne. by destruct (Z.eqb_spec r (n - 1)). Qed.

Lemma east_edge (r n : Z) : r = n - 1 → ne (neighbours_1d r n) = PROC_NULL.
Proof. intros. rewrite neighbours_1d_ne. by destruct (Z.eqb_spec r (n - 1)). Qed.

Lemma sends_complete_1d (r : nat) :
  (r < length w)%nat →
  forallb (send_completes post w (Z.of_nat r)) (sends (post (Z.of_nat r))) = true.
Proof.
  intros Hr. rewrite post_1d_sends. cbn [forallb].
  apply andb_true_iff. split; [ | apply andb_true_iff; split; [ | done ] ].
  - destruct (decide (r = 0%nat)) as [-> | Hne].
    + apply send_completes_null. apply west_edge.
    + apply send_completes_active; cbn [peer tag]; rewrite west_of by lia; [ lia | ].
      unfold has_matching_recv. rewrite post_1d_recvs. cbn [existsb peer tag].
      rewrite (east_of (Z.of_nat r - 1)) by lia.
      replace (Z.of_nat r - 1 + 1 =? Z.of_nat r) with true
        by (symmetry; apply Z.eqb_eq; lia).
      simpl. by rewrite orb_true_r.
  - destruct (decide (S r = length w)) as [He | Hne].
    + apply send_completes_null. apply east_edge. lia.
    + apply send_completes_active; cbn [peer tag]; rewrite east_of by lia; [ lia | ].
      unfold has_matching_recv. rewrite post_1d_recvs. cbn [existsb peer tag].
      rewrite (west_of (Z.of_nat r + 1)) by lia.
      replace (Z.of_nat r + 1 - 1 =? Z.of_nat r) with true
        by (symmetry; apply Z.eqb_eq; lia).
      reflexivity.
Qed.

Lemma matching_send_west (r : nat) :
  r ≠ 0%nat → (r < length w)%nat →
  matching_send (post (Z.of_nat r - 1)) (Z.of_nat r) 2
  = Some {| region := [lR]; peer := Z.of_nat r; tag := 2 |}.
Proof.
  intros Hr Hlt. unfold matching_send. rewrite post_1d_sends.
  rewrite (east_of (Z.of_nat r - 1)) by lia. cbn [find peer tag].
  replace (Z.of_nat r - 1 + 1) with (Z.of_nat r) by lia.
  rewrite Z.eqb_refl. simpl. by rewrite andb_false_r.
Qed.

Lemma matching_send_east (r : nat) :
  (S r < length w)%nat →
  matching_send (post (Z.of_nat r + 1)) (Z.of_nat r) 3
  = Some {| region := [1%nat]; peer := Z.of_nat r; tag := 3 |}.
Proof.
  intros Hlt. unfold matching_send. rewrite post_1d_sends.
  rewrite (west_of (Z.of_nat r + 1)) by lia. cbn [find peer tag].
  replace (Z.of_nat r + 1 - 1) with (Z.of_nat r) by lia.
  by rewrite Z.eqb_refl.
Qed.

Lemma recv_west_1d (r : nat) (b : list V) :
  (r < length w)%nat → length b = (lR + 2)%nat →
  ∃ b', complete_recv post w (Z.of_nat r) b
          {| region := [0%nat]; peer := nw (neighbours_1d (Z.of_nat r) (Z.of_nat (length w)));
             tag := 2 |} = Some b'
        ∧ length b' = length b
        ∧ (∀ k, k ≠ 0%nat → b' !! k = b !! k)
        ∧ b' !! 0%nat = if decide (r = 0%nat) then b !! 0%nat
                        else w !! (r - 1)%nat ≫= (λ wb, wb !! lR).
Proof.
  intros Hr Hb. destruct (decide (r = 0%nat)) as [-> | Hne].
  - exists b. split; [ apply complete_recv_null, west_edge | done ].
  - destruct (lookup_lt_is_Some_2 w (r - 1)%nat) as [sb Hsb]; [ lia | ].
    assert (length sb = (lR + 2)%nat) as Hlsb
      by (rewrite Forall_lookup in Hw; eapply Hw; eassumption).
    edestruct (complete_recv_active_spec post w (Z.of_nat r) b
                 {| region := [0%nat];
                    peer := nw (neighbours_1d (Z.of_nat r) (Z.of_nat (length w)));
                    tag := 2 |}
                 {| region := [lR]; peer := Z.of_nat r; tag := 2 |} (r - 1)%nat sb)
      as (b' & Hc & Hl & Hout & Hin).
    + cbn [peer]. rewrite west_of by lia. lia.
    + exact Hsb.
    + cbn [peer tag]. rewrite west_of by lia. by apply matching_send_west.
    + cbn [region]. apply Forall_singleton. lia.
    + done.
    + cbn [region]. apply NoDup_singleton.
    + cbn [region]. apply Forall_singleton. lia.
    + exists b'. split; [ exact Hc | ]. split; [ exact Hl | ]. split.
      * intros k Hk. apply Hout. cbn [region]. by intros ?%list_elem_of_singleton.
      * rewrite Hsb. simpl. by apply (Hin 0%nat).
Qed.

Lemma recv_east_1d (r : nat) (b : list V) :
  (r < length w)%nat → length b = (lR + 2)%nat →
  ∃ b', complete_recv post w (Z.of_nat r) b
          {| region := [(lR + 1)%nat];
             peer := ne (neighbours_1d (Z.of_nat r) (Z.of_nat (length w)));
             tag := 3 |} = Some b'
        ∧ length b' = length b
        ∧ (∀ k, k ≠ (lR + 1)%nat → b' !! k = b !! k)
        ∧ b' !! (lR + 1)%nat = if decide (S r = length w) then b !! (lR + 1)%nat
                               else w !! S r ≫= (λ eb, eb !! 1%nat).
Proof.
  intros Hr Hb. destruct (decide (S r = length w)) as [He | Hne].
  - exists b. split; [ apply complete_recv_null, east_edge; lia | done ].
  - destruct (lookup_lt_is_Some_2 w (S r)) as [sb Hsb]; [ lia | ].
    assert (length sb = (lR + 2)%nat) as Hlsb
      by (rewrite Forall_lookup in Hw; eapply Hw; eassumption).
    edestruct (complete_recv_active_spec post w (Z.of_nat r) b
                 {| region := [(lR + 1)%nat];
                    peer := ne (neighbours_1d (Z.of_nat r) (Z.of_nat (length w)));
                    tag := 3 |}
                 {| region := [1%nat]; peer := Z.of_nat r; tag := 3 |} (S r) sb)
      as (b' & Hc & Hl & Hout & Hin).
    + cbn [peer]. rewrite east_of by lia. lia.
    + exact Hsb.
    + cbn [peer tag]. rewrite east_of by lia. apply matching_send_east. lia.
    + cbn [region]. apply Forall_singleton. lia.
    + done.
    + cbn [region]. apply NoDup_singleton.
    + cbn [region]. apply Forall_singleton. lia.
    + exists b'. split; [ exact Hc | ]. split; [ exact Hl | ]. split.
      * intros k Hk. apply Hout. cbn [region]. by intros ?%list_elem_of_singleton.
      * rewrite Hsb. simpl. by apply (Hin 0%nat).
Qed.

Lemma waitall_1d (r : nat) (b : list V) :
  w !! r = Some b →
  ∃ b', waitall post w (Z.of_nat r) b = Some b'
        ∧ length b' = (lR + 2)%nat
        ∧ (∀ k, (1 ≤ k ≤ lR)%nat → b' !! k = b !! k)
        ∧ b' !! 0%nat = (if decide (r = 0%nat) then b !! 0%nat
                         else w !! (r - 1)%nat ≫= (λ wb, wb !! lR))
        ∧ b' !! (lR + 1)%nat = (if decide (S r = length w) then b !! (lR + 1)%nat
                                else w !! S r ≫= (λ eb, eb !! 1%nat)).
Proof.
  intros Hb. apply lookup_lt_Some in Hb as Hr.
  assert (length b = (lR + 2)%nat) as Hlb
    by (rewrite Forall_lookup in Hw; eapply Hw; eassumption).
  destruct (recv_west_1d r b Hr Hlb) as (b1 & Hc1 & Hl1 & Hout1 & Hin1).
  destruct (recv_east_1d r b1 Hr ltac:(lia)) as (b2 & Hc2 & Hl2 & Hout2 & Hin2).
  exists b2. unfold waitall. rewrite sends_complete_1d by done.
  rewrite post_1d_recvs. cbn [complete_recvs]. rewrite Hc1. simpl. rewrite Hc2. simpl.
  split; [ done | ]. split; [ lia | ]. split; [ | split ].
  - intros k Hk. rewrite Hout2, Hout1 by lia. done.
  - rewrite Hout2 by lia. exact Hin1.
  - rewrite Hin2. destruct (decide (S r = length w)); [ apply Hout1; lia | done ].
Qed.
End OneD.

Lemma row_slice_length (C i j0 j1 : nat) :
  length (row_slice C i j0 j1) = (j1 - j0)%nat.
Proof. unfold row_slice. by rewrite length_fmap, length_seq. Qed.

Lemma col_slice_length (C j i0 i1 : nat) :
  length (col_slice C j i0 i1) = (i1 - i0)%nat.
Proof. unfold col_slice. by rewrite length_fmap, length_seq. Qed.

Lemma row_slice_lookup (C i j0 j1 t : nat) :
  (t < j1 - j0)%nat → row_slice C i j0 j1 !! t = Some (i * C + (j0 + t))%nat.
Proof.
  intros Ht. unfold row_slice. rewrite list_lookup_fmap, lookup_seq_lt by done. done.
Qed.

Lemma col_slice_lookup (C j i0 i1 t : nat) :
  (t < i1 - i0)%nat → col_slice C j i0 i1 !! t = Some ((i0 + t) * C + j)%nat.
Proof.
  intros Ht. unfold col_slice. rewrite list_lookup_fmap, lookup_seq_lt by done. done.
Qed.

Lemma elem_of_row_slice (C i j0 j1 k : nat) :
  k ∈ row_slice C i j0 j1 ↔ ∃ j, (j0 ≤ j < j1)%nat ∧ k = (i * C + j)%nat.
Proof.
  unfold row_slice. rewrite list_elem_of_fmap. split.
  - intros (j & -> & Hj%elem_of_seq). exists j. split; [ lia | done ].
  - intros (j & Hj & ->). exists j. split; [ done | ]. apply elem_of_seq. lia.
Qed.

Lemma elem_of_col_slice (C j i0 i1 k : nat) :
  k ∈ col_slice C j i0 i1 ↔ ∃ i, (i0 ≤ i < i1)%nat ∧ k = (i * C + j)%nat.
Proof.
  unfold col_slice. rewrite list_elem_of_fmap. split.
  - intros (i & -> & Hi%elem_of_seq). exists i. split; [ lia | done ].
  - intros (i & Hi & ->). exists i. split; [ done | ]. apply elem_of_seq. lia.
Qed.

Lemma row_slice_NoDup (C i j0 j1 : nat) : NoDup (row_slice C i j0 j1).
Proof.
  unfold row_slice. apply NoDup_fmap_2; [ | apply NoDup_seq ].
  intros x y Hxy. lia.
Qed.

Lemma col_slice_NoDup (C j i0 i1 : nat) : (0 < C)%nat → NoDup (col_slice C j i0 i1).
Proof.
  intros HC. unfold col_slice. apply NoDup_fmap_2; [ | apply NoDup_seq ].
  intros x y Hxy. nia.
Qed.

(** Positions [i*C + j] with [j < C] determine [i] and [j]. *)
Lemma cell_inj (C i j i' j' : nat) :
  (j < C)%nat → (j' < C)%nat → (i * C + j = i' * C + j')%nat → i = i' ∧ j = j'.
Proof. intros Hj Hj' H. by apply (Nat.mul_split_l C). Qed.

Lemma cell_lt (R C i j : nat) : (i < R)%nat → (j < C)%nat → (i * C + j < R * C)%nat.
Proof. intros. by apply radix_lt. Qed.

Lemma neighbours_2d_nn (Px Py pi pj : Z) :
  nn (neighbours_2d Px Py pi pj) = if pi =? 0 then PROC_NULL else (pi - 1) * Py + pj.
Proof. unfold neighbours_2d. by destruct (pi =? 0), (pi =? Px - 1), (pj =? 0), (pj =? Py - 1). Qed.

Lemma neighbours_2d_ns (Px Py pi pj : Z) :
  ns (neighbours_2d Px Py pi pj) = if pi =? Px - 1 then PROC_NULL else (pi + 1) * Py + pj.
Proof. unfold neighbours_2d. by destruct (pi =? 0), (pi =? Px - 1), (pj =? 0), (pj =? Py - 1). Qed.

Lemma neighbours_2d_nw (Px Py pi pj : Z) :
  nw (neighbours_2d Px Py pi pj) = if pj =? 0 then PROC_NULL else pi * Py + (pj - 1).
Proof. unfold neighbours_2d. by destruct (pi =? 0), (pi =? Px - 1), (pj =? 0), (pj =? Py - 1). Qed.

Lemma neighbours_2d_ne (Px Py pi pj : Z) :
  ne (neighbours_2d Px Py pi pj) = if pj =? Py - 1 then PROC_NULL else pi * Py + (pj + 1).
Proof. unfold neighbours_2d. by destruct (pi =? 0), (pi =? Px - 1), (pj =? 0), (pj =? Py - 1). Qed.

Lemma coords_of_cell (Py pi pj : Z) :
  0 < Py → 0 ≤ pj < Py → (pi * Py + pj) / Py = pi ∧ (pi * Py + pj) mod Py = pj.
Proof.
  intros HPy Hpj. split.
  - rewrite Z.div_add_l by lia. rewrite Z.div_small by lia. lia.
  - rewrite Z.add_comm, Z_mod_plus_full. by apply Z.mod_small.
Qed.

Lemma py_index_0 (n : nat) : py_index n 0 = 0%nat.
Proof. done. Qed.

Lemma py_index_1 (n : nat) : py_index n 1 = 1%nat.
Proof. done. Qed.

Lemma py_index_m1 (k : nat) : py_index (k + 2) (-1) = (k + 1)%nat.
Proof. rewrite py_index_neg by lia. lia. Qed.

Lemma py_index_m2 (k : nat) : py_index (k + 2) (-2) = k.
Proof. rewrite py_index_neg by lia. lia. Qed.

Lemma matching_send_tag (p : posted) (dst tg : Z) (s : xfer) (pre suf : list xfer) :
  sends p = pre ++ s :: suf →
  Forall (λ x, tag x ≠ tg) pre →
  peer s = dst → tag s = tg →
  matching_send p dst tg = Some s.
Proof.
  intros Hs Hpre Hp Ht. unfold matching_send. rewrite Hs. clear Hs.
  induction Hpre as [|x pre Hx Hpre IH]; simpl.
  - by rewrite Hp, Ht, !Z.eqb_refl.
  - replace (tag x =? tg) with false by (symmetry; by apply Z.eqb_neq).
    by rewrite andb_false_r.
Qed.

Lemma has_matching_recv_intro (p : posted) (src tg : Z) (r : xfer) :
  r ∈ recvs p → peer r = src → tag r = tg → has_matching_recv p src tg = true.
Proof.
  intros Hr Hp Ht. unfold has_matching_recv. apply existsb_exists.
  exists r. split; [ by apply list_elem_of_In | ].
  by rewrite Hp, Ht, !Z.eqb_refl.
Qed.

(** Coordinates of a rank of the grid. *)
Lemma rank_coords (Px Py : Z) (n r : nat) :
  0 < Py → Z.of_nat n = Px * Py → (r < n)%nat →
  0 ≤ Z.of_nat r / Py < Px ∧ 0 ≤ Z.of_nat r mod Py < Py
  ∧ Z.of_nat r = Z.of_nat r / Py * Py + Z.of_nat r mod Py.
Proof.
  intros HPy Hn Hr.
  pose proof (Z.mod_pos_bound (Z.of_nat r) Py HPy) as Hm.
  pose proof (Z.div_mod (Z.of_nat r) Py) as Hd.
  assert (0 ≤ Z.of_nat r / Py) by (apply Z.div_pos; lia).
  assert (Z.of_nat r / Py < Px) by (apply Z.div_lt_upper_bound; lia).
  lia.
Qed.

Section TwoD.
Context {V : Type}.
Variables (Px Py : Z) (lM lN : nat) (w : list (list V)).
Hypothesis HPx : 0 < Px.
Hypothesis HPy : 0 < Py.
Hypothesis Hsize : Z.of_nat (length w) = Px * Py.
Hypothesis HlM : (1 ≤ lM)%nat.
Hypothesis HlN : (1 ≤ lN)%nat.
Hypothesis Hw : Forall (λ b, length b = ((lM + 2) * (lN + 2))%nat) w.

Let C : nat := (lN + 2)%nat.
Let post (r : Z) : posted :=
  jacobi_2d_post lM lN (neighbours_2d Px Py (r / Py) (r mod Py)).

Lemma jacobi_2d_sends (s : stencil) :
  sends (jacobi_2d_post lM lN s)
  = [ {| region := row_slice C 1 1 (lN + 1); peer := nn s; tag := 0 |};
      {| region := row_slice C lM 1 (lN + 1); peer := ns s; tag := 1 |};
      {| region := col_slice C 1 1 (lM + 1); peer := nw s; tag := 2 |};
      {| region := col_slice C lN 1 (lM + 1); peer := ne s; tag := 3 |} ].
Proof.
  unfold jacobi_2d_post, C. cbn [sends].
  by rewrite ?py_index_0, ?py_index_1, ?py_index_m1, ?py_index_m2.
Qed.

Lemma jacobi_2d_recvs (s : stencil) :
  recvs (jacobi_2d_post lM lN s)
  = [ {| region := row_slice C 0 1 (lN + 1); peer := nn s; tag := 1 |};
      {| region := row_slice C (lM + 1) 1 (lN + 1); peer := ns s; tag := 0 |};
      {| region := col_slice C 0 1 (lM + 1); peer := nw s; tag := 3 |};
      {| region := col_slice C (lN + 1) 1 (lM + 1); peer := ne s; tag := 2 |} ].
Proof.
  unfold jacobi_2d_post, C. cbn [recvs].
  by rewrite ?py_index_0, ?py_index_1, ?py_index_m1, ?py_index_m2.
Qed.

Lemma post_cell (a b : Z) :
  0 ≤ b < Py → post (a * Py + b) = jacobi_2d_post lM lN (neighbours_2d Px Py a b).
Proof.
  intros Hb. unfold post.
  by destruct (coords_of_cell Py a b HPy Hb) as [-> ->].
Qed.

(** The four sends of the cell [(a, b)] are matched. *)
Lemma sends_complete_2d (a b : Z) :
  0 ≤ a < Px → 0 ≤ b < Py →
  forallb (send_completes post w (a * Py + b)) (sends (post (a * Py + b))) = true.
Proof.
  intros Ha Hb. rewrite post_cell, jacobi_2d_sends by done. cbn [forallb].
  repeat (apply andb_true_iff; split); [ | | | | done ].
  - destruct (decide (a = 0)) as [-> | Hne].
    + apply send_completes_null. cbn [peer]. by rewrite neighbours_2d_nn.
    + assert (nn (neighbours_2d Px Py a b) = (a - 1) * Py + b) as Hp
        by (rewrite neighbours_2d_nn; by destruct (Z.eqb_spec a 0)).
      apply send_completes_active; cbn [peer tag]; rewrite Hp; [ nia | ].
      rewrite post_cell by done.
      eapply has_matching_recv_intro;
        [ rewrite jacobi_2d_recvs; apply list_elem_of_lookup_2 with 1%nat; done | | done ].
      cbn [peer]. rewrite neighbours_2d_ns.
      destruct (Z.eqb_spec (a - 1) (Px - 1)); lia.
  - destruct (decide (a = Px - 1)) as [-> | Hne].
    + apply send_completes_null. cbn [peer]. rewrite neighbours_2d_ns.
      by rewrite Z.eqb_refl.
    + assert (ns (neighbours_2d Px Py a b) = (a + 1) * Py + b) as Hp
        by (rewrite neighbours_2d_ns; by destruct (Z.eqb_spec a (Px - 1))).
      apply send_completes_active; cbn [peer tag]; rewrite Hp; [ nia | ].
      rewrite post_cell by done.
      eapply has_matching_recv_intro;
        [ rewrite jacobi_2d_recvs; apply list_elem_of_lookup_2 with 0%nat; done | | done ].
      cbn [peer]. rewrite neighbours_2d_nn.
      destruct (Z.eqb_spec (a + 1) 0); lia.
  - destruct (decide (b = 0)) as [-> | Hne].
    + apply send_completes_null. cbn [peer]. by rewrite neighbours_2d_nw.
    + assert (nw (neighbours_2d Px Py a b) = a * Py + (b - 1)) as Hp
        by (rewrite neighbours_2d_nw; by destruct (Z.eqb_spec b 0)).
      apply send_completes_active; cbn [peer tag]; rewrite Hp; [ nia | ].
      rewrite post_cell by lia.
      eapply has_matching_recv_intro;
        [ rewrite jacobi_2d_recvs; apply list_elem_of_lookup_2 with 3%nat; done | | done ].
      cbn [peer]. rewrite neighbours_2d_ne.
      destruct (Z.eqb_spec (b - 1) (Py - 1)); lia.
  - destruct (decide (b = Py - 1)) as [-> | Hne].
    + apply send_completes_null. cbn [peer]. rewrite neighbours_2d_ne.
      by rewrite Z.eqb_refl.
    + assert (ne (neighbours_2d Px Py a b) = a * Py + (b + 1)) as Hp
        by (rewrite neighbours_2d_ne; by destruct (Z.eqb_spec b (Py - 1))).
      apply send_completes_active; cbn [peer tag]; rewrite Hp; [ nia | ].
      rewrite post_cell by lia.
      eapply has_matching_recv_intro;
        [ rewrite jacobi_2d_recvs; apply list_elem_of_lookup_2 with 2%nat; done | | done ].
      cbn [peer]. rewrite neighbours_2d_nw.
      destruct (Z.eqb_spec (b + 1) 0); lia.
Qed.

Lemma row_slice_bound (i : nat) :
  (i < lM + 2)%nat →
  Forall (λ k, k < (lM + 2) * (lN + 2))%nat (row_slice C i 1 (lN + 1)).
Proof.
  intros Hi. apply Forall_forall. intros k (j & Hj & ->)%elem_of_row_slice.
  apply cell_lt; unfold C; lia.
Qed.

Lemma col_slice_bound (j : nat) :
  (j < lN + 2)%nat →
  Forall (λ k, k < (lM + 2) * (lN + 2))%nat (col_slice C j 1 (lM + 1)).
Proof.
  intros Hj. apply Forall_forall. intros k (i & Hi & ->)%elem_of_col_slice.
  apply cell_lt; unfold C; lia.
Qed.

Lemma recv_north (a b : Z) (buf : list V) :
  0 ≤ a < Px → 0 ≤ b < Py → length buf = ((lM + 2) * (lN + 2))%nat →
  ∃ buf', complete_recv post w (a * Py + b) buf
            {| region := row_slice C 0 1 (lN + 1);
               peer := nn (neighbours_2d Px Py a b); tag := 1 |} = Some buf'
          ∧ length buf' = length buf
          ∧ (∀ k, k ∉ row_slice C 0 1 (lN + 1) → buf' !! k = buf !! k)
          ∧ ∀ j, (1 ≤ j ≤ lN)%nat →
              buf' !! (0 * C + j)%nat
              = if decide (a = 0) then buf !! (0 * C + j)%nat
                else w !! Z.to_nat ((a - 1) * Py + b) ≫= (λ sb, sb !! (lM * C + j)%nat).
Proof.
  intros Ha Hb Hbuf.
  edestruct (recv_step post w (a * Py + b) buf
               {| region := row_slice C 0 1 (lN + 1);
                  peer := nn (neighbours_2d Px Py a b); tag := 1 |}
               (a = 0) (Z.to_nat ((a - 1) * Py + b)) (row_slice C lM 1 (lN + 1))
               ((lM + 2) * (lN + 2))%nat Hw)
    as (buf' & Hc & Hl & Hout & Hin).
  - intros ->. cbn [peer]. by rewrite neighbours_2d_nn.
  - intros Hne. cbn [peer tag].
    assert (nn (neighbours_2d Px Py a b) = (a - 1) * Py + b) as Hp
      by (rewrite neighbours_2d_nn; by destruct (Z.eqb_spec a 0)).
    rewrite Hp. eexists. split; [ rewrite Z2Nat.id; [ done | nia ] | ].
    split; [ nia | ]. split.
    { rewrite post_cell by done.
      eapply (matching_send_tag _ _ _ _ [_] [_; _]);
        [ rewrite jacobi_2d_sends; reflexivity | by repeat constructor | | done ].
      cbn [peer]. rewrite neighbours_2d_ns.
      destruct (Z.eqb_spec (a - 1) (Px - 1)); lia. }
    reflexivity.
  - apply row_slice_bound. lia.
  - cbn [region]. by rewrite !row_slice_length.
  - cbn [region]. apply row_slice_NoDup.
  - cbn [region]. rewrite Hbuf. apply row_slice_bound. lia.
  - exists buf'. split; [ exact Hc | ]. split; [ exact Hl | ]. split; [ exact Hout | ].
    intros j Hj. apply (Hin (j - 1)%nat); cbn [region];
      rewrite row_slice_lookup by lia; do 2 f_equal; lia.
Qed.

Lemma recv_south (a b : Z) (buf : list V) :
  0 ≤ a < Px → 0 ≤ b < Py → length buf = ((lM + 2) * (lN + 2))%nat →
  ∃ buf', complete_recv post w (a * Py + b) buf
            {| region := row_slice C (lM + 1) 1 (lN + 1);
               peer := ns (neighbours_2d Px Py a b); tag := 0 |} = Some buf'
          ∧ length buf' = length buf
          ∧ (∀ k, k ∉ row_slice C (lM + 1) 1 (lN + 1) → buf' !! k = buf !! k)
          ∧ ∀ j, (1 ≤ j ≤ lN)%nat →
              buf' !! ((lM + 1) * C + j)%nat
              = if decide (a = Px - 1) then buf !! ((lM + 1) * C + j)%nat
                else w !! Z.to_nat ((a + 1) * Py + b) ≫= (λ sb, sb !! (1 * C + j)%nat).
Proof.
  intros Ha Hb Hbuf.
  edestruct (recv_step post w (a * Py + b) buf
               {| region := row_slice C (lM + 1) 1 (lN + 1);
                  peer := ns (neighbours_2d Px Py a b); tag := 0 |}
               (a = Px - 1) (Z.to_nat ((a + 1) * Py + b)) (row_slice C 1 1 (lN + 1))
               ((lM + 2) * (lN + 2))%nat Hw)
    as (buf' & Hc & Hl & Hout & Hin).
  - intros ->. cbn [peer]. rewrite neighbours_2d_ns. by rewrite Z.eqb_refl.
  - intros Hne. cbn [peer tag].
    assert (ns (neighbours_2d Px Py a b) = (a + 1) * Py + b) as Hp
      by (rewrite neighbours_2d_ns; by destruct (Z.eqb_spec a (Px - 1))).
    rewrite Hp. eexists. split; [ rewrite Z2Nat.id; [ done | nia ] | ].
    split; [ nia | ]. split.
    { rewrite post_cell by done.
      eapply (matching_send_tag _ _ _ _ [] [_; _; _]);
        [ rewrite jacobi_2d_sends; reflexivity | by repeat constructor | | done ].
      cbn [peer]. rewrite neighbours_2d_nn.
      destruct (Z.eqb_spec (a + 1) 0); lia. }
    reflexivity.
  - apply row_slice_bound. lia.
  - cbn [region]. by rewrite !row_slice_length.
  - cbn [region]. apply row_slice_NoDup.
  - cbn [region]. rewrite Hbuf. apply row_slice_bound. lia.
  - exists buf'. split; [ exact Hc | ]. split; [ exact Hl | ]. split; [ exact Hout | ].
    intros j Hj. apply (Hin (j - 1)%nat); cbn [region];
      rewrite row_slice_lookup by lia; do 2 f_equal; lia.
Qed.

Lemma recv_west (a b : Z) (buf : list V) :
  0 ≤ a < Px → 0 ≤ b < Py → length buf = ((lM + 2) * (lN + 2))%nat →
  ∃ buf', complete_recv post w (a * Py + b) buf
            {| region := col_slice C 0 1 (lM + 1);
               peer := nw (neighbours_2d Px Py a b); tag := 3 |} = Some buf'
          ∧ length buf' = length buf
          ∧ (∀ k, k ∉ col_slice C 0 1 (lM + 1) → buf' !! k = buf !! k)
          ∧ ∀ i, (1 ≤ i ≤ lM)%nat →
              buf' !! (i * C + 0)%nat
              = if decide (b = 0) then buf !! (i * C + 0)%nat
                else w !! Z.to_nat (a * Py + (b - 1)) ≫= (λ sb, sb !! (i * C + lN)%nat).
Proof.
  intros Ha Hb Hbuf.
  edestruct (recv_step post w (a * Py + b) buf
               {| region := col_slice C 0 1 (lM + 1);
                  peer := nw (neighbours_2d Px Py a b); tag := 3 |}
               (b = 0) (Z.to_nat (a * Py + (b - 1))) (col_slice C lN 1 (lM + 1))
               ((lM + 2) * (lN + 2))%nat Hw)
    as (buf' & Hc & Hl & Hout & Hin).
  - intros ->. cbn [peer]. by rewrite neighbours_2d_nw.
  - intros Hne. cbn [peer tag].
    assert (nw (neighbours_2d Px Py a b) = a * Py + (b - 1)) as Hp
      by (rewrite neighbours_2d_nw; by destruct (Z.eqb_spec b 0)).
    rewrite Hp. eexists. split; [ rewrite Z2Nat.id; [ done | nia ] | ].
    split; [ nia | ]. split.
    { rewrite post_cell by lia.
      eapply (matching_send_tag _ _ _ _ [_; _; _] []);
        [ rewrite jacobi_2d_sends; reflexivity | by repeat constructor | | done ].
      cbn [peer]. rewrite neighbours_2d_ne.
      destruct (Z.eqb_spec (b - 1) (Py - 1)); lia. }
    reflexivity.
  - apply col_slice_bound. lia.
  - cbn [region]. by rewrite !col_slice_length.
  - cbn [region]. apply col_slice_NoDup. unfold C. lia.
  - cbn [region]. rewrite Hbuf. apply col_slice_bound. lia.
  - exists buf'. split; [ exact Hc | ]. split; [ exact Hl | ]. split; [ exact Hout | ].
    intros i Hi. apply (Hin (i - 1)%nat); cbn [region];
      rewrite col_slice_lookup by lia;
      by replace (1 + (i - 1))%nat with i by lia.
Qed.

Lemma recv_east (a b : Z) (buf : list V) :
  0 ≤ a < Px → 0 ≤ b < Py → length buf = ((lM + 2) * (lN + 2))%nat →
  ∃ buf', complete_recv post w (a * Py + b) buf
            {| region := col_slice C (lN + 1) 1 (lM + 1);
               peer := ne (neighbours_2d Px Py a b); tag := 2 |} = Some buf'
          ∧ length buf' = length buf
          ∧ (∀ k, k ∉ col_slice C (lN + 1) 1 (lM + 1) → buf' !! k = buf !! k)
          ∧ ∀ i, (1 ≤ i ≤ lM)%nat →
              buf' !! (i * C + (lN + 1))%nat
              = if decide (b = Py - 1) then buf !! (i * C + (lN + 1))%nat
                else w !! Z.to_nat (a * Py + (b + 1)) ≫= (λ sb, sb !! (i * C + 1)%nat).
Proof.
  intros Ha Hb Hbuf.
  edestruct (recv_step post w (a * Py + b) buf
               {| region := col_slice C (lN + 1) 1 (lM + 1);
                  peer := ne (neighbours_2d Px Py a b); tag := 2 |}
               (b = Py - 1) (Z.to_nat (a * Py + (b + 1))) (col_slice C 1 1 (lM + 1))
               ((lM + 2) * (lN + 2))%nat Hw)
    as (buf' & Hc & Hl & Hout & Hin).
  - intros ->. cbn [peer]. rewrite neighbours_2d_ne. by rewrite Z.eqb_refl.
  - intros Hne. cbn [peer tag].
    assert (ne (neighbours_2d Px Py a b) = a * Py + (b + 1)) as Hp
      by (rewrite neighbours_2d_ne; by destruct (Z.eqb_spec b (Py - 1))).
    rewrite Hp. eexists. split; [ rewrite Z2Nat.id; [ done | nia ] | ].
    split; [ nia | ]. split.
    { rewrite post_cell by lia.
      eapply (matching_send_tag _ _ _ _ [_; _] [_]);
        [ rewrite jacobi_2d_sends; reflexivity | by repeat constructor | | done ].
      cbn [peer]. rewrite neighbours_2d_nw.
      destruct (Z.eqb_spec (b + 1) 0); lia. }
    reflexivity.
  - apply col_slice_bound. lia.
  - cbn [region]. by rewrite !col_slice_length.
  - cbn [region]. apply col_slice_NoDup. unfold C. lia.
  - cbn [region]. rewrite Hbuf. apply col_slice_bound. lia.
  - exists buf'. split; [ exact Hc | ]. split; [ exact Hl | ]. split; [ exact Hout | ].
    intros i Hi. apply (Hin (i - 1)%nat); cbn [region];
      rewrite col_slice_lookup by lia;
      by replace (1 + (i - 1))%nat with i by lia.
Qed.

Lemma cell_in_row (i j i' : nat) :
  (j < C)%nat → (i * C + j)%nat ∈ row_slice C i' 1 (lN + 1) →
  i = i' ∧ (1 ≤ j ≤ lN)%nat.
Proof.
  intros Hj (j' & Hj' & He)%elem_of_row_slice.
  apply cell_inj in He as [-> ->]; [ lia | done | unfold C; lia ].
Qed.

Lemma cell_in_col (i j j' : nat) :
  (j < C)%nat → (j' < C)%nat → (i * C + j)%nat ∈ col_slice C j' 1 (lM + 1) →
  j = j' ∧ (1 ≤ i ≤ lM)%nat.
Proof.
  intros Hj Hj' (i' & Hi' & He)%elem_of_col_slice.
  apply cell_inj in He as [-> ->]; [ lia | done | done ].
Qed.

Lemma waitall_2d (a b : Z) (buf : list V) :
  0 ≤ a < Px → 0 ≤ b < Py → length buf = ((lM + 2) * (lN + 2))%nat →
  ∃ buf', waitall post w (a * Py + b) buf = Some buf'
    ∧ length buf' = ((lM + 2) * (lN + 2))%nat
    ∧ (∀ i j, (1 ≤ i ≤ lM)%nat → (1 ≤ j ≤ lN)%nat →
         buf' !! (i * C + j)%nat = buf !! (i * C + j)%nat)
    ∧ (∀ j, (1 ≤ j ≤ lN)%nat →
         buf' !! (0 * C + j)%nat
         = if decide (a = 0) then buf !! (0 * C + j)%nat
           else w !! Z.to_nat ((a - 1) * Py + b) ≫= (λ sb, sb !! (lM * C + j)%nat))
    ∧ (∀ j, (1 ≤ j ≤ lN)%nat →
         buf' !! ((lM + 1) * C + j)%nat
         = if decide (a = Px - 1) then buf !! ((lM + 1) * C + j)%nat
           else w !! Z.to_nat ((a + 1) * Py + b) ≫= (λ sb, sb !! (1 * C + j)%nat))
    ∧ (∀ i, (1 ≤ i ≤ lM)%nat →
         buf' !! (i * C + 0)%nat
         = if decide (b = 0) then buf !! (i * C + 0)%nat
           else w !! Z.to_nat (a * Py + (b - 1)) ≫= (λ sb, sb !! (i * C + lN)%nat))
    ∧ (∀ i, (1 ≤ i ≤ lM)%nat →
         buf' !! (i * C + (lN + 1))%nat
         = if decide (b = Py - 1) then buf !! (i * C + (lN + 1))%nat
           else w !! Z.to_nat (a * Py + (b + 1)) ≫= (λ sb, sb !! (i * C + 1)%nat)).
Proof.
  intros Ha Hb Hbuf.
  destruct (recv_north a b buf Ha Hb Hbuf) as (b1 & Hc1 & Hl1 & Hout1 & Hin1).
  destruct (recv_south a b b1 Ha Hb ltac:(congruence)) as (b2 & Hc2 & Hl2 & Hout2 & Hin2).
  destruct (recv_west a b b2 Ha Hb ltac:(congruence)) as (b3 & Hc3 & Hl3 & Hout3 & Hin3).
  destruct (recv_east a b b3 Ha Hb ltac:(congruence)) as (b4 & Hc4 & Hl4 & Hout4 & Hin4).
  assert (∀ i j i', (j < C)%nat → ¬ (i = i' ∧ (1 ≤ j ≤ lN)%nat) →
            (i * C + j)%nat ∉ row_slice C i' 1 (lN + 1)) as Hrow
    by (intros i j i' Hj Hn Hin; by apply cell_in_row in Hin).
  assert (∀ i j j', (j < C)%nat → (j' < C)%nat → ¬ (j = j' ∧ (1 ≤ i ≤ lM)%nat) →
            (i * C + j)%nat ∉ col_slice C j' 1 (lM + 1)) as Hcol
    by (intros i j j' Hj Hj' Hn Hin; by apply cell_in_col in Hin).
  assert (C = (lN + 2)%nat) as HC by done.
  exists b4. unfold waitall. rewrite sends_complete_2d by done.
  rewrite post_cell, jacobi_2d_recvs by done. cbn [complete_recvs].
  rewrite Hc1. simpl. rewrite Hc2. simpl. rewrite Hc3. simpl. rewrite Hc4. simpl.
  split; [ done | ]. split; [ congruence | ].
  split; [ | split; [ | split; [ | split ] ] ].
  - intros i j Hi Hj.
    rewrite Hout4, Hout3, Hout2, Hout1;
      first [ done | apply Hrow; lia | apply Hcol; lia ].
  - intros j Hj.
    rewrite Hout4, Hout3, Hout2;
      first [ by apply Hin1 | apply (Hrow 0%nat j); lia | apply (Hcol 0%nat j); lia ].
  - intros j Hj.
    rewrite Hout4, Hout3 by (apply Hcol; lia).
    rewrite Hin2 by done. destruct (decide (a = Px - 1)); [ | done ].
    apply Hout1. apply Hrow; lia.
  - intros i Hi.
    rewrite Hout4 by (apply Hcol; lia).
    rewrite Hin3 by done. destruct (decide (b = 0)); [ | done ].
    rewrite Hout2, Hout1 by (apply Hrow; lia). done.
  - intros i Hi.
    rewrite Hin4 by done. destruct (decide (b = Py - 1)); [ | done ].
    rewrite Hout3 by (apply Hcol; lia).
    rewrite Hout2, Hout1 by (apply Hrow; lia). done.
Qed.
End TwoD.

Section Rounds.
Context {V : Type}.

Lemma jacobi_1d_round_spec (lR : nat) (w : list (list V)) :
  (1 ≤ lR)%nat →
  Forall (λ b, length b = (lR + 2)%nat) w →
  ∃ w', jacobi_1d_round lR w = Some w'
    ∧ length w' = length w
    ∧ ∀ (r : nat) (b : list V), w !! r = Some b →
        ∃ b', w' !! r = Some b'
          ∧ length b' = (lR + 2)%nat
          ∧ (∀ k, (1 ≤ k ≤ lR)%nat → b' !! k = b !! k)
          ∧ b' !! 0%nat = (if decide (r = 0%nat) then b !! 0%nat
                           else w !! (r - 1)%nat ≫= (λ wb, wb !! lR))
          ∧ b' !! (lR + 1)%nat
            = (if decide (S r = length w) then b !! (lR + 1)%nat
               else w !! S r ≫= (λ eb, eb !! 1%nat)).
Proof.
  intros HlR Hw. unfold jacobi_1d_round, exchange.
  edestruct (exchange_from_Some
               (λ r, jacobi_1d_post lR (neighbours_1d r (Z.of_nat (length w)))) w 0 w)
    as (w' & Hw' & Hlen & Hget).
  { intros k b Hb. destruct (waitall_1d lR w HlR Hw k b Hb) as (b' & Hb' & _).
    by exists b'. }
  exists w'. split; [ exact Hw' | ]. split; [ exact Hlen | ].
  intros r b Hb. destruct (Hget r b Hb) as (b' & Hr & Hwait).
  destruct (waitall_1d lR w HlR Hw r b Hb) as (b'' & Hb'' & Hprops).
  simpl in Hwait. rewrite Hwait in Hb''. injection Hb'' as <-.
  by exists b'.
Qed.

Lemma jacobi_2d_round_spec (Px Py : Z) (lM lN : nat) (w : list (list V)) :
  0 < Px → 0 < Py → Z.of_nat (length w) = Px * Py →
  (1 ≤ lM)%nat → (1 ≤ lN)%nat →
  Forall (λ b, length b = ((lM + 2) * (lN + 2))%nat) w →
  ∃ w', jacobi_2d_round Px Py lM lN w = Some w'
    ∧ length w' = length w
    ∧ ∀ (r : nat) (buf : list V), w !! r = Some buf →
        let pi := Z.of_nat r / Py in
        let pj := Z.of_nat r mod Py in
        let C := (lN + 2)%nat in
        ∃ buf', w' !! r = Some buf'
          ∧ length buf' = ((lM + 2) * (lN + 2))%nat
          ∧ (∀ i j, (1 ≤ i ≤ lM)%nat → (1 ≤ j ≤ lN)%nat →
               buf' !! (i * C + j)%nat = buf !! (i * C + j)%nat)
          ∧ (∀ j, (1 ≤ j ≤ lN)%nat →
               buf' !! (0 * C + j)%nat
               = if decide (pi = 0) then buf !! (0 * C + j)%nat
                 else w !! Z.to_nat ((pi - 1) * Py + pj)
                      ≫= (λ sb, sb !! (lM * C + j)%nat))
          ∧ (∀ j, (1 ≤ j ≤ lN)%nat →
               buf' !! ((lM + 1) * C + j)%nat
               = if decide (pi = Px - 1) then buf !! ((lM + 1) * C + j)%nat
                 else w !! Z.to_nat ((pi + 1) * Py + pj)
                      ≫= (λ sb, sb !! (1 * C + j)%nat))
          ∧ (∀ i, (1 ≤ i ≤ lM)%nat →
               buf' !! (i * C + 0)%nat
               = if decide (pj = 0) then buf !! (i * C + 0)%nat
                 else w !! Z.to_nat (pi * Py + (pj - 1))
                      ≫= (λ sb, sb !! (i * C + lN)%nat))
          ∧ (∀ i, (1 ≤ i ≤ lM)%nat →
               buf' !! (i * C + (lN + 1))%nat
               = if decide (pj = Py - 1) then buf !! (i * C + (lN + 1))%nat
                 else w !! Z.to_nat (pi * Py + (pj + 1))
                      ≫= (λ sb, sb !! (i * C + 1)%nat)).
Proof.
  intros HPx HPy Hsize HlM HlN Hw. unfold jacobi_2d_round, exchange.
  assert (∀ (r : nat) (buf : list V), w !! r = Some buf →
            0 ≤ Z.of_nat r / Py < Px ∧ 0 ≤ Z.of_nat r mod Py < Py
            ∧ Z.of_nat r = Z.of_nat r / Py * Py + Z.of_nat r mod Py
            ∧ length buf = ((lM + 2) * (lN + 2))%nat) as Hcell.
  { intros r buf Hb. apply lookup_lt_Some in Hb as Hr.
    destruct (rank_coords Px Py (length w) r HPy Hsize Hr) as (? & ? & ?).
    repeat split; try lia. rewrite Forall_lookup in Hw. by eapply Hw. }
  edestruct (exchange_from_Some
               (λ r, jacobi_2d_post lM lN (neighbours_2d Px Py (r / Py) (r mod Py)))
               w 0 w) as (w' & Hw' & Hlen & Hget).
  { intros k b Hb. destruct (Hcell k b Hb) as (Ha & Hb' & He & Hl).
    simpl. rewrite He.
    destruct (waitall_2d Px Py lM lN w HPx HPy Hsize HlM HlN Hw _ _ b Ha Hb' Hl)
      as (b' & Hwait & _).
    by exists b'. }
  exists w'. split; [ exact Hw' | ]. split; [ exact Hlen | ].
  intros r buf Hb. cbv zeta. destruct (Hget r buf Hb) as (buf' & Hr & Hwait).
  destruct (Hcell r buf Hb) as (Ha & Hb' & He & Hl).
  destruct (waitall_2d Px Py lM lN w HPx HPy Hsize HlM HlN Hw _ _ buf Ha Hb' Hl)
    as (buf'' & Hwait' & Hprops).
  simpl in Hwait. rewrite He in Hwait. rewrite Hwait in Hwait'.
  injection Hwait' as <-. by exists buf'.
Qed.

End Rounds.

(** C1. After the [Waitall] of one exchange round every stencil process
    holds, in the ghost cells of each side that has a neighbour, that
    neighbour's boundary-adjacent interior elements; on a grid edge the
    ghost cells are untouched, and the interior never changes.  This holds
    for the 1-D stencil on any number of ranks and for the 2-D stencil on
    any grid; in particular, with 4 ranks and local length 4 (buffers of
    length 6), [A[0]] of rank 1 becomes [A[4]] of rank 0 and [A[0]] of rank 0
    stays as it was. *)
Theorem halo_exchange_correct :
  ∀ V : Type,
    (∀ (lR : nat) (w : list (list V)),
       (1 ≤ lR)%nat →
       Forall (λ b, length b = (lR + 2)%nat) w →
       ∃ w', jacobi_1d_round lR w = Some w'
         ∧ length w' = length w
         ∧ ∀ (r : nat) (b : list V), w !! r = Some b →
             ∃ b', w' !! r = Some b'
               ∧ length b' = (lR + 2)%nat
               ∧ (∀ k, (1 ≤ k ≤ lR)%nat → b' !! k = b !! k)
               ∧ b' !! 0%nat = (if decide (r = 0%nat) then b !! 0%nat
                                else w !! (r - 1)%nat ≫= (λ wb, wb !! lR))
               ∧ b' !! (lR + 1)%nat
                 = (if decide (S r = length w) then b !! (lR + 1)%nat
                    else w !! S r ≫= (λ eb, eb !! 1%nat)))
    ∧ (∀ (Px Py : Z) (lM lN : nat) (w : list (list V)),
         0 < Px → 0 < Py → Z.of_nat (length w) = Px * Py →
         (1 ≤ lM)%nat → (1 ≤ lN)%nat →
         Forall (λ b, length b = ((lM + 2) * (lN + 2))%nat) w →
         ∃ w', jacobi_2d_round Px Py lM lN w = Some w'
           ∧ length w' = length w
           ∧ ∀ (r : nat) (buf : list V), w !! r = Some buf →
               let pi := Z.of_nat r / Py in
               let pj := Z.of_nat r mod Py in
               let C := (lN + 2)%nat in
               ∃ buf', w' !! r = Some buf'
                 ∧ length buf' = ((lM + 2) * (lN + 2))%nat
                 ∧ (∀ i j, (1 ≤ i ≤ lM)%nat → (1 ≤ j ≤ lN)%nat →
                      buf' !! (i * C + j)%nat = buf !! (i * C + j)%nat)
                 ∧ (∀ j, (1 ≤ j ≤ lN)%nat →
                      buf' !! (0 * C + j)%nat
                      = if decide (pi = 0) then buf !! (0 * C + j)%nat
                        else w !! Z.to_nat ((pi - 1) * Py + pj)
                             ≫= (λ sb, sb !! (lM * C + j)%nat))
                 ∧ (∀ j, (1 ≤ j ≤ lN)%nat →
                      buf' !! ((lM + 1) * C + j)%nat
                      = if decide (pi = Px - 1) then buf !! ((lM + 1) * C + j)%nat
                        else w !! Z.to_nat ((pi + 1) * Py + pj)
                             ≫= (λ sb, sb !! (1 * C + j)%nat))
                 ∧ (∀ i, (1 ≤ i ≤ lM)%nat →
                      buf' !! (i * C + 0)%nat
                      = if decide (pj = 0) then buf !! (i * C + 0)%nat
                        else w !! Z.to_nat (pi * Py + (pj - 1))
                             ≫= (λ sb, sb !! (i * C + lN)%nat))
                 ∧ (∀ i, (1 ≤ i ≤ lM)%nat →
                      buf' !! (i * C + (lN + 1))%nat
                      = if decide (pj = Py - 1) then buf !! (i * C + (lN + 1))%nat
                        else w !! Z.to_nat (pi * Py + (pj + 1))
                             ≫= (λ sb, sb !! (i * C + 1)%nat)))
    ∧ (∀ w : list (list V),
         length w = 4%nat →
         Forall (λ b, length b = 6%nat) w →
         ∃ w', jacobi_1d_round 4 w = Some w'
           ∧ is_Some (w !! 0%nat ≫= (λ b, b !! 4%nat))
           ∧ w' !! 1%nat ≫= (λ b, b !! 0%nat) = w !! 0%nat ≫= (λ b, b !! 4%nat)
           ∧ w' !! 0%nat ≫= (λ b, b !! 0%nat) = w !! 0%nat ≫= (λ b, b !! 0%nat)).
Proof.
  intros V. split; [ apply jacobi_1d_round_spec | ].
  split; [ apply jacobi_2d_round_spec | ].
  intros w Hlen Hw.
  destruct (jacobi_1d_round_spec 4 w ltac:(lia) Hw) as (w' & Hround & _ & Hget).
  exists w'. split; [ exact Hround | ].
  destruct w as [|b0 [|b1 w]]; try discriminate Hlen.
  destruct (Hget 0%nat b0 eq_refl) as (b0' & H0 & _ & _ & Hw0 & _).
  destruct (Hget 1%nat b1 eq_refl) as (b1' & H1 & _ & _ & Hw1 & _).
  rewrite H0, H1. simpl in *. split; [ | split; [ exact Hw1 | exact Hw0 ] ].
  apply lookup_lt_is_Some. apply Forall_cons in Hw as [-> _]. lia.
Qed.

Lemma halo_exchange_correct_witness :
  ∃ w', jacobi_1d_round 4
          [[10; 11; 12; 13; 14; 15]; [20; 21; 22; 23; 24; 25];
           [30; 31; 32; 33; 34; 35]; [40; 41; 42; 43; 44; 45]] = Some w'
    ∧ is_Some ([[10; 11; 12; 13; 14; 15]; [20; 21; 22; 23; 24; 25];
                [30; 31; 32; 33; 34; 35]; [40; 41; 42; 43; 44; 45]] !! 0%nat
               ≫= (λ b, b !! 4%nat))
    ∧ w' !! 1%nat ≫= (λ b, b !! 0%nat)
      = [[10; 11; 12; 13; 14; 15]; [20; 21; 22; 23; 24; 25];
         [30; 31; 32; 33; 34; 35]; [40; 41; 42; 43; 44; 45]] !! 0%nat
        ≫= (λ b, b !! 4%nat)
    ∧ w' !! 0%nat ≫= (λ b, b !! 0%nat)
      = [[10; 11; 12; 13; 14; 15]; [20; 21; 22; 23; 24; 25];
         [30; 31; 32; 33; 34; 35]; [40; 41; 42; 43; 44; 45]] !! 0%nat
        ≫= (λ b, b !! 0%nat).
Proof.
  destruct (halo_exchange_correct Z) as (_ & _ & H).
  apply H; [ reflexivity | repeat constructor ].
Defined.

(** ** Block-local initializers *)

Import Init.

Lemma bind_seqZ_lookup {A : Type} (g : Z → list A) (m : nat) (n i : Z) (r : nat) :
  (∀ k, length (g k) = m) → 0 ≤ i < n → (r < m)%nat →
  (seqZ 0 n ≫= g) !! (Z.to_nat i * m + r)%nat = g i !! r.
Proof.
  intros Hg Hi Hr. unfold seqZ. rewrite list_fmap_bind.
  rewrite (bind_seq_lookup _ m); [ | intros; apply Hg | lia | done ].
  simpl. do 2 f_equal. lia.
Qed.

Lemma get2_fromfunction2 (f : Z → Z → Q) (n0 n1 i j : Z) :
  0 ≤ i < n0 → 0 ≤ j < n1 →
  get2 (fromfunction2 f n0 n1) i j = Some (f i j).
Proof.
  intros Hi Hj. unfold get2, fromfunction2. cbn [shape data].
  rewrite bool_decide_true by done.
  replace (Z.to_nat (i * n1 + j))
    with (Z.to_nat i * Z.to_nat n1 + Z.to_nat j)%nat by nia.
  rewrite (bind_seqZ_lookup _ (Z.to_nat n1)); [ | | lia | lia ].
  - rewrite list_lookup_fmap, lookup_seqZ_lt by lia. simpl.
    do 2 f_equal; lia.
  - intros k. by rewrite length_fmap, length_seqZ.
Qed.

Lemma get1_fromfunction1 (f : Z → Q) (n i : Z) :
  0 ≤ i < n → get1 (fromfunction1 f n) i = Some (f i).
Proof.
  intros Hi. unfold get1, fromfunction1. cbn [shape data].
  rewrite bool_decide_true by done.
  rewrite list_lookup_fmap, lookup_seqZ_lt by lia. simpl. do 2 f_equal; lia.
Qed.

(** A block filled with [f] at the global indices [l2g] gives is the
    restriction of the array filled with [f]. *)
Lemma fromfunction2_restricts (f : Z → Z → Q) (Px Py l0 l1 pi pj : Z) :
  0 ≤ pi < Px → 0 ≤ pj < Py → 0 ≤ l0 → 0 ≤ l1 →
  restricts (fromfunction2 (λ i j, f (l2g i pi l0) (l2g j pj l1)) l0 l1)
            (fromfunction2 f (Px * l0) (Py * l1)) pi pj l0 l1.
Proof.
  intros Hpi Hpj Hl0 Hl1. split; [ done | ]. intros i j Hi Hj.
  rewrite !get2_fromfunction2 by nia.
  split; [ done | ]. unfold l2g. do 2 f_equal; lia.
Qed.

Lemma fromfunction1_restricts (f : Z → Q) (P l p : Z) :
  0 ≤ p < P → 0 ≤ l →
  restricts1 (fromfunction1 (λ i, f (l2g i p l)) l) (fromfunction1 f (P * l)) p l.
Proof.
  intros Hp Hl. split; [ done | ]. intros i Hi.
  rewrite !get1_fromfunction1 by nia.
  split; [ done | ]. unfold l2g. do 2 f_equal; lia.
Qed.

(** With exact division every block of [atax] is the restriction of the
    single-process array. *)
Lemma atax_blocks_restrict (Px Py lM lN pi pj : Z) :
  0 ≤ pi < Px → 0 ≤ pj < Py → 0 ≤ lM → 0 ≤ lN →
  restricts (atax_distr_A (Px * lM) (Py * lN) lM lN pi pj)
            (atax_shmem_A (Px * lM) (Py * lN)) pi pj lM lN
  ∧ restricts1 (atax_distr_x (Py * lN) lN pj) (atax_shmem_x (Py * lN)) pj lN.
Proof.
  intros Hpi Hpj HlM HlN. split.
  - by apply (fromfunction2_restricts
                (λ i j, fdiv ((i + j) mod (Py * lN)) (5 * (Px * lM))) Px Py).
  - by apply (fromfunction1_restricts (λ i, (1 + fdiv i (Py * lN))%Q) Py).
Qed.

(** So is the block of [B] that [k2mm_distr_init] creates. *)
Lemma k2mm_B_restricts (Px Py NJ lNJ lNKb pi pj : Z) :
  0 ≤ pi < Px → 0 ≤ pj < Py → 0 ≤ lNKb → 0 ≤ lNJ → NJ = Py * lNJ →
  restricts (k2mm_distr_B NJ lNJ lNKb pi pj) (k2mm_shmem_B NJ (Px * lNKb))
            pi pj lNKb lNJ.
Proof.
  intros Hpi Hpj H0 H1 ->.
  by apply (fromfunction2_restricts
              (λ i j, fdiv (i * (j + 1) mod (Py * lNJ)) (Py * lNJ)) Px Py).
Qed.

(** And the blocks of [A], [C] and [D] of [k3mm_distr_init]. *)
Lemma k3mm_ACD_restrict (Px Py NI NK NL lNI lNKa lNJx lNMy lNMx lNL pi pj : Z) :
  0 ≤ pi < Px → 0 ≤ pj < Py →
  0 ≤ lNI → 0 ≤ lNKa → 0 ≤ lNJx → 0 ≤ lNMy → 0 ≤ lNMx → 0 ≤ lNL →
  NI = Px * lNI → NK = Py * lNKa → NL = Py * lNL →
  restricts (k3mm_distr_A NI lNI lNKa pi pj) (k3mm_shmem_A NI NK) pi pj lNI lNKa
  ∧ restricts (k3mm_distr_C NL lNJx lNMy pi pj)
              (k3mm_shmem_C (Px * lNJx) (Py * lNMy) NL) pi pj lNJx lNMy
  ∧ restricts (k3mm_distr_D NK lNMx lNL pi pj)
              (k3mm_shmem_D NK (Px * lNMx) NL) pi pj lNMx lNL.
Proof.
  intros Hpi Hpj ? ? ? ? ? ? -> -> ->. split; [ | split ].
  - by apply (fromfunction2_restricts
                (λ i j, fdiv ((i * j + 1) mod (Px * lNI)) (5 * (Px * lNI))) Px Py).
  - by apply (fromfunction2_restricts
                (λ i j, fdiv (i * (j + 3) mod (Py * lNL)) (5 * (Py * lNL))) Px Py).
  - by apply (fromfunction2_restricts
                (λ i j, fdiv ((i * (j + 2) + 2) mod (Py * lNKa)) (5 * (Py * lNKa)))
                Px Py).
Qed.

(** C2, evaluated on the code.  On 8 processes [k3mm] works on the grid
    [(4, 2)]; with the sizes of the driver the block of [B] is created with
    [lNKa = 1000] rows although its rows are numbered, and the kernel is
    called, with [lNKb = 500].  The block is therefore not the restriction
    of the single-process [B] to the rows of its rank, whichever of the two
    block heights is taken: with the height the kernel declares the shape
    is wrong, and with the height it has (seen on an 8 x 8 problem) element
    [(2, 0)] of rank [(1, 0)] is the global row 4, not row 6, and rank
    [(3, 0)] holds a row that the global array does not have. *)
Theorem k3mm_B_not_restriction :
  swap_nonsquare (2, 4) = (4, 2)
  ∧ grid !! 8 = Some (2, 4)
  ∧ In (Alloc "B" [1000; 900]) (k3mm 0 8 (1600, 1800, 2000, 2200, 2400)).1
  ∧ In (Invoke "k3mm_distr"
          [kw "lNI" 400; kw "lNJ" 900; kw "lNJx" 450; kw "lNKa" 1000;
           kw "lNKb" 500; kw "lNMx" 600; kw "lNMy" 1200; kw "lNL" 1100;
           kw "Px" 4; kw "Py" 2])
       (k3mm 0 8 (1600, 1800, 2000, 2200, 2400)).1
  ∧ (∀ pi pj : Z,
       shape (k3mm_distr_B 1800 900 1000 500 pi pj) = [1000; 900]
       ∧ ¬ restricts (k3mm_distr_B 1800 900 1000 500 pi pj)
                     (k3mm_shmem_B 1800 2000) pi pj 500 900)
  ∧ get2 (k3mm_distr_B 8 4 4 2 1 0) 2 0 = Some (fdiv 6 40)
  ∧ get2 (k3mm_shmem_B 8 8) (1 * 4 + 2) 0 = Some (fdiv 0 40)
  ∧ ¬ restricts (k3mm_distr_B 8 4 4 2 1 0) (k3mm_shmem_B 8 8) 1 0 4 4
  ∧ is_Some (get2 (k3mm_distr_B 8 4 4 2 3 0) 3 0)
  ∧ get2 (k3mm_shmem_B 8 8) (l2g 3 3 2) 0 = None.
Proof.
  split; [ reflexivity | ]. split; [ reflexivity | ].
  split; [ vm_compute; tauto | ]. split; [ vm_compute; tauto | ].
  split.
  { intros pi pj. split; [ reflexivity | ]. intros [Hs _]. discriminate Hs. }
  assert (get2 (k3mm_distr_B 8 4 4 2 1 0) 2 0 = Some (fdiv 6 40)) as H1
    by (by vm_compute).
  assert (get2 (k3mm_shmem_B 8 8) (1 * 4 + 2) 0 = Some (fdiv 0 40)) as H2
    by (by vm_compute).
  split; [ exact H1 | ]. split; [ exact H2 | ].
  split.
  { intros [_ Hg]. destruct (Hg 2 0 ltac:(lia) ltac:(lia)) as [_ He].
    vm_compute in He. discriminate He. }
  split; [ | by vm_compute ].
  exists (fdiv 3 40). by vm_compute.
Qed.

(** * Further properties *)

Import Initializers ValidationGather.


Lemma l2g_div_mod (P bsize g : Z) :
  0 < P → 0 < bsize → 0 ≤ g < P * bsize →
  0 ≤ g / bsize < P ∧ 0 ≤ g mod bsize < bsize
  ∧ l2g (g mod bsize) (g / bsize) bsize = g.
Proof.
  intros HP Hb Hg. unfold l2g.
  pose proof (Z.mod_pos_bound g bsize Hb).
  pose proof (Z.div_mod g bsize).
  assert (0 ≤ g / bsize) by (apply Z.div_pos; lia).
  assert (g / bsize < P) by (apply Z.div_lt_upper_bound; lia).
  lia.
Qed.

(** X1. Every global index below [P * bsize] is owned by exactly one pair
    (rank, local index): [l2g] and [(g // bsize, g % bsize)] are inverse to
    each other. *)
Theorem l2g_owner_unique (P bsize : Z) :
  0 < P → 0 < bsize →
  (∀ p i : Z, 0 ≤ p < P → 0 ≤ i < bsize →
     0 ≤ l2g i p bsize < P * bsize
     ∧ l2g i p bsize / bsize = p ∧ l2g i p bsize mod bsize = i)
  ∧ (∀ g : Z, 0 ≤ g < P * bsize →
       0 ≤ g / bsize < P ∧ 0 ≤ g mod bsize < bsize
       ∧ l2g (g mod bsize) (g / bsize) bsize = g)
  ∧ (∀ p i p' i' : Z, 0 ≤ i < bsize → 0 ≤ i' < bsize →
       l2g i p bsize = l2g i' p' bsize → p = p' ∧ i = i').
Proof.
  intros HP Hb. unfold l2g. split; [ | split ].
  - intros p i Hp Hi. split; [ nia | ].
    rewrite Z.add_comm. split.
    + rewrite Z.div_add_l by lia. rewrite Z.div_small by lia. lia.
    + rewrite Z.add_comm, Z_mod_plus_full. by apply Z.mod_small.
  - intros g Hg. fold (l2g (g mod bsize) (g / bsize) bsize).
    by apply l2g_div_mod.
  - intros p i p' i' Hi Hi' He.
    assert (p = p') as -> by nia. split; [ done | lia ].
Qed.

Lemma l2g_owner_unique_witness :
  (∀ p i : Z, 0 ≤ p < 4 → 0 ≤ i < 450 →
     0 ≤ l2g i p 450 < 4 * 450
     ∧ l2g i p 450 / 450 = p ∧ l2g i p 450 mod 450 = i)
  ∧ (∀ g : Z, 0 ≤ g < 4 * 450 →
       0 ≤ g / 450 < 4 ∧ 0 ≤ g mod 450 < 450
       ∧ l2g (g mod 450) (g / 450) 450 = g)
  ∧ (∀ p i p' i' : Z, 0 ≤ i < 450 → 0 ≤ i' < 450 →
       l2g i p 450 = l2g i' p' 450 → p = p' ∧ i = i').
Proof. apply (l2g_owner_unique 4 450); lia. Defined.

(** X2. With [bsize = M // P] the blocks of the [P] ranks cover exactly the
    global indices below [M - M % P]: the last [M % P] indices belong to no
    rank. *)
Theorem l2g_floor_coverage (P M g : Z) :
  0 < P → 0 ≤ M →
  (∃ p i : Z, 0 ≤ p < P ∧ 0 ≤ i < M / P ∧ l2g i p (M / P) = g)
  ↔ 0 ≤ g < M - M mod P.
Proof.
  intros HP HM.
  pose proof (Z.div_mod M P) as Hd. pose proof (Z.mod_pos_bound M P HP) as Hm.
  assert (0 ≤ M / P) as Hq by (apply Z.div_pos; lia).
  split.
  - intros (p & i & Hp & Hi & <-). unfold l2g. nia.
  - intros Hg.
    destruct (Z.eq_dec (M / P) 0) as [H0 | Hne]; [ rewrite H0 in Hd; lia | ].
    destruct (l2g_div_mod P (M / P) g) as (H1 & H2 & H3); [ lia | lia | nia | ].
    by exists (g / (M / P)), (g mod (M / P)).
Qed.

Lemma l2g_floor_coverage_witness :
  (∃ p i : Z, 0 ≤ p < 4 ∧ 0 ≤ i < 10 / 4 ∧ l2g i p (10 / 4) = 7)
  ↔ 0 ≤ 7 < 10 - 10 mod 4.
Proof. apply (l2g_floor_coverage 4 10 7); lia. Defined.


(** X3. In the 1-D stencil a rank has no west (east) neighbour exactly when
    it is the first (last) rank, and then the offset of that side is 1;
    otherwise the offset is 0, the neighbour is a rank of the line, and the
    neighbour's neighbour on the opposite side is the rank itself. *)
Theorem neighbours_1d_mutual (rank size : Z) :
  0 ≤ rank < size →
  let s := neighbours_1d rank size in
  (rank = 0 → nw s = PROC_NULL ∧ woff s = 1)
  ∧ (rank ≠ 0 →
       nw s = rank - 1 ∧ woff s = 0 ∧ 0 ≤ nw s < size
       ∧ ne (neighbours_1d (nw s) size) = rank
       ∧ eoff (neighbours_1d (nw s) size) = 0)
  ∧ (rank = size - 1 → ne s = PROC_NULL ∧ eoff s = 1)
  ∧ (rank ≠ size - 1 →
       ne s = rank + 1 ∧ eoff s = 0 ∧ 0 ≤ ne s < size
       ∧ nw (neighbours_1d (ne s) size) = rank
       ∧ woff (neighbours_1d (ne s) size) = 0).
Proof.
  intros Hr s. subst s. unfold neighbours_1d.
  repeat split; intros;
    repeat match goal with
           | |- context [Z.eqb ?a ?b] => destruct (Z.eqb_spec a b)
           end; simpl in *; try lia; try done.
Qed.

Lemma neighbours_1d_mutual_witness :
  let s := neighbours_1d 2 4 in
  (2 = 0 → nw s = PROC_NULL ∧ woff s = 1)
  ∧ (2 ≠ 0 →
       nw s = 2 - 1 ∧ woff s = 0 ∧ 0 ≤ nw s < 4
       ∧ ne (neighbours_1d (nw s) 4) = 2
       ∧ eoff (neighbours_1d (nw s) 4) = 0)
  ∧ (2 = 4 - 1 → ne s = PROC_NULL ∧ eoff s = 1)
  ∧ (2 ≠ 4 - 1 →
       ne s = 2 + 1 ∧ eoff s = 0 ∧ 0 ≤ ne s < 4
       ∧ nw (neighbours_1d (ne s) 4) = 2
       ∧ woff (neighbours_1d (ne s) 4) = 0).
Proof. apply (neighbours_1d_mutual 2 4). lia. Defined.

Lemma neighbours_2d_offsets (Px Py pi pj : Z) :
  let s := neighbours_2d Px Py pi pj in
  noff s = (if pi =? 0 then 1 else 0)
  ∧ soff s = (if pi =? Px - 1 then 1 else 0)
  ∧ woff s = (if pj =? 0 then 1 else 0)
  ∧ eoff s = (if pj =? Py - 1 then 1 else 0).
Proof.
  unfold neighbours_2d.
  by destruct (pi =? 0), (pi =? Px - 1), (pj =? 0), (pj =? Py - 1).
Qed.

(** The stencil data of the rank whose number is [r]. *)
Lemma neighbours_2d_of_cell (Px Py a b : Z) :
  0 < Py → 0 ≤ b < Py →
  neighbours_2d Px Py ((a * Py + b) / Py) ((a * Py + b) mod Py)
  = neighbours_2d Px Py a b.
Proof. intros HPy Hb. by destruct (coords_of_cell Py a b HPy Hb) as [-> ->]. Qed.

(** X4. On the grid [(Px, Py)] the process at [(pi, pj)] has no neighbour
    on a side exactly when it lies on that edge of the grid, and then the
    offset of the side is 1; otherwise the offset is 0, the neighbour is a
    rank of the grid, and that rank's neighbour on the opposite side is the
    process itself. *)
Theorem neighbours_2d_mutual (Px Py pi pj : Z) :
  0 ≤ pi < Px → 0 ≤ pj < Py →
  let me := pi * Py + pj in
  let s := neighbours_2d Px Py pi pj in
  let nb r := neighbours_2d Px Py (r / Py) (r mod Py) in
  (pi = 0 → nn s = PROC_NULL ∧ noff s = 1)
  ∧ (pi ≠ 0 → noff s = 0 ∧ 0 ≤ nn s < Px * Py ∧ ns (nb (nn s)) = me)
  ∧ (pi = Px - 1 → ns s = PROC_NULL ∧ soff s = 1)
  ∧ (pi ≠ Px - 1 → soff s = 0 ∧ 0 ≤ ns s < Px * Py ∧ nn (nb (ns s)) = me)
  ∧ (pj = 0 → nw s = PROC_NULL ∧ woff s = 1)
  ∧ (pj ≠ 0 → woff s = 0 ∧ 0 ≤ nw s < Px * Py ∧ ne (nb (nw s)) = me)
  ∧ (pj = Py - 1 → ne s = PROC_NULL ∧ eoff s = 1)
  ∧ (pj ≠ Py - 1 → eoff s = 0 ∧ 0 ≤ ne s < Px * Py ∧ nw (nb (ne s)) = me).
Proof.
  intros Hpi Hpj me s nb. subst me s nb. cbv beta.
  destruct (neighbours_2d_offsets Px Py pi pj) as (-> & -> & -> & ->).
  rewrite !neighbours_2d_nn, !neighbours_2d_ns, !neighbours_2d_nw, !neighbours_2d_ne.
  assert (0 < Py) as HPy by lia.
  split; [ intros ->; by rewrite Z.eqb_refl | ].
  split.
  { intros Hne. destruct (Z.eqb_spec pi 0) as [|_]; [ done | ]. cbv iota.
    split; [ done | ]. split; [ nia | ].
    destruct (coords_of_cell Py (pi - 1) pj HPy ltac:(lia)) as [-> ->].
    destruct (Z.eqb_spec (pi - 1) (Px - 1)); lia. }
  split; [ intros ->; by rewrite Z.eqb_refl | ].
  split.
  { intros Hne. destruct (Z.eqb_spec pi (Px - 1)) as [|_]; [ done | ]. cbv iota.
    split; [ done | ]. split; [ nia | ].
    destruct (coords_of_cell Py (pi + 1) pj HPy ltac:(lia)) as [-> ->].
    destruct (Z.eqb_spec (pi + 1) 0); lia. }
  split; [ intros ->; by rewrite Z.eqb_refl | ].
  split.
  { intros Hne. destruct (Z.eqb_spec pj 0) as [|_]; [ done | ]. cbv iota.
    split; [ done | ]. split; [ nia | ].
    destruct (coords_of_cell Py pi (pj - 1) HPy ltac:(lia)) as [-> ->].
    destruct (Z.eqb_spec (pj - 1) (Py - 1)); lia. }
  split; [ intros ->; by rewrite Z.eqb_refl | ].
  intros Hne. destruct (Z.eqb_spec pj (Py - 1)) as [|_]; [ done | ]. cbv iota.
  split; [ done | ]. split; [ nia | ].
  destruct (coords_of_cell Py pi (pj + 1) HPy ltac:(lia)) as [-> ->].
  destruct (Z.eqb_spec (pj + 1) 0); lia.
Qed.

Lemma neighbours_2d_mutual_witness :
  let me := 1 * 4 + 3 in
  let s := neighbours_2d 2 4 1 3 in
  let nb r := neighbours_2d 2 4 (r / 4) (r mod 4) in
  (1 = 0 → nn s = PROC_NULL ∧ noff s = 1)
  ∧ (1 ≠ 0 → noff s = 0 ∧ 0 ≤ nn s < 2 * 4 ∧ ns (nb (nn s)) = me)
  ∧ (1 = 2 - 1 → ns s = PROC_NULL ∧ soff s = 1)
  ∧ (1 ≠ 2 - 1 → soff s = 0 ∧ 0 ≤ ns s < 2 * 4 ∧ nn (nb (ns s)) = me)
  ∧ (3 = 0 → nw s = PROC_NULL ∧ woff s = 1)
  ∧ (3 ≠ 0 → woff s = 0 ∧ 0 ≤ nw s < 2 * 4 ∧ ne (nb (nw s)) = me)
  ∧ (3 = 4 - 1 → ne s = PROC_NULL ∧ eoff s = 1)
  ∧ (3 ≠ 4 - 1 → eoff s = 0 ∧ 0 ≤ ne s < 2 * 4 ∧ nw (nb (ne s)) = me).
Proof. apply (neighbours_2d_mutual 2 4 1 3); lia. Defined.


(** X5. A second exchange round of the 1-D stencil, with no computation in
    between, changes nothing: the round is idempotent. *)
Theorem jacobi_1d_round_idempotent {V : Type} (lR : nat) (w w' : list (list V)) :
  (1 ≤ lR)%nat →
  Forall (λ b, length b = (lR + 2)%nat) w →
  jacobi_1d_round lR w = Some w' →
  jacobi_1d_round lR w' = Some w'.
Proof.
  intros HlR Hw Hround.
  destruct (jacobi_1d_round_spec lR w HlR Hw) as (w1 & Hw1 & Hlen1 & Hget1).
  rewrite Hround in Hw1. injection Hw1 as <-.
  assert (Forall (λ b, length b = (lR + 2)%nat) w') as Hw'.
  { apply Forall_lookup. intros r b' Hb'.
    destruct (lookup_lt_is_Some_2 w r) as [b Hb];
      [ rewrite <- Hlen1; by eapply lookup_lt_Some | ].
    destruct (Hget1 r b Hb) as (b1 & Hb1 & Hl & _). congruence. }
  destruct (jacobi_1d_round_spec lR w' HlR Hw') as (w2 & Hw2 & Hlen2 & Hget2).
  rewrite Hw2. f_equal. apply list_eq. intros r.
  destruct (w' !! r) as [b'|] eqn:Hb'.
  - destruct (lookup_lt_is_Some_2 w r) as [b Hb];
      [ rewrite <- Hlen1; by eapply lookup_lt_Some | ].
    destruct (Hget1 r b Hb) as (b1 & Hb1 & Hl1 & Hin1 & Hwest1 & Heast1).
    assert (b1 = b') as -> by congruence.
    destruct (Hget2 r b' Hb') as (b2 & Hb2 & Hl2 & Hin2 & Hwest2 & Heast2).
    rewrite Hb2. f_equal. apply list_eq. intros k.
    destruct (decide (k = 0%nat)) as [-> | Hk0].
    { rewrite Hwest2, Hwest1. destruct (decide (r = 0%nat)); [ done | ].
      destruct (lookup_lt_is_Some_2 w (r - 1)%nat) as [c Hc];
        [ apply lookup_lt_Some in Hb; lia | ].
      destruct (Hget1 (r - 1)%nat c Hc) as (c' & Hc' & _ & Hcin & _).
      rewrite Hc', Hc. simpl. apply Hcin. lia. }
    destruct (decide (k = (lR + 1)%nat)) as [-> | Hk1].
    { rewrite Heast2, Heast1. rewrite Hlen1.
      destruct (decide (S r = length w)); [ done | ].
      destruct (lookup_lt_is_Some_2 w (S r)) as [c Hc];
        [ apply lookup_lt_Some in Hb; lia | ].
      destruct (Hget1 (S r) c Hc) as (c' & Hc' & _ & Hcin & _).
      rewrite Hc', Hc. simpl. apply Hcin. lia. }
    destruct (decide (k ≤ lR)%nat).
    { apply Hin2. lia. }
    rewrite !lookup_ge_None_2 by lia. done.
  - apply lookup_ge_None in Hb'. apply lookup_ge_None. lia.
Qed.

Lemma jacobi_1d_round_idempotent_witness :
  jacobi_1d_round 2 [[0; 1; 2; 3]; [2; 3; 4; 0]] = Some [[0; 1; 2; 3]; [2; 3; 4; 0]].
Proof.
  apply (jacobi_1d_round_idempotent 2 [[0; 1; 2; 9]; [7; 3; 4; 0]]);
    [ lia | repeat constructor | reflexivity ].
Defined.

(** X6. With a single process no transfer takes place: a round of the 1-D
    stencil on one rank and a round of the 2-D stencil on the grid (1, 1)
    return the buffer as it is, whatever its size. *)
Theorem single_rank_round {V : Type} (lR lM lN : nat) (b : list V) :
  jacobi_1d_round lR [b] = Some [b]
  ∧ jacobi_2d_round 1 1 lM lN [b] = Some [b].
Proof. split; reflexivity. Qed.


Lemma radix_split (n k m : nat) :
  (n < k * m)%nat → ∃ q r, (q < k)%nat ∧ (r < m)%nat ∧ n = (q * m + r)%nat.
Proof.
  intros Hn. assert (m ≠ 0)%nat as Hm by (intros ->; lia).
  exists (n / m)%nat, (n mod m)%nat.
  pose proof (Nat.div_mod_eq n m). pose proof (Nat.mod_upper_bound n m Hm).
  split; [ apply Nat.Div0.div_lt_upper_bound; lia | lia ].
Qed.

Section TransposeProps.
Context {V : Type}.

(** X7. Transposing the two middle axes twice gives the array back. *)
Theorem transpose_0213_involutive (d0 d1 d2 d3 : nat) (C : list V) :
  length C = (d0 * d1 * d2 * d3)%nat →
  ∃ T, transpose_0213 d0 d1 d2 d3 C = Some T
       ∧ length T = length C
       ∧ transpose_0213 d0 d2 d1 d3 T = Some C.
Proof.
  intros HC.
  destruct (mapM_lookup_positions C (positions_0213 d0 d1 d2 d3))
    as (T & HT & HlT & HgetT).
  { rewrite HC. apply positions_0213_bound. }
  rewrite positions_0213_length in HlT.
  assert (length T = length C) as Hlen by (rewrite HlT, HC; lia).
  destruct (mapM_lookup_positions T (positions_0213 d0 d2 d1 d3))
    as (U & HU & HlU & HgetU).
  { rewrite Hlen, HC. replace (d0 * d1 * d2 * d3)%nat with (d0 * d2 * d1 * d3)%nat by lia.
    apply positions_0213_bound. }
  rewrite positions_0213_length in HlU.
  exists T. split; [ exact HT | ]. split; [ exact Hlen | ].
  unfold transpose_0213. rewrite HU. f_equal.
  apply list_eq_same_length with (length C); [ done | lia | ].
  intros n x y Hn Hx Hy.
  rewrite HC in Hn.
  destruct (radix_split n (d0 * d1 * d2) d3 Hn) as (n1 & e & Hn1 & He & ->).
  destruct (radix_split n1 (d0 * d1) d2 Hn1) as (n2 & c & Hn2 & Hc & ->).
  destruct (radix_split n2 d0 d1 Hn2) as (a & b & Ha & Hb & ->).
  replace (((a * d1 + b) * d2 + c) * d3 + e)%nat
    with ((a * d1 + b) * (d2 * d3) + (c * d3 + e))%nat in Hx by lia.
  rewrite (HgetU ((a * d1 + b) * (d2 * d3) + (c * d3 + e))%nat
                 (((a * d2 + c) * d1 + b) * d3 + e)%nat) in Hx.
  - replace (((a * d2 + c) * d1 + b) * d3 + e)%nat
      with ((a * d2 + c) * (d1 * d3) + (b * d3 + e))%nat in Hx by lia.
    rewrite (HgetT _ (((a * d1 + b) * d2 + c) * d3 + e)%nat) in Hx
      by (by apply positions_0213_lookup).
    congruence.
  - by apply positions_0213_lookup.
Qed.
End TransposeProps.

Lemma transpose_0213_involutive_witness :
  ∃ T, transpose_0213 1 2 2 1 [10; 11; 12; 13] = Some T
       ∧ length T = length [10; 11; 12; 13]
       ∧ transpose_0213 1 2 2 1 T = Some [10; 11; 12; 13].
Proof. apply (transpose_0213_involutive 1 2 2 1 [10; 11; 12; 13]). reflexivity. Defined.

Lemma exact_product (a b A B : nat) :
  (a ≤ A)%nat → (b ≤ B)%nat → (0 < A)%nat → (0 < B)%nat →
  (a * b = A * B)%nat ↔ a = A ∧ b = B.
Proof.
  intros Ha Hb HA HB. split; [ | by intros [-> ->] ].
  intros He.
  destruct (decide (a = A)) as [-> | Hne]; [ split; [ done | nia ] | ].
  assert (a * b ≤ a * B)%nat by (apply Nat.mul_le_mono_l; lia).
  assert (a * B < A * B)%nat by (apply Nat.mul_lt_mono_pos_r; lia).
  lia.
Qed.

Lemma floor_block_exact (P N : nat) :
  (0 < P)%nat → (P * (N / P) ≤ N)%nat ∧ (P * (N / P) = N ↔ N mod P = 0)%nat.
Proof.
  intros HP. pose proof (Nat.div_mod_eq N P). lia.
Qed.

Section GatherValidateProps.
Context {V : Type}.

(** X8. The reassembly of the validation block succeeds exactly when both
    global dimensions divide evenly by the grid: with a remainder the
    staging array is too small for [reshape(NI, NL)], which then fails. *)
Theorem gather_validate_exact (Px Py NI NL : nat) (blocks : list (list V)) :
  (0 < Px)%nat → (0 < Py)%nat → (0 < NI)%nat → (0 < NL)%nat →
  length blocks = (Px * Py)%nat →
  Forall (λ b, length b = (NI / Px * (NL / Py))%nat) blocks →
  is_Some (gather_validate Px Py NI NL blocks)
  ↔ (NI mod Px = 0 ∧ NL mod Py = 0)%nat.
Proof.
  intros HPx HPy HNI HNL Hlen Hb.
  unfold gather_validate. rewrite decide_True by done.
  assert (length (gather blocks) = (Px * Py * (NI / Px) * (NL / Py))%nat) as Hg.
  { unfold gather. rewrite length_join, (sum_list_fmap_same (NI / Px * (NL / Py))) by done.
    rewrite Hlen. lia. }
  destruct (mapM_lookup_positions (gather blocks)
              (positions_0213 Px Py (NI / Px) (NL / Py))) as (T & HT & HlT & _).
  { rewrite Hg. apply positions_0213_bound. }
  rewrite positions_0213_length in HlT.
  unfold reassemble, transpose_0213. rewrite HT. simpl. unfold reshape2.
  destruct (floor_block_exact Px NI HPx) as [H1 H1'].
  destruct (floor_block_exact Py NL HPy) as [H2 H2'].
  pose proof (exact_product (Px * (NI / Px)) (Py * (NL / Py)) NI NL H1 H2 HNI HNL) as Hp.
  destruct (decide (length T = (NI * NL)%nat)) as [He | Hne].
  - split; [ intros _ | by eexists ].
    rewrite <- H1', <- H2'. apply Hp. rewrite <- He, HlT. lia.
  - split; [ by intros [? ?] | ].
    intros [Hd1 Hd2]. exfalso. apply Hne. rewrite HlT.
    apply H1' in Hd1. apply H2' in Hd2. nia.
Qed.
End GatherValidateProps.

Lemma gather_validate_exact_witness :
  is_Some (gather_validate 2 1 5 2 [[1; 2; 3; 4]; [5; 6; 7; 8]])
  ↔ (5 mod 2 = 0 ∧ 2 mod 1 = 0)%nat.
Proof.
  apply (gather_validate_exact 2 1 5 2 [[1; 2; 3; 4]; [5; 6; 7; 8]]);
    [ lia | lia | lia | lia | reflexivity | repeat constructor ].
Defined.

(** ** The other block-local initializers *)


Lemma restricts_ff2 (f g : Z → Z → Q) (Px Py l0 l1 pi pj n0 n1 : Z) :
  n0 = Px * l0 → n1 = Py * l1 →
  (∀ i j, g i j = f (l2g i pi l0) (l2g j pj l1)) →
  0 ≤ pi < Px → 0 ≤ pj < Py → 0 ≤ l0 → 0 ≤ l1 →
  restricts (fromfunction2 g l0 l1) (fromfunction2 f n0 n1) pi pj l0 l1.
Proof.
  intros -> -> Hg Hpi Hpj Hl0 Hl1. split; [ done | ]. intros i j Hi Hj.
  rewrite !get2_fromfunction2 by nia. split; [ done | ].
  rewrite Hg. unfold l2g. do 2 f_equal; lia.
Qed.

Lemma restricts_ff1 (f g : Z → Q) (P l p n : Z) :
  n = P * l → (∀ i, g i = f (l2g i p l)) → 0 ≤ p < P → 0 ≤ l →
  restricts1 (fromfunction1 g l) (fromfunction1 f n) p l.
Proof.
  intros -> Hg Hp Hl. split; [ done | ]. intros i Hi.
  rewrite !get1_fromfunction1 by nia. split; [ done | ].
  rewrite Hg. unfold l2g. do 2 f_equal; lia.
Qed.

Lemma bind_seqZ_length {A : Type} (g : Z → list A) (m : nat) (n : Z) :
  (∀ k, length (g k) = m) → length (seqZ 0 n ≫= g) = (Z.to_nat n * m)%nat.
Proof.
  intros Hg. unfold seqZ. rewrite list_fmap_bind.
  apply bind_seq_length. intros; apply Hg.
Qed.

Lemma get3_fromfunction3 (f : Z → Z → Z → Q) (n0 n1 n2 i j k : Z) :
  0 ≤ i < n0 → 0 ≤ j < n1 → 0 ≤ k < n2 →
  get3 (fromfunction3 f n0 n1 n2) i j k = Some (f i j k).
Proof.
  intros Hi Hj Hk. unfold get3, fromfunction3. cbn [shape data].
  rewrite bool_decide_true by done.
  replace (Z.to_nat ((i * n1 + j) * n2 + k))
    with (Z.to_nat i * (Z.to_nat n1 * Z.to_nat n2)
          + (Z.to_nat j * Z.to_nat n2 + Z.to_nat k))%nat by nia.
  assert (∀ a, length (seqZ 0 n1 ≫= λ b, f a b <$> seqZ 0 n2)
               = (Z.to_nat n1 * Z.to_nat n2)%nat) as Hlen.
  { intros a. apply bind_seqZ_length. intros b. by rewrite length_fmap, length_seqZ. }
  rewrite (bind_seqZ_lookup _ (Z.to_nat n1 * Z.to_nat n2));
    [ | exact Hlen | lia | apply radix_lt; lia ].
  rewrite (bind_seqZ_lookup _ (Z.to_nat n2));
    [ | intros b; by rewrite length_fmap, length_seqZ | lia | lia ].
  rewrite list_lookup_fmap, lookup_seqZ_lt by lia. simpl. do 2 f_equal; lia.
Qed.

Lemma restricts_ff3 (f g : Z → Z → Z → Q) (P l p n0 n1 n2 : Z) :
  n0 = P * l → (∀ i j k, g i j k = f (l2g i p l) j k) → 0 ≤ p < P → 0 ≤ l →
  restricts3 (fromfunction3 g l n1 n2) (fromfunction3 f n0 n1 n2) p l n1 n2.
Proof.
  intros -> Hg Hp Hl. split; [ done | ]. intros i j k Hi Hj Hk.
  rewrite !get3_fromfunction3 by nia. split; [ done | ].
  rewrite Hg. unfold l2g. do 2 f_equal; lia.
Qed.

(** X9. With exact division every block of [bicg_distr_init] holds the values
    of [bicg_shmem_init] at the global indices its rank owns: [A] by rows of
    [pi] and columns of [pj], [p] and [r] by [pj]. *)
Theorem bicg_blocks_restrict (Px Py M N lM lN lMy pi pj : Z) :
  0 ≤ pi < Px →
  0 ≤ pj < Py →
  0 ≤ lM →
  0 ≤ lN →
  0 ≤ lMy →
  M = Px * lM →
  N = Py * lN →
  M = Py * lMy →
  restricts (bicg_distr_A M lM lN pi pj) (bicg_shmem_A M N) pi pj lM lN
  ∧ restricts1 (bicg_distr_p N lN pj) (bicg_shmem_p N) pj lN
  ∧ restricts1 (bicg_distr_r M lMy pj) (bicg_shmem_r M) pj lMy.
Proof.
  intros H0 H1 H2 H3 H4 H5 H6 H7.
  split; [ unfold bicg_distr_A, bicg_shmem_A; by apply (restricts_ff2 _ _ Px Py) | ].
  split; [ unfold bicg_distr_p, bicg_shmem_p; by apply (restricts_ff1 _ _ Py) | ].
  unfold bicg_distr_r, bicg_shmem_r; by apply (restricts_ff1 _ _ Py).
Qed.

Lemma bicg_blocks_restrict_witness :
  restricts (bicg_distr_A 8 4 3 1 3) (bicg_shmem_A 8 12) 1 3 4 3
  ∧ restricts1 (bicg_distr_p 12 3 3) (bicg_shmem_p 12) 3 3
  ∧ restricts1 (bicg_distr_r 8 2 3) (bicg_shmem_r 8) 3 2.
Proof.
  apply (bicg_blocks_restrict 2 4 8 12 4 3 2 1 3); lia.
Defined.


(** X10. With exact division the blocks of [C], [A] and [B] that
    [gemm_distr_init] creates hold the values of [gemm_shmem_init] at the
    global indices their rank owns. *)
Theorem gemm_blocks_restrict (Px Py NI NJ NK lNI lNJ lNKa lNKb pi pj : Z) :
  0 ≤ pi < Px →
  0 ≤ pj < Py →
  0 ≤ lNI →
  0 ≤ lNJ →
  0 ≤ lNKa →
  0 ≤ lNKb →
  NI = Px * lNI →
  NJ = Py * lNJ →
  NK = Py * lNKa →
  NK = Px * lNKb →
  restricts (gemm_distr_C NI lNI lNJ pi pj) (gemm_shmem_C NI NJ) pi pj lNI lNJ
  ∧ restricts (gemm_distr_A NK lNI lNKa pi pj) (gemm_shmem_A NI NK) pi pj lNI lNKa
  ∧ restricts (gemm_distr_B NJ lNJ lNKb pi pj) (gemm_shmem_B NJ NK) pi pj lNKb lNJ.
Proof.
  intros H0 H1 H2 H3 H4 H5 H6 H7 H8 H9.
  split; [ unfold gemm_distr_C, gemm_shmem_C; by apply (restricts_ff2 _ _ Px Py) | ].
  split; [ unfold gemm_distr_A, gemm_shmem_A; by apply (restricts_ff2 _ _ Px Py) | ].
  unfold gemm_distr_B, gemm_shmem_B; by apply (restricts_ff2 _ _ Px Py).
Qed.

Lemma gemm_blocks_restrict_witness :
  restricts (gemm_distr_C 8 2 3 3 1) (gemm_shmem_C 8 6) 3 1 2 3
  ∧ restricts (gemm_distr_A 8 2 4 3 1) (gemm_shmem_A 8 8) 3 1 2 4
  ∧ restricts (gemm_distr_B 6 3 2 3 1) (gemm_shmem_B 6 8) 3 1 2 3.
Proof.
  apply (gemm_blocks_restrict 4 2 8 6 8 2 3 4 2 3 1); lia.
Defined.


(** X11. With exact division every block of [gemver_distr_init] holds the
    values of [gemver_shmem_init] at the global indices its rank owns: [A] by
    [(pi, pj)], [u1] and [u2] by [pi], [v1], [v2], [x] and [z] by [pj] in
    blocks of [lN], [w] and [y] by [pj] in blocks of [lMy]. *)
Theorem gemver_blocks_restrict (Px Py N lM lN lMy pi pj : Z) :
  0 ≤ pi < Px →
  0 ≤ pj < Py →
  0 ≤ lM →
  0 ≤ lN →
  0 ≤ lMy →
  N = Px * lM →
  N = Py * lN →
  N = Py * lMy →
  restricts (gemver_distr_A N lM lN pi pj) (gemver_shmem_A N) pi pj lM lN
  ∧ restricts1 (gemver_distr_u1 lM pi) (gemver_shmem_u1 N) pi lM
  ∧ restricts1 (gemver_distr_u2 N lM pi) (gemver_shmem_u2 N) pi lM
  ∧ restricts1 (gemver_distr_v1 N lN pj) (gemver_shmem_v1 N) pj lN
  ∧ restricts1 (gemver_distr_v2 N lN pj) (gemver_shmem_v2 N) pj lN
  ∧ restricts1 (gemver_distr_w lMy) (gemver_shmem_w N) pj lMy
  ∧ restricts1 (gemver_distr_x lN) (gemver_shmem_x N) pj lN
  ∧ restricts1 (gemver_distr_y N lMy pj) (gemver_shmem_y N) pj lMy
  ∧ restricts1 (gemver_distr_z N lN pj) (gemver_shmem_z N) pj lN.
Proof.
  intros H0 H1 H2 H3 H4 H5 H6 H7.
  split; [ unfold gemver_distr_A, gemver_shmem_A; by apply (restricts_ff2 _ _ Px Py) | ].
  split; [ unfold gemver_distr_u1, gemver_shmem_u1; by apply (restricts_ff1 _ _ Px) | ].
  split; [ unfold gemver_distr_u2, gemver_shmem_u2; by apply (restricts_ff1 _ _ Px) | ].
  split; [ unfold gemver_distr_v1, gemver_shmem_v1; by apply (restricts_ff1 _ _ Py) | ].
  split; [ unfold gemver_distr_v2, gemver_shmem_v2; by apply (restricts_ff1 _ _ Py) | ].
  split; [ unfold gemver_distr_w, gemver_shmem_w; by apply (restricts_ff1 _ _ Py) | ].
  split; [ unfold gemver_distr_x, gemver_shmem_x; by apply (restricts_ff1 _ _ Py) | ].
  split; [ unfold gemver_distr_y, gemver_shmem_y; by apply (restricts_ff1 _ _ Py) | ].
  unfold gemver_distr_z, gemver_shmem_z; by apply (restricts_ff1 _ _ Py).
Qed.

Lemma gemver_blocks_restrict_witness :
  restricts (gemver_distr_A 8 4 2 1 2) (gemver_shmem_A 8) 1 2 4 2
  ∧ restricts1 (gemver_distr_u1 4 1) (gemver_shmem_u1 8) 1 4
  ∧ restricts1 (gemver_distr_u2 8 4 1) (gemver_shmem_u2 8) 1 4
  ∧ restricts1 (gemver_distr_v1 8 2 2) (gemver_shmem_v1 8) 2 2
  ∧ restricts1 (gemver_distr_v2 8 2 2) (gemver_shmem_v2 8) 2 2
  ∧ restricts1 (gemver_distr_w 2) (gemver_shmem_w 8) 2 2
  ∧ restricts1 (gemver_distr_x 2) (gemver_shmem_x 8) 2 2
  ∧ restricts1 (gemver_distr_y 8 2 2) (gemver_shmem_y 8) 2 2
  ∧ restricts1 (gemver_distr_z 8 2 2) (gemver_shmem_z 8) 2 2.
Proof.
  apply (gemver_blocks_restrict 2 4 8 4 2 2 1 2); lia.
Defined.


(** X12. With exact division the blocks of [A], [B] and [x] that
    [gesummv_distr_init] creates hold the values of [gesummv_shmem_init] at
    the global indices their rank owns. *)
Theorem gesummv_blocks_restrict (Px Py N lM lN pi pj : Z) :
  0 ≤ pi < Px →
  0 ≤ pj < Py →
  0 ≤ lM →
  0 ≤ lN →
  N = Px * lM →
  N = Py * lN →
  restricts (gesummv_distr_A N lM lN pi pj) (gesummv_shmem_A N) pi pj lM lN
  ∧ restricts (gesummv_distr_B N lM lN pi pj) (gesummv_shmem_B N) pi pj lM lN
  ∧ restricts1 (gesummv_distr_x N lN pj) (gesummv_shmem_x N) pj lN.
Proof.
  intros H0 H1 H2 H3 H4 H5.
  split; [ unfold gesummv_distr_A, gesummv_shmem_A; by apply (restricts_ff2 _ _ Px Py) | ].
  split; [ unfold gesummv_distr_B, gesummv_shmem_B; by apply (restricts_ff2 _ _ Px Py) | ].
  unfold gesummv_distr_x, gesummv_shmem_x; by apply (restricts_ff1 _ _ Py).
Qed.

Lemma gesummv_blocks_restrict_witness :
  restricts (gesummv_distr_A 8 4 2 1 2) (gesummv_shmem_A 8) 1 2 4 2
  ∧ restricts (gesummv_distr_B 8 4 2 1 2) (gesummv_shmem_B 8) 1 2 4 2
  ∧ restricts1 (gesummv_distr_x 8 2 2) (gesummv_shmem_x 8) 2 2.
Proof.
  apply (gesummv_blocks_restrict 2 4 8 4 2 1 2); lia.
Defined.


(** X13. With exact division the blocks of [A], [B], [C] and [D] that
    [k2mm_distr_init] creates hold the values of [k2mm_shmem_init] at the
    global indices their rank owns; [B] and [C] are split by rows over [Px]. *)
Theorem k2mm_blocks_restrict (Px Py NI NJ NK NL lNI lNJ lNJx lNKa lNKb lNL pi pj : Z) :
  0 ≤ pi < Px →
  0 ≤ pj < Py →
  0 ≤ lNI →
  0 ≤ lNJ →
  0 ≤ lNJx →
  0 ≤ lNKa →
  0 ≤ lNKb →
  0 ≤ lNL →
  NI = Px * lNI →
  NJ = Py * lNJ →
  NJ = Px * lNJx →
  NK = Py * lNKa →
  NK = Px * lNKb →
  NL = Py * lNL →
  restricts (k2mm_distr_A NI lNI lNKa pi pj) (k2mm_shmem_A NI NK) pi pj lNI lNKa
  ∧ restricts (k2mm_distr_B NJ lNJ lNKb pi pj) (k2mm_shmem_B NJ NK) pi pj lNKb lNJ
  ∧ restricts (k2mm_distr_C NL lNJx lNL pi pj) (k2mm_shmem_C NJ NL) pi pj lNJx lNL
  ∧ restricts (k2mm_distr_D NK lNI lNL pi pj) (k2mm_shmem_D NI NK NL) pi pj lNI lNL.
Proof.
  intros H0 H1 H2 H3 H4 H5 H6 H7 H8 H9 H10 H11 H12 H13.
  split; [ unfold k2mm_distr_A, k2mm_shmem_A; by apply (restricts_ff2 _ _ Px Py) | ].
  split; [ unfold k2mm_distr_B, k2mm_shmem_B; by apply (restricts_ff2 _ _ Px Py) | ].
  split; [ unfold k2mm_distr_C, k2mm_shmem_C; by apply (restricts_ff2 _ _ Px Py) | ].
  unfold k2mm_distr_D, k2mm_shmem_D; by apply (restricts_ff2 _ _ Px Py).
Qed.

Lemma k2mm_blocks_restrict_witness :
  restricts (k2mm_distr_A 8 2 4 3 1) (k2mm_shmem_A 8 8) 3 1 2 4
  ∧ restricts (k2mm_distr_B 4 2 2 3 1) (k2mm_shmem_B 4 8) 3 1 2 2
  ∧ restricts (k2mm_distr_C 6 1 3 3 1) (k2mm_shmem_C 4 6) 3 1 1 3
  ∧ restricts (k2mm_distr_D 8 2 3 3 1) (k2mm_shmem_D 8 8 6) 3 1 2 3.
Proof.
  apply (k2mm_blocks_restrict 4 2 8 4 8 6 2 2 1 4 2 3 3 1); lia.
Defined.


(** X14. With exact division every block of [mvt_distr_init] holds the values
    of [mvt_shmem_init] at the global indices its rank owns: the four vectors
    by [pj], [A] by [(pi, pj)]. *)
Theorem mvt_blocks_restrict (Px Py N lM lN lMy pi pj : Z) :
  0 ≤ pi < Px →
  0 ≤ pj < Py →
  0 ≤ lM →
  0 ≤ lN →
  0 ≤ lMy →
  N = Px * lM →
  N = Py * lN →
  N = Py * lMy →
  restricts1 (mvt_distr_x1 N lMy pj) (mvt_shmem_x1 N) pj lMy
  ∧ restricts1 (mvt_distr_x2 N lN pj) (mvt_shmem_x2 N) pj lN
  ∧ restricts1 (mvt_distr_y_1 N lN pj) (mvt_shmem_y_1 N) pj lN
  ∧ restricts1 (mvt_distr_y_2 N lMy pj) (mvt_shmem_y_2 N) pj lMy
  ∧ restricts (mvt_distr_A N lM lN pi pj) (mvt_shmem_A N) pi pj lM lN.
Proof.
  intros H0 H1 H2 H3 H4 H5 H6 H7.
  split; [ unfold mvt_distr_x1, mvt_shmem_x1; by apply (restricts_ff1 _ _ Py) | ].
  split; [ unfold mvt_distr_x2, mvt_shmem_x2; by apply (restricts_ff1 _ _ Py) | ].
  split; [ unfold mvt_distr_y_1, mvt_shmem_y_1; by apply (restricts_ff1 _ _ Py) | ].
  split; [ unfold mvt_distr_y_2, mvt_shmem_y_2; by apply (restricts_ff1 _ _ Py) | ].
  unfold mvt_distr_A, mvt_shmem_A; by apply (restricts_ff2 _ _ Px Py).
Qed.

Lemma mvt_blocks_restrict_witness :
  restricts1 (mvt_distr_x1 8 2 2) (mvt_shmem_x1 8) 2 2
  ∧ restricts1 (mvt_distr_x2 8 2 2) (mvt_shmem_x2 8) 2 2
  ∧ restricts1 (mvt_distr_y_1 8 2 2) (mvt_shmem_y_1 8) 2 2
  ∧ restricts1 (mvt_distr_y_2 8 2 2) (mvt_shmem_y_2 8) 2 2
  ∧ restricts (mvt_distr_A 8 4 2 1 2) (mvt_shmem_A 8) 1 2 4 2.
Proof.
  apply (mvt_blocks_restrict 2 4 8 4 2 2 1 2); lia.
Defined.


(** X15. With exact division the block of [A] that [doitgen_distr_init] creates
    for rank [p] holds the planes [p*lR .. p*lR + lR - 1] of the array of
    [doitgen_shmem_init], and [C4] is the same array on every rank. *)
Theorem doitgen_blocks_restrict (P NR NQ NP lR p : Z) :
  0 ≤ p < P →
  0 ≤ lR →
  NR = P * lR →
  restricts3 (doitgen_distr_A NQ NP lR p) (doitgen_shmem_A NR NQ NP) p lR NQ NP
  ∧ doitgen_distr_C4 NP = doitgen_shmem_C4 NP.
Proof.
  intros H0 H1 H2.
  split; [ unfold doitgen_distr_A, doitgen_shmem_A; by apply (restricts_ff3 _ _ P) | ].
  reflexivity.
Qed.

Lemma doitgen_blocks_restrict_witness :
  restricts3 (doitgen_distr_A 2 2 2 2) (doitgen_shmem_A 6 2 2) 2 2 2 2
  ∧ doitgen_distr_C4 2 = doitgen_shmem_C4 2.
Proof.
  apply (doitgen_blocks_restrict 3 6 2 2 2 2); lia.
Defined.

(** X16. With exact division the blocks of [A] and [x] that
    [atax_distr_init] creates hold the values of [atax_shmem_init] at the
    global indices their rank owns; [x] is split over the columns of the
    grid. *)
Theorem atax_init_blocks (Px Py M N lM lN pi pj : Z) :
  0 ≤ pi < Px → 0 ≤ pj < Py → 0 ≤ lM → 0 ≤ lN →
  M = Px * lM → N = Py * lN →
  restricts (atax_distr_A M N lM lN pi pj) (atax_shmem_A M N) pi pj lM lN
  ∧ restricts1 (atax_distr_x N lN pj) (atax_shmem_x N) pj lN.
Proof.
  intros Hpi Hpj HlM HlN HM HN. split.
  - unfold atax_distr_A, atax_shmem_A. by apply (restricts_ff2 _ _ Px Py).
  - unfold atax_distr_x, atax_shmem_x. by apply (restricts_ff1 _ _ Py).
Qed.

Lemma atax_init_blocks_witness :
  restricts (atax_distr_A 8 6 2 3 3 1) (atax_shmem_A 8 6) 3 1 2 3
  ∧ restricts1 (atax_distr_x 6 3 1) (atax_shmem_x 6) 1 3.
Proof. apply (atax_init_blocks 4 2 8 6 2 3 3 1); lia. Defined.

(** X17. With exact division the blocks of [A], [C] and [D] that
    [k3mm_distr_init] creates hold the values of [k3mm_shmem_init] at the
    global indices their rank owns, and so does the block of [B] when the
    two splits of [NK] agree ([lNKa = lNKb], as on a square grid). *)
Theorem k3mm_init_blocks
    (Px Py NI NJ NK NM NL lNI lNJ lNJx lNKa lNKb lNMx lNMy lNL pi pj : Z) :
  0 ≤ pi < Px → 0 ≤ pj < Py →
  0 ≤ lNI → 0 ≤ lNJ → 0 ≤ lNJx → 0 ≤ lNKa → 0 ≤ lNKb → 0 ≤ lNMx → 0 ≤ lNMy →
  0 ≤ lNL →
  NI = Px * lNI → NJ = Py * lNJ → NJ = Px * lNJx → NK = Py * lNKa →
  NK = Px * lNKb → NM = Px * lNMx → NM = Py * lNMy → NL = Py * lNL →
  restricts (k3mm_distr_A NI lNI lNKa pi pj) (k3mm_shmem_A NI NK) pi pj lNI lNKa
  ∧ restricts (k3mm_distr_C NL lNJx lNMy pi pj) (k3mm_shmem_C NJ NM NL)
              pi pj lNJx lNMy
  ∧ restricts (k3mm_distr_D NK lNMx lNL pi pj) (k3mm_shmem_D NK NM NL)
              pi pj lNMx lNL
  ∧ (lNKa = lNKb →
     restricts (k3mm_distr_B NJ lNJ lNKa lNKb pi pj) (k3mm_shmem_B NJ NK)
               pi pj lNKb lNJ).
Proof.
  intros Hpi Hpj ? ? ? ? ? ? ? ? HNI HNJ HNJx HNKa HNKb HNMx HNMy HNL.
  split; [ unfold k3mm_distr_A, k3mm_shmem_A; by apply (restricts_ff2 _ _ Px Py) | ].
  split; [ unfold k3mm_distr_C, k3mm_shmem_C; by apply (restricts_ff2 _ _ Px Py) | ].
  split; [ unfold k3mm_distr_D, k3mm_shmem_D; by apply (restricts_ff2 _ _ Px Py) | ].
  intros ->. unfold k3mm_distr_B, k3mm_shmem_B. by apply (restricts_ff2 _ _ Px Py).
Qed.

Lemma k3mm_init_blocks_witness :
  restricts (k3mm_distr_A 4 2 3 1 0) (k3mm_shmem_A 4 6) 1 0 2 3
  ∧ restricts (k3mm_distr_C 4 4 3 1 0) (k3mm_shmem_C 8 6 4) 1 0 4 3
  ∧ restricts (k3mm_distr_D 6 3 2 1 0) (k3mm_shmem_D 6 6 4) 1 0 3 2
  ∧ (3 = 3 →
     restricts (k3mm_distr_B 8 4 3 3 1 0) (k3mm_shmem_B 8 6) 1 0 3 4).
Proof. apply (k3mm_init_blocks 2 2 4 8 6 6 4 2 4 4 3 3 3 3 2 1 0); lia. Defined.

(** X18. [time_to_ms] returns an integer nearest to the binary64 product
    [raw * 1000], the even one when the product lies half way between two
    integers; it therefore never reverses the order of two products. *)
Theorem time_to_ms_monotone (a b : float) (va vb : Q) :
  to_Q (a * 1000)%float = Some va → to_Q (b * 1000)%float = Some vb →
  (va <= vb)%Q →
  ∃ na nb : Z,
    time_to_ms a = inr na ∧ time_to_ms b = inr nb ∧ na ≤ nb
    ∧ (inject_Z na - (1 # 2) <= va <= inject_Z na + (1 # 2))%Q
    ∧ ((va == inject_Z na + (1 # 2) ∨ va == inject_Z na - (1 # 2))%Q →
       Z.even na = true).
Proof.
  intros Ha Hb Hle. unfold time_to_ms.
  destruct (py_round_nearest _ _ Ha) as (na & Hna & Hba & Hta).
  destruct (py_round_nearest _ _ Hb) as (nb & Hnb & Hbb & Htb).
  exists na, nb. split; [ done | ]. split; [ done | ].
  split; [ | by split ].
  destruct (Z_le_gt_dec na nb) as [ | Hgt ]; [ done | exfalso ].
  assert (inject_Z nb + 1 <= inject_Z na)%Q as Hstep.
  { change 1%Q with (inject_Z 1). rewrite <- inject_Z_plus, <- Zle_Qle. lia. }
  assert (va == inject_Z na - (1 # 2))%Q as Hea by (apply Qle_antisym; lra).
  assert (vb == inject_Z nb + (1 # 2))%Q as Heb by (apply Qle_antisym; lra).
  assert (inject_Z na <= inject_Z nb + 1)%Q as Hstep' by lra.
  change 1%Q with (inject_Z 1) in Hstep'.
  rewrite <- inject_Z_plus, <- Zle_Qle in Hstep'.
  assert (na = nb + 1) as -> by lia.
  specialize (Hta (or_intror Hea)). specialize (Htb (or_introl Heb)).
  rewrite Z.even_add, Htb in Hta. done.
Qed.

Lemma time_to_ms_monotone_witness :
  ∃ na nb : Z,
    time_to_ms 0x1.0624dd2f1a9fcp-11 = inr na ∧ time_to_ms 0.125 = inr nb ∧ na ≤ nb
    ∧ (inject_Z na - (1 # 2) <= 4503599627370496 # 9007199254740992
       <= inject_Z na + (1 # 2))%Q
    ∧ ((4503599627370496 # 9007199254740992 == inject_Z na + (1 # 2)
        ∨ 4503599627370496 # 9007199254740992 == inject_Z na - (1 # 2))%Q →
       Z.even na = true).
Proof.
  apply (time_to_ms_monotone 0x1.0624dd2f1a9fcp-11 0.125
           (4503599627370496 # 9007199254740992)
           (8796093022208000 # 70368744177664));
    [ reflexivity | reflexivity | by vm_compute ].
Defined.

Import Trace.

(** X19. Every entry point but [gemm] runs the same protocol up to its first
    call, on every grid and for every size: each rank passes three barriers
    and calls the program once, between the last two of them; rank 0
    compiles the program once, before its first barrier, and loads nothing;
    every other rank compiles and prints nothing and loads the library
    once, after its first barrier. *)
Theorem build_protocol (k : kernel) (g : Z * Z) (rank n : Z) (s : sizes_of k) :
  k ≠ Gemm → 0 ≤ rank →
  let t := (body k g rank n s).1 in
  count is_barrier t = 3%nat
  ∧ count is_invoke t = 1%nat
  ∧ (∃ prog kwargs,
       drop (length t - 3) t = [Barrier; Invoke prog kwargs; Barrier])
  ∧ (rank = 0 →
       count is_compile t = 1%nat ∧ count is_load t = 0%nat
       ∧ ∃ i j, first_index is_compile t = Some i
                ∧ first_index is_barrier t = Some j ∧ (i < j)%nat)
  ∧ (0 < rank →
       count is_compile t = 0%nat ∧ count is_print t = 0%nat
       ∧ count is_load t = 1%nat
       ∧ ∃ i j, first_index is_barrier t = Some i
                ∧ first_index is_load t = Some j ∧ (i < j)%nat).
Proof.
  intros Hk Hrank.
  destruct k; try congruence; simpl in *;
    repeat match goal with
    | x : (_ * _)%type |- _ => destruct x
    end;
    unfold atax_body, bicg_body, doitgen, gemver_body, gesummv_body,
      k2mm_body, k3mm_body, mvt_body, jacobi_1d, jacobi_2d_body, heat_3d_body,
      banner, build_stencil, build, when;
    destruct (Z.eqb_spec rank 0) as [Hz | Hne], (Z.ltb_spec 0 rank) as [Hpos | Hnp];
    try lia;
    (split; [ reflexivity | ]; split; [ reflexivity | ];
     split; [ eexists _, _; reflexivity | ];
     split; intros H; try lia;
     repeat (split; [ reflexivity | ]);
     eexists _, _; (split; [ reflexivity | split; [ reflexivity | lia ] ])).
Qed.

Lemma build_protocol_witness :
  let t := (body Jacobi_2d (2, 4) 5 8 (10, 64)).1 in
  count is_barrier t = 3%nat
  ∧ count is_invoke t = 1%nat
  ∧ (∃ prog kwargs,
       drop (length t - 3) t = [Barrier; Invoke prog kwargs; Barrier])
  ∧ (5 = 0 →
       count is_compile t = 1%nat ∧ count is_load t = 0%nat
       ∧ ∃ i j, first_index is_compile t = Some i
                ∧ first_index is_barrier t = Some j ∧ (i < j)%nat)
  ∧ (0 < 5 →
       count is_compile t = 0%nat ∧ count is_print t = 0%nat
       ∧ count is_load t = 1%nat
       ∧ ∃ i j, first_index is_barrier t = Some i
                ∧ first_index is_load t = Some j ∧ (i < j)%nat).
Proof. apply (build_protocol Jacobi_2d (2, 4) 5 8 (10, 64)); [ done | lia ]. Defined.

Import Collect.

Section CollectProps.
Context {V : Type}.

Lemma set_slice_fill (done vs : list V) (m lo lN : nat) :
  length done = lo → length vs = lN → (lN ≤ m)%nat →
  set_slice ((Some <$> done) ++ replicate m None) lo (lo + lN) vs
  = inr ((Some <$> (done ++ vs)) ++ replicate (m - lN) None).
Proof.
  intros Hd Hv Hm. unfold set_slice.
  rewrite length_app, length_fmap, length_replicate, Hd.
  rewrite (Nat.min_l lo) by lia. rewrite (Nat.min_l (lo + lN)) by lia.
  replace (lo + lN - lo)%nat with lN by lia.
  rewrite decide_True by done.
  rewrite take_app_length' by (by rewrite length_fmap).
  rewrite drop_app_add' by (by rewrite length_fmap).
  rewrite drop_replicate, fmap_app, <- app_assoc. done.
Qed.

Lemma recv_row (Py : nat) (world : list (list V)) (buf b : list V) (i : nat) :
  (0 < i < Py)%nat → world !! i = Some b → length b = length buf →
  recv Py world buf i i = inr b.
Proof.
  intros Hi Hb Hl. unfold recv, sent. rewrite Hb.
  rewrite Nat.div_small, Nat.mod_small by lia.
  rewrite decide_False by lia. rewrite decide_True by done.
  rewrite decide_True by done. rewrite decide_True by lia.
  rewrite drop_ge by lia. by rewrite app_nil_r.
Qed.

Lemma collect_loop_from (Py N : nat) (world : list (list V)) (n j : nat)
    (buf : list V) :
  (1 ≤ j)%nat → (j + n ≤ Py)%nat → (Py ≤ length world)%nat →
  Forall (λ b, length b = (N / Py)%nat) world →
  length buf = (N / Py)%nat →
  collect_loop Py (N / Py) 0 world
    ((Some <$> mjoin (take j world)) ++ replicate (N - j * (N / Py)) None, buf)
    (seq j n)
  = inr ((Some <$> mjoin (take (j + n) world))
           ++ replicate (N - (j + n) * (N / Py)) None,
         if decide (n = 0%nat) then buf else default [] (world !! (j + n - 1)%nat)).
Proof.
  revert j buf. induction n as [|n IH]; intros j buf Hj Hjn HPy Hw Hbuf.
  - simpl. by rewrite Nat.add_0_r.
  - simpl. unfold collect_step. rewrite decide_False by lia. cbn [fst snd].
    destruct (lookup_lt_is_Some_2 world j) as [b Hb]; [ lia | ].
    assert (length b = (N / Py)%nat) as Hlb
      by (eapply (proj1 (Forall_lookup _ _) Hw); exact Hb).
    rewrite (recv_row Py world buf b j) by (done || lia).
    assert (length (mjoin (take j world)) = (j * (N / Py))%nat) as Hdone.
    { rewrite length_join, (sum_list_fmap_same (N / Py)).
      - rewrite length_take. lia.
      - by apply Forall_take. }
    assert (Py * (N / Py) ≤ N)%nat as HN by (apply Nat.Div0.mul_div_le).
    assert ((j + 1) * (N / Py) ≤ Py * (N / Py))%nat as Hle
      by (apply Nat.mul_le_mono_r; lia).
    replace ((j + 1) * (N / Py))%nat with (j * (N / Py) + N / Py)%nat by lia.
    rewrite set_slice_fill by (done || lia).
    replace (mjoin (take j world) ++ b) with (mjoin (take (S j) world)).
    2:{ rewrite (take_S_r _ _ _ Hb), join_app. simpl. by rewrite app_nil_r. }
    replace (N - j * (N / Py) - N / Py)%nat with (N - S j * (N / Py))%nat by lia.
    rewrite (IH (S j) b) by (done || lia).
    replace (S j + n)%nat with (j + S n)%nat by lia.
    f_equal. f_equal.
    destruct (decide (n = 0%nat)) as [-> | Hn]; [ | done ].
    replace (j + 1 - 1)%nat with j by lia. by rewrite Hb.
Qed.

Lemma sent_received (Py rank : nat) (ly : list V) (dest tag : nat) (msg : list V) :
  sent Py rank ly = Some (dest, tag, msg) →
  dest = 0%nat ∧ tag = rank ∧ (0 < rank)%nat ∧ (rank / Py = 0)%nat ∧ msg = ly.
Proof.
  unfold sent. intros H.
  destruct (decide (rank = 0%nat)); [ done | ].
  destruct (decide (rank / Py = 0)%nat) as [Hq | ]; [ | done ].
  injection H as <- <- <-.
  pose proof (Nat.div_mod_eq rank Py) as Hdm. rewrite Hq in Hdm.
  repeat split; try done; lia.
Qed.

(** X20. The validation block of [atax] collects on rank 0 the blocks of [y]
    of the first row of the grid only, in rank order: the last [N % Py]
    cells of the array stay uninitialised, no rank of another row sends, and
    the buffer [ly] of rank 0 ends up holding the block of the last rank of
    the row. *)
Theorem atax_collect_first_row (Px Py N : nat) (world : list (list V)) :
  (0 < Px)%nat → (0 < Py)%nat → length world = (Px * Py)%nat →
  Forall (λ b, length b = (N / Py)%nat) world →
  atax_collect Py N world
  = inr ((Some <$> mjoin (take Py world)) ++ replicate (N mod Py) None,
         default [] (world !! (Py - 1)%nat))
  ∧ ∀ (rank : nat) (ly : list V), (Py ≤ rank)%nat → sent Py rank ly = None.
Proof.
  intros HPx HPy Hlen Hw. split.
  - unfold atax_collect. rewrite Nat.Div0.mod_0_l.
    destruct world as [|ly0 world']; [ simpl in Hlen; nia | ].
    assert (length ly0 = (N / Py)%nat) as Hl0 by (by inversion Hw).
    assert (Py * (N / Py) ≤ N)%nat as HN by (apply Nat.Div0.mul_div_le).
    pose proof (set_slice_fill [] ly0 N 0 (N / Py) eq_refl Hl0 ltac:(nia)) as Hfill.
    simpl in Hfill. rewrite Hfill.
    destruct Py as [|Py']; [ lia | ].
    cbn [seq collect_loop]. unfold collect_step at 1. rewrite decide_True by done.
    pose proof (collect_loop_from (S Py') N (ly0 :: world') Py' 1 ly0) as Hloop.
    simpl take in Hloop. rewrite take_0 in Hloop. simpl mjoin in Hloop.
    rewrite app_nil_r, Nat.mul_1_l in Hloop.
    rewrite Hloop; [ | lia | lia | rewrite Hlen; nia | done | done ].
    f_equal. f_equal.
    + replace (1 + Py')%nat with (S Py') by lia. do 2 f_equal.
      pose proof (Nat.div_mod_eq N (S Py')). lia.
    + replace (S Py' - 1)%nat with Py' by lia.
      destruct (decide (Py' = 0%nat)) as [-> | Hne]; [ done | ].
      by replace (1 + Py' - 1)%nat with Py' by lia.
  - intros rank ly Hr. destruct (sent Py rank ly) as [[[d t] m]|] eqn:E; [ | done ].
    apply sent_received in E as (_ & _ & _ & Hq & _).
    apply Nat.div_small_iff in Hq; lia.
Qed.
End CollectProps.

Lemma atax_collect_first_row_witness :
  atax_collect 2 5 [[10; 11]; [20; 21]; [30; 31]; [40; 41]]
  = inr ((Some <$> mjoin (take 2 [[10; 11]; [20; 21]; [30; 31]; [40; 41]]))
           ++ replicate (5 mod 2) None,
         default [] ([[10; 11]; [20; 21]; [30; 31]; [40; 41]] !! (2 - 1)%nat))
  ∧ ∀ rank (ly : list Z), (2 ≤ rank)%nat → sent 2 rank ly = None.
Proof.
  apply (atax_collect_first_row 2 2 5 [[10; 11]; [20; 21]; [30; 31]; [40; 41]]);
    [ lia | lia | reflexivity | repeat constructor ].
Defined.

Import StencilInit.

Section ReadWrite.
Context {V : Type}.

Lemma read_write (buf : list V) (reg : list nat) (vs : list V) :
  NoDup reg → length vs = length reg →
  Forall (λ j, j < length buf)%nat reg →
  read (write buf reg vs) reg = Some vs.
Proof.
  intros Hnd Hlen Hin. unfold read. apply mapM_Some_2.
  apply Forall2_same_length_lookup_2; [ done | ].
  intros i k v Hk Hv. by rewrite (write_lookup_in buf reg vs i k).
Qed.
End ReadWrite.

Lemma inner_pad (n : nat) : inner (n + 2) = seq 1 n.
Proof.
  unfold inner. rewrite py_index_1, py_index_m1. f_equal. lia.
Qed.

Lemma zeros1_lookup (n : Z) (k : nat) :
  (k < Z.to_nat n)%nat → data (zeros1 n) !! k = Some 0%Q.
Proof.
  intros Hk. unfold zeros1, fromfunction1. simpl.
  rewrite list_lookup_fmap, lookup_seqZ_lt by lia. done.
Qed.

Lemma zeros1_length (n : Z) : length (data (zeros1 n)) = Z.to_nat n.
Proof. unfold zeros1, fromfunction1. simpl. by rewrite length_fmap, length_seqZ. Qed.

Lemma seqZ_blocks (P l : Z) :
  0 ≤ P → 0 ≤ l →
  seqZ 0 (P * l) = seqZ 0 P ≫= (λ p, (λ i, l2g i p l) <$> seqZ 0 l).
Proof.
  intros HP Hl. apply list_eq_same_length with (Z.to_nat (P * l)).
  - rewrite (bind_seqZ_length _ (Z.to_nat l)); [ nia | ].
    intros k. by rewrite length_fmap, length_seqZ.
  - by rewrite length_seqZ.
  - intros n x y Hn Hx Hy.
    apply lookup_seqZ in Hx as [-> _].
    assert (0 < l) as Hl' by nia.
    assert (Z.of_nat n = Z.of_nat n / l * l + Z.of_nat n mod l) as Hdm
      by (pose proof (Z.div_mod (Z.of_nat n) l); lia).
    pose proof (Z.mod_pos_bound (Z.of_nat n) l Hl') as Hm.
    assert (0 ≤ Z.of_nat n / l < P) as Hq.
    { split; [ apply Z.div_pos; lia | apply Z.div_lt_upper_bound; nia ]. }
    replace n with (Z.to_nat (Z.of_nat n / l) * Z.to_nat l
                    + Z.to_nat (Z.of_nat n mod l))%nat in Hy by nia.
    rewrite (bind_seqZ_lookup _ (Z.to_nat l)) in Hy;
      [ | intros k; by rewrite length_fmap, length_seqZ | done | lia ].
    rewrite list_lookup_fmap, lookup_seqZ_lt in Hy by lia.
    simpl in Hy. injection Hy as <-. unfold l2g. lia.
Qed.
Lemma mapM_exists {A B : Type} (f : A → option B) (Q : A → B → Prop) (l : list A) :
  (∀ x, x ∈ l → ∃ y, f x = Some y ∧ Q x y) →
  ∃ k, mapM f l = Some k ∧ Forall2 Q l k.
Proof.
  induction l as [|x l IH]; intros H.
  - exists []. by split; [ | constructor ].
  - destruct (H x ltac:(left)) as (y & Hy & HQ).
    destruct IH as (k & Hk & HF); [ intros z Hz; apply H; by right | ].
    exists (y :: k). split; [ | by constructor ].
    simpl. rewrite Hy. simpl. rewrite Hk. done.
Qed.

Lemma fmap_bind_list {A B C : Type} (f : B → C) (g : A → list B) (l : list A) :
  f <$> (l ≫= g) = l ≫= (λ x, f <$> g x).
Proof.
  induction l as [|x l IH]; [ done | ].
  csimpl. by rewrite fmap_app, IH.
Qed.

Lemma join_fmap_bind {A B : Type} (g : A → list B) (l : list A) :
  mjoin (g <$> l) = l ≫= g.
Proof. induction l as [|x l IH]; [ done | ]. csimpl. by rewrite IH. Qed.

Lemma set_inner1_pad (g : Z → Q) (lN : Z) :
  0 ≤ lN →
  ∃ A, set_inner1 (zeros1 (lN + 2)) (fromfunction1 g lN) = Some A
    ∧ shape A = [lN + 2]
    ∧ get1 A 0 = Some 0%Q ∧ get1 A (lN + 1) = Some 0%Q
    ∧ (∀ i, 0 ≤ i < lN → get1 A (i + 1) = Some (g i))
    ∧ get_inner1 A = Some (fromfunction1 g lN).
Proof.
  intros HlN. unfold set_inner1. cbn [shape zeros1 fromfunction1].
  replace (Z.to_nat (lN + 2)) with (Z.to_nat lN + 2)%nat by lia.
  rewrite inner_pad, length_seq, Z2Nat.id by lia.
  rewrite decide_True by done. eexists. split; [ reflexivity | ].
  fold (zeros1 (lN + 2)).
  assert (length (g <$> seqZ 0 lN) = length (seq 1 (Z.to_nat lN))) as Hlen
    by (by rewrite length_fmap, length_seqZ, length_seq).
  assert (Forall (λ j, j < length (data (zeros1 (lN + 2))))%nat (seq 1 (Z.to_nat lN)))
    as Hin by (rewrite zeros1_length; apply Forall_seq; lia).
  split; [ done | ]. unfold get1, get_inner1. cbn [shape data].
  split; [ | split; [ | split ] ].
  - rewrite bool_decide_eq_true_2 by lia.
    rewrite write_lookup_notin by (rewrite elem_of_seq; simpl; lia).
    apply zeros1_lookup. lia.
  - rewrite bool_decide_eq_true_2 by lia.
    rewrite write_lookup_notin by (rewrite elem_of_seq; lia).
    apply zeros1_lookup. lia.
  - intros i Hi. rewrite bool_decide_eq_true_2 by lia.
    rewrite (write_lookup_in _ _ _ (Z.to_nat i) (Z.to_nat (i + 1)));
      [ | apply NoDup_seq | done | done | rewrite lookup_seq_lt by lia; f_equal; lia ].
    unfold fromfunction1. cbn [data].
    rewrite list_lookup_fmap, lookup_seqZ_lt by lia. simpl. do 2 f_equal. lia.
  - replace (Z.to_nat (lN + 2)) with (Z.to_nat lN + 2)%nat by lia.
    rewrite inner_pad, length_seq, Z2Nat.id by lia.
    rewrite read_write; [ done | apply NoDup_seq | done | done ].
Qed.

Lemma init1_gather (f : Z → Q) (P N : Z) :
  0 < P → 0 ≤ N → N mod P = 0 →
  ∃ w, mapM (λ p, set_inner1 (zeros1 (N / P + 2))
                    (fromfunction1 (λ i, f (l2g i p (N / P))) (N / P)))
            (seqZ 0 P) = Some w
    ∧ length w = Z.to_nat P
    ∧ Forall (λ A, shape A = [N / P + 2] ∧ get1 A 0 = Some 0%Q
                   ∧ get1 A (N / P + 1) = Some 0%Q) w
    ∧ jacobi_1d_gather N w = Some (fromfunction1 f N).
Proof.
  intros HP HN Hmod.
  assert (0 ≤ N / P) as HlN by (apply Z.div_pos; lia).
  assert (N = P * (N / P)) as HNP by (pose proof (Z.div_mod N P); lia).
  set (lN := N / P) in *.
  set (ff := λ p, fromfunction1 (λ i, f (l2g i p lN)) lN).
  destruct (mapM_exists
              (λ p, set_inner1 (zeros1 (lN + 2)) (ff p))
              (λ p A, (shape A = [lN + 2] ∧ get1 A 0 = Some 0%Q
                       ∧ get1 A (lN + 1) = Some 0%Q)
                      ∧ get_inner1 A = Some (ff p))
              (seqZ 0 P)) as (w & Hw & HF).
  { intros p _. destruct (set_inner1_pad (λ i, f (l2g i p lN)) lN HlN)
      as (A & HA & H1 & H2 & H3 & _ & H5). by exists A. }
  exists w. split; [ exact Hw | ].
  split; [ apply Forall2_length in HF; by rewrite <- HF, length_seqZ | ].
  split.
  { eapply Forall2_Forall_r; [ exact HF | ].
    apply Forall_forall. intros p _ A [HA _]. exact HA. }
  unfold jacobi_1d_gather.
  assert (mapM get_inner1 w = Some (ff <$> seqZ 0 P)) as ->.
  { apply mapM_Some_2, Forall2_fmap_r, Forall2_flip.
    eapply Forall2_impl; [ exact HF | ]. intros p A [_ HA]. exact HA. }
  cbn [mbind option_bind]. unfold gather.
  rewrite <- list_fmap_compose, join_fmap_bind.
  assert (seqZ 0 P ≫= data ∘ ff = f <$> seqZ 0 N) as ->.
  { replace (seqZ 0 N) with (seqZ 0 (P * lN)) by (by rewrite <- HNP).
    rewrite seqZ_blocks, fmap_bind_list by lia.
    apply list_bind_ext; [ | done ]. intros p. unfold ff, fromfunction1. simpl.
    by rewrite <- list_fmap_compose. }
  rewrite length_fmap, length_seqZ, Z2Nat.id by lia.
  by rewrite decide_True.
Qed.
Section ReassembleLookup.
Context {V : Type}.

Lemma reassemble_lookup (Px Py lM lN : nat) (C : list V) :
  length C = (Px * Py * lM * lN)%nat →
  ∃ G, reassemble Px Py lM lN (Px * lM) (Py * lN) C = Some G
       ∧ length G = (Px * lM * (Py * lN))%nat
       ∧ ∀ pi pj i j, (pi < Px)%nat → (pj < Py)%nat → (i < lM)%nat → (j < lN)%nat →
           G !! ((pi * lM + i) * (Py * lN) + (pj * lN + j))%nat
           = C !! (((pi * Py + pj) * lM + i) * lN + j)%nat.
Proof.
  intros HC.
  destruct (mapM_lookup_positions C (positions_0213 Px Py lM lN))
    as (T & HT & HlT & Hget).
  { rewrite HC. apply positions_0213_bound. }
  rewrite positions_0213_length in HlT.
  exists T. unfold reassemble, transpose_0213. rewrite HT. simpl.
  unfold reshape2. rewrite decide_True by lia.
  split; [ done | ]. split; [ lia | ].
  intros pi pj i j Hpi Hpj Hi Hj. apply Hget. by apply positions_0213_lookup.
Qed.
End ReassembleLookup.

Lemma interior_pad (m n : nat) :
  interior (m + 2) (n + 2)
  = seq 0 m ≫= (λ i, row_slice (n + 2) (S i) 1 (n + 1)).
Proof.
  unfold interior.
  by rewrite inner_pad, py_index_1, py_index_m1, <- fmap_S_seq, list_fmap_bind.
Qed.

Lemma interior_length (m n : nat) :
  length (interior (m + 2) (n + 2)) = (m * n)%nat.
Proof.
  rewrite interior_pad. apply bind_seq_length.
  intros i _. rewrite row_slice_length. lia.
Qed.

Lemma interior_lookup (m n i j : nat) :
  (i < m)%nat → (j < n)%nat →
  interior (m + 2) (n + 2) !! (i * n + j)%nat = Some (S i * (n + 2) + S j)%nat.
Proof.
  intros Hi Hj. rewrite interior_pad.
  rewrite (bind_seq_lookup _ n) by (done || (intros; rewrite row_slice_length; lia)).
  rewrite row_slice_lookup by lia. done.
Qed.

Lemma elem_of_interior (m n k : nat) :
  k ∈ interior (m + 2) (n + 2)
  ↔ ∃ i j, (i < m)%nat ∧ (j < n)%nat ∧ k = (S i * (n + 2) + S j)%nat.
Proof.
  rewrite interior_pad, list_elem_of_bind. split.
  - intros (i & Hk & Hi). apply elem_of_seq in Hi.
    apply elem_of_row_slice in Hk as (j & Hj & ->).
    exists i, (j - 1)%nat. split; [ lia | ]. split; [ lia | ].
    f_equal. lia.
  - intros (i & j & Hi & Hj & ->). exists i. split; [ | apply elem_of_seq; lia ].
    apply elem_of_row_slice. exists (S j). split; [ lia | done ].
Qed.

Lemma interior_NoDup (m n : nat) : NoDup (interior (m + 2) (n + 2)).
Proof.
  rewrite interior_pad. apply NoDup_bind.
  - intros i i' k _ _ Hk Hk'.
    apply elem_of_row_slice in Hk as (j & Hj & ->).
    apply elem_of_row_slice in Hk' as (j' & Hj' & He).
    apply cell_inj in He; lia.
  - intros i _. apply row_slice_NoDup.
  - apply NoDup_seq.
Qed.

Lemma interior_bound (m n : nat) :
  Forall (λ k, k < (m + 2) * (n + 2))%nat (interior (m + 2) (n + 2)).
Proof.
  apply Forall_forall. intros k (i & j & Hi & Hj & ->)%elem_of_interior.
  apply radix_lt; lia.
Qed.

Lemma zeros2_length (a b : Z) :
  length (data (zeros2 a b)) = (Z.to_nat a * Z.to_nat b)%nat.
Proof.
  unfold zeros2, fromfunction2. cbn [data]. apply bind_seqZ_length.
  intros k. by rewrite length_fmap, length_seqZ.
Qed.

Lemma zeros2_lookup (a b : Z) (k : nat) :
  (k < Z.to_nat a * Z.to_nat b)%nat → data (zeros2 a b) !! k = Some 0%Q.
Proof.
  intros Hk. rewrite <- zeros2_length in Hk.
  destruct (lookup_lt_is_Some_2 _ _ Hk) as [x Hx]. rewrite Hx. f_equal.
  apply list_elem_of_lookup_2 in Hx. unfold zeros2, fromfunction2 in Hx.
  cbn [data] in Hx. apply list_elem_of_bind in Hx as (i & Hx & _).
  by apply list_elem_of_fmap in Hx as (j & -> & _).
Qed.

Lemma fromfunction2_length (g : Z → Z → Q) (a b : Z) :
  length (data (fromfunction2 g a b)) = (Z.to_nat a * Z.to_nat b)%nat.
Proof.
  unfold fromfunction2. cbn [data]. apply bind_seqZ_length.
  intros k. by rewrite length_fmap, length_seqZ.
Qed.

Lemma fromfunction2_lookup (g : Z → Z → Q) (a b : Z) (i j : nat) :
  (i < Z.to_nat a)%nat → (j < Z.to_nat b)%nat →
  data (fromfunction2 g a b) !! (i * Z.to_nat b + j)%nat
  = Some (g (Z.of_nat i) (Z.of_nat j)).
Proof.
  intros Hi Hj. unfold fromfunction2. cbn [data].
  replace i with (Z.to_nat (Z.of_nat i)) at 1 by lia.
  rewrite (bind_seqZ_lookup _ (Z.to_nat b));
    [ | intros k; by rewrite length_fmap, length_seqZ | lia | done ].
  by rewrite list_lookup_fmap, lookup_seqZ_lt by lia.
Qed.

Lemma set_inner2_pad (g : Z → Z → Q) (lM lN : Z) :
  0 ≤ lM → 0 ≤ lN →
  ∃ A, set_inner2 (zeros2 (lM + 2) (lN + 2)) (fromfunction2 g lM lN) = Some A
    ∧ shape A = [lM + 2; lN + 2]
    ∧ (∀ i j, 0 ≤ i < lM + 2 → 0 ≤ j < lN + 2 →
         i = 0 ∨ i = lM + 1 ∨ j = 0 ∨ j = lN + 1 → get2 A i j = Some 0%Q)
    ∧ get_inner2 A = Some (fromfunction2 g lM lN).
Proof.
  intros HlM HlN. unfold set_inner2. cbn [shape zeros2 fromfunction2].
  replace (Z.to_nat (lM + 2)) with (Z.to_nat lM + 2)%nat by lia.
  replace (Z.to_nat (lN + 2)) with (Z.to_nat lN + 2)%nat by lia.
  rewrite !inner_pad, !length_seq, !Z2Nat.id by lia.
  rewrite decide_True by done. eexists. split; [ reflexivity | ].
  fold (zeros2 (lM + 2) (lN + 2)). fold (fromfunction2 g lM lN).
  split; [ done | ]. unfold get2, get_inner2. cbn [shape data].
  split.
  - intros i j Hi Hj Hedge. rewrite bool_decide_eq_true_2 by lia.
    replace (Z.to_nat (i * (lN + 2) + j))
      with (Z.to_nat i * (Z.to_nat lN + 2) + Z.to_nat j)%nat by nia.
    rewrite write_lookup_notin.
    + apply zeros2_lookup.
      replace (Z.to_nat (lN + 2)) with (Z.to_nat lN + 2)%nat by lia.
      apply radix_lt; lia.
    + intros (i' & j' & Hi' & Hj' & He)%elem_of_interior.
      apply cell_inj in He; lia.
  - replace (Z.to_nat (lM + 2)) with (Z.to_nat lM + 2)%nat by lia.
    replace (Z.to_nat (lN + 2)) with (Z.to_nat lN + 2)%nat by lia.
    rewrite !inner_pad, !length_seq, !Z2Nat.id by lia.
    rewrite read_write; [ done | apply interior_NoDup | | ].
    + by rewrite fromfunction2_length, interior_length.
    + rewrite zeros2_length.
      replace (Z.to_nat (lM + 2)) with (Z.to_nat lM + 2)%nat by lia.
      replace (Z.to_nat (lN + 2)) with (Z.to_nat lN + 2)%nat by lia.
      apply interior_bound.
Qed.
Lemma init2_gather (f : Z → Z → Q) (Px Py N : Z) :
  0 < Px → 0 < Py → 0 ≤ N → N mod Px = 0 → N mod Py = 0 →
  ∃ w, mapM (λ r, set_inner2 (zeros2 (N / Px + 2) (N / Py + 2))
                    (fromfunction2
                       (λ i j, f (l2g i (r / Py) (N / Px)) (l2g j (r mod Py) (N / Py)))
                       (N / Px) (N / Py)))
            (seqZ 0 (Px * Py)) = Some w
    ∧ Forall (λ A, shape A = [N / Px + 2; N / Py + 2]
                   ∧ ∀ i j, 0 ≤ i < N / Px + 2 → 0 ≤ j < N / Py + 2 →
                       i = 0 ∨ i = N / Px + 1 ∨ j = 0 ∨ j = N / Py + 1 →
                       get2 A i j = Some 0%Q) w
    ∧ jacobi_2d_gather Px Py N w = Some (fromfunction2 f N N).
Proof.
  intros HPx HPy HN Hmx Hmy.
  assert (0 ≤ N / Px) as HlM by (apply Z.div_pos; lia).
  assert (0 ≤ N / Py) as HlN by (apply Z.div_pos; lia).
  assert (N = Px * (N / Px)) as HNx by (pose proof (Z.div_mod N Px); lia).
  assert (N = Py * (N / Py)) as HNy by (pose proof (Z.div_mod N Py); lia).
  assert (Z.to_nat N / Z.to_nat Px = Z.to_nat (N / Px))%nat as Hdx
    by (by rewrite Z2Nat.inj_div by lia).
  assert (Z.to_nat N / Z.to_nat Py = Z.to_nat (N / Py))%nat as Hdy
    by (by rewrite Z2Nat.inj_div by lia).
  set (lM := N / Px) in *. set (lN := N / Py) in *.
  set (ff := λ r, fromfunction2
                    (λ i j, f (l2g i (r / Py) lM) (l2g j (r mod Py) lN)) lM lN).
  destruct (mapM_exists
              (λ r, set_inner2 (zeros2 (lM + 2) (lN + 2)) (ff r))
              (λ r A, (shape A = [lM + 2; lN + 2]
                       ∧ ∀ i j, 0 ≤ i < lM + 2 → 0 ≤ j < lN + 2 →
                           i = 0 ∨ i = lM + 1 ∨ j = 0 ∨ j = lN + 1 →
                           get2 A i j = Some 0%Q)
                      ∧ get_inner2 A = Some (ff r))
              (seqZ 0 (Px * Py))) as (w & Hw & HF).
  { intros r _.
    destruct (set_inner2_pad
                (λ i j, f (l2g i (r / Py) lM) (l2g j (r mod Py) lN)) lM lN HlM HlN)
      as (A & HA & H1 & H2 & H3). by exists A. }
  exists w. split; [ exact Hw | ]. split.
  { eapply Forall2_Forall_r; [ exact HF | ].
    apply Forall_forall. intros r _ A [HA _]. exact HA. }
  unfold jacobi_2d_gather.
  assert (mapM get_inner2 w = Some (ff <$> seqZ 0 (Px * Py))) as ->.
  { apply mapM_Some_2, Forall2_fmap_r, Forall2_flip.
    eapply Forall2_impl; [ exact HF | ]. intros r A [_ HA]. exact HA. }
  cbn [mbind option_bind]. unfold gather_validate. rewrite Hdx, Hdy.
  set (px := Z.to_nat Px). set (py := Z.to_nat Py).
  set (m := Z.to_nat lM). set (n := Z.to_nat lN).
  set (blocks := data <$> (ff <$> seqZ 0 (Px * Py))).
  assert (length blocks = (px * py)%nat) as Hlb
    by (unfold blocks; rewrite !length_fmap, length_seqZ; lia).
  assert (Forall (λ b, length b = (m * n)%nat) blocks) as Hfb.
  { unfold blocks. rewrite <- list_fmap_compose. apply Forall_fmap, Forall_forall.
    intros r _. apply fromfunction2_length. }
  rewrite decide_True by done.
  assert (length (gather blocks) = (px * py * m * n)%nat) as Hlg.
  { unfold gather. rewrite length_join, (sum_list_fmap_same (m * n)) by done. lia. }
  destruct (reassemble_lookup px py m n (gather blocks) Hlg)
    as (G & HG & HlG & Hget).
  assert (Z.to_nat N = (px * m)%nat) as HNm by lia.
  assert (Z.to_nat N = (py * n)%nat) as HNn by lia.
  assert (reassemble px py m n (Z.to_nat N) (Z.to_nat N) (gather blocks) = Some G)
    as -> by (rewrite HNm at 1; rewrite HNn; exact HG).
  cbn [mbind option_bind]. f_equal. unfold fromfunction2 at 1. f_equal.
  change (G = data (fromfunction2 f N N)).
  apply list_eq_same_length with (px * m * (py * n))%nat;
    [ rewrite fromfunction2_length; rewrite HNm at 1; by rewrite HNn | done | ].
  intros t x y Ht Hx Hy.
  destruct (radix_split t (px * m) (py * n) Ht) as (R & Cc & HR & HCc & ->).
  destruct (radix_split R px m HR) as (pi & i & Hpi & Hi & ->).
  destruct (radix_split Cc py n HCc) as (pj & j & Hpj & Hj & ->).
  rewrite Hget, gather_rank_order in Hx by done.
  unfold blocks in Hx.
  rewrite !list_lookup_fmap, lookup_seqZ_lt in Hx by nia.
  cbn [fmap option_fmap option_map mbind option_bind] in Hx.
  unfold ff in Hx. change (i * n + j)%nat with (i * Z.to_nat lN + j)%nat in Hx.
  rewrite fromfunction2_lookup in Hx by done.
  rewrite <- HNn in Hy. rewrite fromfunction2_lookup in Hy by lia.
  destruct (coords_of_cell Py (Z.of_nat pi) (Z.of_nat pj) HPy ltac:(lia)) as [Hq Hr].
  replace (0 + Z.of_nat (pi * py + pj)) with (Z.of_nat pi * Py + Z.of_nat pj) in Hx
    by lia.
  rewrite Hq, Hr in Hx. unfold l2g in Hx.
  replace (Z.of_nat i + Z.of_nat pi * lM) with (Z.of_nat (pi * m + i)) in Hx by lia.
  replace (Z.of_nat j + Z.of_nat pj * lN) with (Z.of_nat (pj * n + j)) in Hx by lia.
  congruence.
Qed.

(** X21. With [lN = N // P] and no remainder, [jacobi_1d_distr_init]
    succeeds on every rank with buffers of [lN + 2] cells whose two ghost
    cells are zero, and gathering the interiors of the blocks of all ranks,
    as the validation block does, gives exactly the arrays of
    [jacobi_1d_shmem_init]. *)
Theorem jacobi_1d_init_gather (P N : Z) :
  0 < P → 0 ≤ N → N mod P = 0 →
  ∃ wA wB,
    mapM (jacobi_1d_distr_A N (N / P)) (seqZ 0 P) = Some wA
    ∧ mapM (jacobi_1d_distr_B N (N / P)) (seqZ 0 P) = Some wB
    ∧ Forall (λ A, shape A = [N / P + 2] ∧ get1 A 0 = Some 0%Q
                   ∧ get1 A (N / P + 1) = Some 0%Q) (wA ++ wB)
    ∧ jacobi_1d_gather N wA = Some (jacobi_1d_shmem_A N)
    ∧ jacobi_1d_gather N wB = Some (jacobi_1d_shmem_B N).
Proof.
  intros HP HN Hmod.
  destruct (init1_gather (λ i, fdiv (i + 2) N) P N HP HN Hmod)
    as (wA & HA & _ & HFA & HgA).
  destruct (init1_gather (λ i, fdiv (i + 3) N) P N HP HN Hmod)
    as (wB & HB & _ & HFB & HgB).
  exists wA, wB. split; [ exact HA | ]. split; [ exact HB | ].
  split; [ by apply Forall_app | ]. by split.
Qed.

Lemma jacobi_1d_init_gather_witness :
  ∃ wA wB,
    mapM (jacobi_1d_distr_A 6 (6 / 3)) (seqZ 0 3) = Some wA
    ∧ mapM (jacobi_1d_distr_B 6 (6 / 3)) (seqZ 0 3) = Some wB
    ∧ Forall (λ A, shape A = [6 / 3 + 2] ∧ get1 A 0 = Some 0%Q
                   ∧ get1 A (6 / 3 + 1) = Some 0%Q) (wA ++ wB)
    ∧ jacobi_1d_gather 6 wA = Some (jacobi_1d_shmem_A 6)
    ∧ jacobi_1d_gather 6 wB = Some (jacobi_1d_shmem_B 6).
Proof. apply (jacobi_1d_init_gather 3 6); [ lia | lia | reflexivity ]. Defined.

(** X22. With [lM = N // Px], [lN = N // Py] and no remainder,
    [jacobi_2d_distr_init] succeeds on every rank of the grid with buffers
    of shape [(lM + 2, lN + 2)] whose border cells are zero, and gathering
    and reassembling the interiors of the blocks of all ranks, as the
    validation block does, gives exactly the arrays of
    [jacobi_2d_shmem_init]. *)
Theorem jacobi_2d_init_gather (Px Py N : Z) :
  0 < Px → 0 < Py → 0 ≤ N → N mod Px = 0 → N mod Py = 0 →
  let lM := N / Px in
  let lN := N / Py in
  let border (A : array) :=
    shape A = [lM + 2; lN + 2]
    ∧ ∀ i j, 0 ≤ i < lM + 2 → 0 ≤ j < lN + 2 →
        i = 0 ∨ i = lM + 1 ∨ j = 0 ∨ j = lN + 1 → get2 A i j = Some 0%Q in
  ∃ wA wB,
    mapM (λ r, jacobi_2d_distr_A N lM lN (r / Py) (r mod Py)) (seqZ 0 (Px * Py))
    = Some wA
    ∧ mapM (λ r, jacobi_2d_distr_B N lM lN (r / Py) (r mod Py)) (seqZ 0 (Px * Py))
      = Some wB
    ∧ Forall border (wA ++ wB)
    ∧ jacobi_2d_gather Px Py N wA = Some (jacobi_2d_shmem_A N)
    ∧ jacobi_2d_gather Px Py N wB = Some (jacobi_2d_shmem_B N).
Proof.
  intros HPx HPy HN Hmx Hmy lM lN border.
  destruct (init2_gather (λ i j, fdiv (i * (j + 2)) N) Px Py N HPx HPy HN Hmx Hmy)
    as (wA & HA & HFA & HgA).
  destruct (init2_gather (λ i j, fdiv (i * (j + 3)) N) Px Py N HPx HPy HN Hmx Hmy)
    as (wB & HB & HFB & HgB).
  exists wA, wB. split; [ exact HA | ]. split; [ exact HB | ].
  split; [ by apply Forall_app | ]. by split.
Qed.

Lemma jacobi_2d_init_gather_witness :
  let lM := 4 / 2 in
  let lN := 4 / 1 in
  let border (A : array) :=
    shape A = [lM + 2; lN + 2]
    ∧ ∀ i j, 0 ≤ i < lM + 2 → 0 ≤ j < lN + 2 →
        i = 0 ∨ i = lM + 1 ∨ j = 0 ∨ j = lN + 1 → get2 A i j = Some 0%Q in
  ∃ wA wB,
    mapM (λ r, jacobi_2d_distr_A 4 lM lN (r / 1) (r mod 1)) (seqZ 0 (2 * 1))
    = Some wA
    ∧ mapM (λ r, jacobi_2d_distr_B 4 lM lN (r / 1) (r mod 1)) (seqZ 0 (2 * 1))
      = Some wB
    ∧ Forall border (wA ++ wB)
    ∧ jacobi_2d_gather 2 1 4 wA = Some (jacobi_2d_shmem_A 4)
    ∧ jacobi_2d_gather 2 1 4 wB = Some (jacobi_2d_shmem_B 4).
Proof.
  apply (jacobi_2d_init_gather 2 1 4); [ lia | lia | lia | reflexivity | reflexivity ].
Defined.

Section Frame2D.
Context {V : Type}.
Variables (Px Py : Z) (lM lN : nat) (w : list (list V)).
Hypothesis HPx : 0 < Px.
Hypothesis HPy : 0 < Py.
Hypothesis Hsize : Z.of_nat (length w) = Px * Py.
Hypothesis HlM : (1 ≤ lM)%nat.
Hypothesis HlN : (1 ≤ lN)%nat.
Hypothesis Hw : Forall (λ b, length b = ((lM + 2) * (lN + 2))%nat) w.

Lemma waitall_2d_frame (a b : Z) (buf buf' : list V) :
  0 ≤ a < Px → 0 ≤ b < Py → length buf = ((lM + 2) * (lN + 2))%nat →
  waitall (λ r, jacobi_2d_post lM lN (neighbours_2d Px Py (r / Py) (r mod Py)))
          w (a * Py + b) buf = Some buf' →
  ∀ k, k ∉ row_slice (lN + 2) 0 1 (lN + 1) →
       k ∉ row_slice (lN + 2) (lM + 1) 1 (lN + 1) →
       k ∉ col_slice (lN + 2) 0 1 (lM + 1) →
       k ∉ col_slice (lN + 2) (lN + 1) 1 (lM + 1) →
       buf' !! k = buf !! k.
Proof.
  intros Ha Hb Hbuf Hwait k Hk1 Hk2 Hk3 Hk4.
  destruct (recv_north Px Py lM lN w HPx HPy Hsize HlM HlN Hw a b buf Ha Hb Hbuf)
    as (b1 & Hc1 & Hl1 & Hout1 & _).
  destruct (recv_south Px Py lM lN w HPx HPy Hsize HlM HlN Hw a b b1 Ha Hb
              ltac:(congruence)) as (b2 & Hc2 & Hl2 & Hout2 & _).
  destruct (recv_west Px Py lM lN w HPx HPy Hsize HlM HlN Hw a b b2 Ha Hb
              ltac:(congruence)) as (b3 & Hc3 & Hl3 & Hout3 & _).
  destruct (recv_east Px Py lM lN w HPx HPy Hsize HlM HlN Hw a b b3 Ha Hb
              ltac:(congruence)) as (b4 & Hc4 & Hl4 & Hout4 & _).
  unfold waitall in Hwait.
  rewrite (sends_complete_2d Px Py lM lN w HPx HPy Hsize HlM HlN a b Ha Hb) in Hwait.
  rewrite (post_cell Px Py lM lN HPy a b Hb), jacobi_2d_recvs in Hwait.
  cbn [complete_recvs] in Hwait.
  rewrite Hc1 in Hwait. simpl in Hwait. rewrite Hc2 in Hwait. simpl in Hwait.
  rewrite Hc3 in Hwait. simpl in Hwait. rewrite Hc4 in Hwait. simpl in Hwait.
  injection Hwait as <-.
  by rewrite Hout4, Hout3, Hout2, Hout1.
Qed.
End Frame2D.
Section Round2D.
Context {V : Type}.
Variables (Px Py : Z) (lM lN : nat).
Hypothesis HPx : 0 < Px.
Hypothesis HPy : 0 < Py.
Hypothesis HlM : (1 ≤ lM)%nat.
Hypothesis HlN : (1 ≤ lN)%nat.

Lemma round_2d_frame (w w' : list (list V)) :
  Z.of_nat (length w) = Px * Py →
  Forall (λ b, length b = ((lM + 2) * (lN + 2))%nat) w →
  jacobi_2d_round Px Py lM lN w = Some w' →
  ∀ (r : nat) (buf buf' : list V), w !! r = Some buf → w' !! r = Some buf' →
  ∀ k, k ∉ row_slice (lN + 2) 0 1 (lN + 1) →
       k ∉ row_slice (lN + 2) (lM + 1) 1 (lN + 1) →
       k ∉ col_slice (lN + 2) 0 1 (lM + 1) →
       k ∉ col_slice (lN + 2) (lN + 1) 1 (lM + 1) →
       buf' !! k = buf !! k.
Proof.
  intros Hsize Hw Hround r buf buf' Hb Hb'.
  unfold jacobi_2d_round, exchange in Hround.
  assert (∀ (r : nat) (buf : list V), w !! r = Some buf →
            0 ≤ Z.of_nat r / Py < Px ∧ 0 ≤ Z.of_nat r mod Py < Py
            ∧ Z.of_nat r = Z.of_nat r / Py * Py + Z.of_nat r mod Py
            ∧ length buf = ((lM + 2) * (lN + 2))%nat) as Hcell.
  { intros q c Hc. apply lookup_lt_Some in Hc as Hq.
    destruct (rank_coords Px Py (length w) q HPy Hsize Hq) as (? & ? & ?).
    repeat split; try lia. rewrite Forall_lookup in Hw. by eapply Hw. }
  edestruct (exchange_from_Some
               (λ r, jacobi_2d_post lM lN (neighbours_2d Px Py (r / Py) (r mod Py)))
               w 0 w) as (w'' & Hw'' & Hlen & Hget).
  { intros q c Hc. destruct (Hcell q c Hc) as (Ha & Hb0 & He & Hl).
    simpl. rewrite He.
    destruct (waitall_2d Px Py lM lN w HPx HPy Hsize HlM HlN Hw _ _ c Ha Hb0 Hl)
      as (c' & Hwait & _).
    by exists c'. }
  rewrite Hw'' in Hround. injection Hround as ->.
  destruct (Hget r buf Hb) as (buf'' & Hr & Hwait).
  assert (buf'' = buf') as -> by congruence.
  destruct (Hcell r buf Hb) as (Ha & Hb0 & He & Hl).
  simpl in Hwait. rewrite He in Hwait.
  by apply (waitall_2d_frame Px Py lM lN w HPx HPy Hsize HlM HlN Hw
              (Z.of_nat r / Py) (Z.of_nat r mod Py) buf buf').
Qed.

Lemma corner_not_in_strips (i j : nat) :
  (i = 0 ∨ i = lM + 1)%nat → (j = 0 ∨ j = lN + 1)%nat →
  let k := (i * (lN + 2) + j)%nat in
  (k ∉ row_slice (lN + 2) 0 1 (lN + 1))
  ∧ (k ∉ row_slice (lN + 2) (lM + 1) 1 (lN + 1))
  ∧ (k ∉ col_slice (lN + 2) 0 1 (lM + 1))
  ∧ (k ∉ col_slice (lN + 2) (lN + 1) 1 (lM + 1)).
Proof.
  intros Hi Hj k. subst k.
  repeat split.
  - intros (j' & Hj' & He)%elem_of_row_slice. apply cell_inj in He; lia.
  - intros (j' & Hj' & He)%elem_of_row_slice. apply cell_inj in He; lia.
  - intros (i' & Hi' & He)%elem_of_col_slice. apply cell_inj in He; lia.
  - intros (i' & Hi' & He)%elem_of_col_slice. apply cell_inj in He; lia.
Qed.

(** X23. A round of the 2-D exchange writes nothing but the four halo
    strips of a buffer: its four corner cells, which no transfer covers,
    keep their values. *)
Theorem jacobi_2d_round_keeps_corners (w w' : list (list V)) :
  Z.of_nat (length w) = Px * Py →
  Forall (λ b, length b = ((lM + 2) * (lN + 2))%nat) w →
  jacobi_2d_round Px Py lM lN w = Some w' →
  ∀ (r : nat) (buf buf' : list V), w !! r = Some buf → w' !! r = Some buf' →
    (∀ k, k ∉ row_slice (lN + 2) 0 1 (lN + 1) →
          k ∉ row_slice (lN + 2) (lM + 1) 1 (lN + 1) →
          k ∉ col_slice (lN + 2) 0 1 (lM + 1) →
          k ∉ col_slice (lN + 2) (lN + 1) 1 (lM + 1) →
          buf' !! k = buf !! k)
    ∧ ∀ i j, (i = 0 ∨ i = lM + 1)%nat → (j = 0 ∨ j = lN + 1)%nat →
        buf' !! (i * (lN + 2) + j)%nat = buf !! (i * (lN + 2) + j)%nat.
Proof.
  intros Hsize Hw Hround r buf buf' Hb Hb'.
  pose proof (round_2d_frame w w' Hsize Hw Hround r buf buf' Hb Hb') as Hframe.
  split; [ exact Hframe | ].
  intros i j Hi Hj.
  destruct (corner_not_in_strips i j Hi Hj) as (H1 & H2 & H3 & H4).
  by apply Hframe.
Qed.

(** X24. A second exchange round of the 2-D stencil, with no computation in
    between, changes nothing: the round is idempotent. *)
Theorem jacobi_2d_round_idempotent (w w' : list (list V)) :
  Z.of_nat (length w) = Px * Py →
  Forall (λ b, length b = ((lM + 2) * (lN + 2))%nat) w →
  jacobi_2d_round Px Py lM lN w = Some w' →
  jacobi_2d_round Px Py lM lN w' = Some w'.
Proof.
  intros Hsize Hw Hround.
  destruct (jacobi_2d_round_spec Px Py lM lN w HPx HPy Hsize HlM HlN Hw)
    as (w1 & Hw1 & Hlen1 & Hget1).
  rewrite Hround in Hw1. injection Hw1 as <-.
  assert (Forall (λ b, length b = ((lM + 2) * (lN + 2))%nat) w') as Hw'.
  { apply Forall_lookup. intros r b' Hb'.
    destruct (lookup_lt_is_Some_2 w r) as [b Hb];
      [ rewrite <- Hlen1; by eapply lookup_lt_Some | ].
    pose proof (Hget1 r b Hb) as H. cbv zeta in H.
    destruct H as (b1 & Hb1 & Hl & _). congruence. }
  assert (Z.of_nat (length w') = Px * Py) as Hsize' by (by rewrite Hlen1).
  destruct (jacobi_2d_round_spec Px Py lM lN w' HPx HPy Hsize' HlM HlN Hw')
    as (w2 & Hw2 & Hlen2 & Hget2).
  pose proof (round_2d_frame w' w2 Hsize' Hw' Hw2) as Hframe.
  rewrite Hw2. f_equal. apply list_eq. intros r.
  destruct (w' !! r) as [b'|] eqn:Hb'.
  2:{ apply lookup_ge_None in Hb'. apply lookup_ge_None. lia. }
  destruct (lookup_lt_is_Some_2 w r) as [b Hb];
    [ rewrite <- Hlen1; by eapply lookup_lt_Some | ].
  apply lookup_lt_Some in Hb as Hr.
  destruct (rank_coords Px Py (length w) r HPy Hsize Hr) as (Hpi & Hpj & _).
  (* cells of the interior of any rank are the same in [w] and [w'] *)
  assert (∀ q i j, (0 ≤ q < Px * Py) → (1 ≤ i ≤ lM)%nat → (1 ≤ j ≤ lN)%nat →
            w' !! Z.to_nat q ≫= (λ sb, sb !! (i * (lN + 2) + j)%nat)
            = w !! Z.to_nat q ≫= (λ sb, sb !! (i * (lN + 2) + j)%nat)) as Hnb.
  { intros q i j Hq Hi Hj.
    destruct (lookup_lt_is_Some_2 w (Z.to_nat q)) as [c Hc]; [ lia | ].
    pose proof (Hget1 (Z.to_nat q) c Hc) as H. cbv zeta in H.
    destruct H as (c' & Hc' & _ & Hcin & _).
    rewrite Hc', Hc. simpl. by apply Hcin. }
  pose proof (Hget1 r b Hb) as H1. cbv zeta in H1.
  destruct H1 as (b1 & Hb1 & Hl1 & Hin1 & Hn1 & Hs1 & Hwe1 & Hea1).
  assert (b1 = b') as -> by congruence.
  pose proof (Hget2 r b' Hb') as H2. cbv zeta in H2.
  destruct H2 as (b2 & Hb2 & Hl2 & Hin2 & Hn2 & Hs2 & Hwe2 & Hea2).
  rewrite Hb2. f_equal. apply list_eq. intros k.
  destruct (decide (k < (lM + 2) * (lN + 2))%nat) as [Hk | Hk];
    [ | rewrite !lookup_ge_None_2 by lia; done ].
  destruct (radix_split k (lM + 2) (lN + 2) Hk) as (i & j & Hi & Hj & ->).
  destruct (decide (1 ≤ i ≤ lM)%nat) as [Hii | Hii],
           (decide (1 ≤ j ≤ lN)%nat) as [Hjj | Hjj].
  - by apply Hin2.
  - destruct (decide (j = 0%nat)) as [-> | Hj0].
    + rewrite Hwe2, Hwe1 by done.
      destruct (decide (Z.of_nat r mod Py = 0)); [ done | ].
      apply Hnb; [ nia | done | lia ].
    + assert (j = (lN + 1)%nat) as -> by lia.
      rewrite Hea2, Hea1 by done.
      destruct (decide (Z.of_nat r mod Py = Py - 1)); [ done | ].
      apply Hnb; [ nia | done | lia ].
  - destruct (decide (i = 0%nat)) as [-> | Hi0].
    + rewrite Hn2, Hn1 by done.
      destruct (decide (Z.of_nat r / Py = 0)); [ done | ].
      apply Hnb; [ nia | lia | done ].
    + assert (i = (lM + 1)%nat) as -> by lia.
      rewrite Hs2, Hs1 by done.
      destruct (decide (Z.of_nat r / Py = Px - 1)); [ done | ].
      apply Hnb; [ nia | lia | done ].
  - destruct (corner_not_in_strips i j ltac:(lia) ltac:(lia)) as (H1 & H2 & H3 & H4).
    by apply (Hframe r b' b2).
Qed.
End Round2D.

Lemma jacobi_2d_round_keeps_corners_witness :
  (∀ k, k ∉ row_slice (1 + 2) 0 1 (1 + 1) →
        k ∉ row_slice (1 + 2) (1 + 1) 1 (1 + 1) →
        k ∉ col_slice (1 + 2) 0 1 (1 + 1) →
        k ∉ col_slice (1 + 2) (1 + 1) 1 (1 + 1) →
        [0; 1; 2; 3; 4; 14; 6; 7; 8] !! k = [0; 1; 2; 3; 4; 5; 6; 7; 8] !! k)
  ∧ ∀ i j, (i = 0 ∨ i = 1 + 1)%nat → (j = 0 ∨ j = 1 + 1)%nat →
      [0; 1; 2; 3; 4; 14; 6; 7; 8] !! (i * (1 + 2) + j)%nat
      = [0; 1; 2; 3; 4; 5; 6; 7; 8] !! (i * (1 + 2) + j)%nat.
Proof.
  apply (jacobi_2d_round_keeps_corners 1 2 1 1) with
    (w := [[0; 1; 2; 3; 4; 5; 6; 7; 8]; [10; 11; 12; 13; 14; 15; 16; 17; 18]])
    (w' := [[0; 1; 2; 3; 4; 14; 6; 7; 8]; [10; 11; 12; 4; 14; 15; 16; 17; 18]])
    (r := 0%nat);
    [ lia | lia | lia | lia | reflexivity | repeat constructor | reflexivity
    | reflexivity | reflexivity ].
Defined.

Lemma jacobi_2d_round_idempotent_witness :
  jacobi_2d_round 1 2 1 1
    [[0; 1; 2; 3; 4; 14; 6; 7; 8]; [10; 11; 12; 4; 14; 15; 16; 17; 18]]
  = Some [[0; 1; 2; 3; 4; 14; 6; 7; 8]; [10; 11; 12; 4; 14; 15; 16; 17; 18]].
Proof.
  apply (jacobi_2d_round_idempotent 1 2 1 1) with
    (w := [[0; 1; 2; 3; 4; 5; 6; 7; 8]; [10; 11; 12; 13; 14; 15; 16; 17; 18]]);
    [ lia | lia | lia | lia | reflexivity | repeat constructor | reflexivity ].
Defined.
